(** * Alert engine, market-data cache and broadcast layer of the stock dashboard

    A shallow embedding of the three services of
    [backend/services]: [AlertService], [MarketDataService] and
    [WebSocketService], together with the alert-check handler of
    [routes/alerts.js], and the properties of them that the design
    document states.

    Conventions.
    - A JavaScript number is an IEEE 754 binary64 value: Rocq's primitive
      [float].  [a > b] is [PrimFloat.ltb b a], [a >= b] is
      [PrimFloat.leb b a], [Math.abs] is [PrimFloat.abs].
    - A [Date] is its number of milliseconds since the epoch, in [Z].
    - Mongo collections are lists of documents; [_id]s are natural numbers.
    - JS objects and [Map]s used as dictionaries are [gmap]s, [Set]s are
      [gset]s.
    - An [await]ed collaborator (database, mail transport, quote provider)
      is a field of an environment record; what it may answer, including
      a rejection, is a constructor of its result type. *)

From Stdlib Require Import ZArith List Bool Lia Floats Ascii String.
From stdpp Require Import gmap strings list fin_maps.

Set Warnings "-inexact-float".
Local Open Scope Z_scope.

(** ** Strings *)

(** [String.prototype.toUpperCase].  Symbols are taken to be strings of
    ASCII characters, on which it maps [a]-[z] to [A]-[Z] and keeps
    every other character. *)
Definition upperAscii (c : ascii) : ascii :=
  let n := nat_of_ascii c in
  if (Nat.leb 97 n && Nat.leb n 122)%bool then ascii_of_nat (n - 32) else c.

Fixpoint toUpperCase (s : string) : string :=
  match s with
  | EmptyString => EmptyString
  | String c r => String (upperAscii c) (toUpperCase r)
  end.

(** ** models/Alert.js *)

Inductive AlertType := price | volume | change_percent | technical.
Inductive Condition := above | below | equals.
Inductive Priority := low | medium | high.

Record Alert := mkAlert {
  _id : nat;
  userId : nat;
  symbol : string;
  alertType : AlertType;
  condition : Condition;
  targetValue : float;
  currentValue : float;
  message : string;
  isActive : bool;
  isTriggered : bool;
  triggeredAt : option Z;
  notificationSent : bool;
  priority : Priority;
  expiresAt : option Z;
  createdAt : Z;
  updatedAt : Z
}.

(** Field assignments on a document. *)
Definition set_currentValue (v : float) (a : Alert) : Alert :=
  mkAlert (_id a) (userId a) (symbol a) (alertType a) (condition a)
    (targetValue a) v (message a) (isActive a) (isTriggered a)
    (triggeredAt a) (notificationSent a) (priority a) (expiresAt a)
    (createdAt a) (updatedAt a).

Definition set_isTriggered (b : bool) (a : Alert) : Alert :=
  mkAlert (_id a) (userId a) (symbol a) (alertType a) (condition a)
    (targetValue a) (currentValue a) (message a) (isActive a) b
    (triggeredAt a) (notificationSent a) (priority a) (expiresAt a)
    (createdAt a) (updatedAt a).

Definition set_triggeredAt (t : option Z) (a : Alert) : Alert :=
  mkAlert (_id a) (userId a) (symbol a) (alertType a) (condition a)
    (targetValue a) (currentValue a) (message a) (isActive a) (isTriggered a)
    t (notificationSent a) (priority a) (expiresAt a)
    (createdAt a) (updatedAt a).

Definition set_notificationSent (b : bool) (a : Alert) : Alert :=
  mkAlert (_id a) (userId a) (symbol a) (alertType a) (condition a)
    (targetValue a) (currentValue a) (message a) (isActive a) (isTriggered a)
    (triggeredAt a) b (priority a) (expiresAt a)
    (createdAt a) (updatedAt a).

Definition set_isActive (b : bool) (a : Alert) : Alert :=
  mkAlert (_id a) (userId a) (symbol a) (alertType a) (condition a)
    (targetValue a) (currentValue a) (message a) b (isTriggered a)
    (triggeredAt a) (notificationSent a) (priority a) (expiresAt a)
    (createdAt a) (updatedAt a).

(** The [pre('save')] hook of the schema. *)
Definition set_updatedAt (t : Z) (a : Alert) : Alert :=
  mkAlert (_id a) (userId a) (symbol a) (alertType a) (condition a)
    (targetValue a) (currentValue a) (message a) (isActive a) (isTriggered a)
    (triggeredAt a) (notificationSent a) (priority a) (expiresAt a)
    (createdAt a) t.

(** ** models/MarketData.js: the fields the services read *)

Inductive Source := yahoo_finance | alpha_vantage | manual.

Record MarketData := mkMarketData {
  md_symbol : string;
  md_price : float;
  md_change : float;
  md_changePercent : float;
  md_volume : float;
  md_dayHigh : float;
  md_dayLow : float;
  md_previousClose : float;
  md_marketCap : option float;
  md_lastUpdated : Z;
  md_source : Source
}.

(** [marketDataList.forEach(data => { marketDataMap[data.symbol] = data })]:
    a later record of the list overwrites an earlier one. *)
Definition buildMarketDataMap (l : list MarketData) : gmap string MarketData :=
  fold_left (fun m d => <[md_symbol d := d]> m) l ∅.

(** * services/alertService.js *)

Module AlertService.

(** ** Collaborators *)

(** The fields of a [User] document that the service reads.
    [notifications_email] is [user.preferences.notifications.email];
    [None] stands for a document on which that path is undefined, where
    reading it throws a [TypeError]. *)
Record User := mkUser {
  user_id : nat;
  email : string;
  notifications_email : option bool
}.

(** What [await User.findById(id)] may do. *)
Inductive UserLookup :=
| LookupRejects
| LookupNull
| LookupUser (u : User).

(** What [await emailTransporter.sendMail(...)] may do. *)
Inductive MailResult := MailSent | MailRejected.

Record Env := mkEnv {
  findById : nat -> UserLookup;
  (** [this.emailTransporter]: [None] when [EMAIL_HOST], [EMAIL_USER] or
      [EMAIL_PASS] is unset. *)
  emailTransporter : option (User -> Alert -> MailResult);
  (** Whether [alert.save()] of this document resolves. *)
  saveOk : Alert -> bool
}.

(** ** Observable effects, in the order they happen *)

Inductive Event :=
| Saved (a : Alert)
| SaveRejected (a : Alert)
| NotificationDispatched (id : nat)
| MailAttempt (id : nat) (to : string) (r : MailResult)
| ErrorLogged (id : nat).

Record Store := mkStore {
  alerts : list Alert;
  log : list Event
}.

Definition emit (e : Event) (st : Store) : Store :=
  mkStore (alerts st) (log st ++ [e]).

(** The write [save] sends for a document, taken as the whole document:
    the stored document with the same [_id] is replaced.  Mongoose sends
    the paths modified since the document was read; that is the same
    write whenever the stored document is still the one that was read,
    as it is for calls of [checkAlerts] that do not overlap.  Where
    calls overlap, the statements below use only which [_id] a write is
    for and what is logged. *)
Definition replaceDoc (a : Alert) (db : list Alert) : list Alert :=
  map (fun x => if Nat.eqb (_id x) (_id a) then a else x) db.

(** [await alert.save()]: the [pre('save')] hook runs on the document,
    then the write is sent; [false] when it rejects. *)
Definition save (env : Env) (now : Z) (alert : Alert) (st : Store)
  : Alert * Store * bool :=
  let doc := set_updatedAt now alert in
  if saveOk env doc
  then (doc, emit (Saved doc) (mkStore (replaceDoc doc (alerts st)) (log st)), true)
  else (doc, emit (SaveRejected doc) st, false).

(** ** sendEmailNotification *)

Definition sendEmailNotification (env : Env) (now : Z) (user : User)
  (alert : Alert) (st : Store) : Alert * Store :=
  match triggeredAt alert with
  | None =>
    (* [alert.triggeredAt.toLocaleString()] throws; caught and logged *)
    (alert, emit (ErrorLogged (_id alert)) st)
  | Some _ =>
    match emailTransporter env with
    | None =>
      (* [this.emailTransporter.sendMail] on [null]; caught and logged *)
      (alert, emit (ErrorLogged (_id alert)) st)
    | Some sendMail =>
      match sendMail user alert with
      | MailRejected =>
        (alert,
         emit (ErrorLogged (_id alert))
           (emit (MailAttempt (_id alert) (email user) MailRejected) st))
      | MailSent =>
        let st1 := emit (MailAttempt (_id alert) (email user) MailSent) st in
        let r := save env now (set_notificationSent true alert) st1 in
        if snd r
        then (fst (fst r), snd (fst r))
        else (fst (fst r), emit (ErrorLogged (_id alert)) (snd (fst r)))
      end
    end
  end.

(** ** sendAlertNotification *)

Definition sendAlertNotification (env : Env) (now : Z) (alert : Alert)
  (st : Store) : Alert * Store :=
  let st0 := emit (NotificationDispatched (_id alert)) st in
  match findById env (userId alert) with
  | LookupRejects => (alert, emit (ErrorLogged (_id alert)) st0)
  | LookupNull => (alert, st0)
  | LookupUser user =>
    match emailTransporter env with
    | None => (alert, st0)
    | Some _ =>
      match notifications_email user with
      | None => (alert, emit (ErrorLogged (_id alert)) st0)
      | Some false => (alert, st0)
      | Some true => sendEmailNotification env now user alert st0
      end
    end
  end.

(** ** checkAlerts *)

(** The query of [checkAlerts]:
    [{ isActive: true, isTriggered: false,
       $or: [{ expiresAt: { $exists: false } }, { expiresAt: { $gt: now } }] }]. *)
Definition eligible (now : Z) (a : Alert) : bool :=
  isActive a && negb (isTriggered a) &&
  match expiresAt a with
  | None => true
  | Some e => Z.ltb now e
  end.

(** [switch (alert.alertType)]; [None] is the [default: continue]. *)
Definition observedValue (t : AlertType) (marketData : MarketData) : option float :=
  match t with
  | price => Some (md_price marketData)
  | volume => Some (md_volume marketData)
  | change_percent => Some (md_changePercent marketData)
  | technical => None
  end.

(** [switch (alert.condition)]. *)
Definition shouldTrigger (c : Condition) (currentValue targetValue : float) : bool :=
  match c with
  | above => PrimFloat.ltb targetValue currentValue
  | below => PrimFloat.ltb currentValue targetValue
  | equals => PrimFloat.ltb (PrimFloat.abs (currentValue - targetValue)) 0.01
  end.

(** How one iteration of [for (const alert of activeAlerts)] ends. *)
Inductive Iteration := Skipped | Tracked | Fired | Threw.

Definition markTriggered (now : Z) (currentValue : float) (alert : Alert) : Alert :=
  set_currentValue currentValue
    (set_triggeredAt (Some now) (set_isTriggered true alert)).

Definition processAlert (env : Env) (now : Z)
  (marketDataMap : gmap string MarketData) (alert : Alert) (st : Store)
  : Store * Iteration :=
  match marketDataMap !! symbol alert with
  | None => (st, Skipped)
  | Some marketData =>
    match observedValue (alertType alert) marketData with
    | None => (st, Skipped)
    | Some currentValue =>
      if shouldTrigger (condition alert) currentValue (targetValue alert)
      then
        let r := save env now (markTriggered now currentValue alert) st in
        if snd r
        then (snd (sendAlertNotification env now (fst (fst r)) (snd (fst r))), Fired)
        else (snd (fst r), Threw)
      else
        let r := save env now (set_currentValue currentValue alert) st in
        (snd (fst r), if snd r then Tracked else Threw)
    end
  end.

(** The loop; [None] when an iteration threw, which leaves the loop. *)
Fixpoint checkLoop (env : Env) (now : Z) (marketDataMap : gmap string MarketData)
  (activeAlerts : list Alert) (triggeredCount : nat) (st : Store)
  : Store * option nat :=
  match activeAlerts with
  | [] => (st, Some triggeredCount)
  | alert :: rest =>
    let r := processAlert env now marketDataMap alert st in
    match snd r with
    | Threw => (fst r, None)
    | Fired => checkLoop env now marketDataMap rest (S triggeredCount) (fst r)
    | Skipped | Tracked => checkLoop env now marketDataMap rest triggeredCount (fst r)
    end
  end.

Inductive CheckResult :=
| Checked (checked triggered : nat)
| CheckRejected.

(** [checkAlerts()].  [now] is the clock of the cycle and [quotes] what
    [MarketData.getMultiple(symbols)] answered. *)
Definition checkAlerts (env : Env) (now : Z) (quotes : list MarketData)
  (st : Store) : Store * CheckResult :=
  let activeAlerts := List.filter (eligible now) (alerts st) in
  match activeAlerts with
  | [] => (st, Checked 0 0)
  | _ :: _ =>
    let r := checkLoop env now (buildMarketDataMap quotes) activeAlerts 0 st in
    match snd r with
    | Some triggeredCount => (fst r, Checked (length activeAlerts) triggeredCount)
    | None => (fst r, CheckRejected)
    end
  end.

(** ** updateAlert, deleteAlert, cleanupExpiredAlerts *)

(** The [updates] object of [updateAlert]: any path of the schema may
    be given, the owner and the two dates of the document included; a
    field is [None] when the object does not have it.  The values are
    of the types of the schema, as the casts and the validators of
    [runValidators: true] require; an object that assigns [_id], which
    MongoDB refuses, or [null] to a path is outside this model. *)
Record AlertUpdates := mkUpdates {
  upd_userId : option nat;
  upd_symbol : option string;
  upd_alertType : option AlertType;
  upd_condition : option Condition;
  upd_targetValue : option float;
  upd_currentValue : option float;
  upd_message : option string;
  upd_isActive : option bool;
  upd_isTriggered : option bool;
  upd_triggeredAt : option Z;
  upd_notificationSent : option bool;
  upd_priority : option Priority;
  upd_expiresAt : option Z;
  upd_createdAt : option Z;
  upd_updatedAt : option Z
}.

Definition noUpdates : AlertUpdates :=
  mkUpdates None None None None None None None None None None None None None
    None None.

(** [{ $set: updates }]: every path the object has is written, the
    others are kept; the schema upper-cases [symbol].  An update runs no
    [save] hook: [updatedAt] changes only when the object has it. *)
Definition applyUpdates (u : AlertUpdates) (a : Alert) : Alert :=
  mkAlert (_id a)
    (default (userId a) (upd_userId u))
    (default (symbol a) (toUpperCase <$> upd_symbol u))
    (default (alertType a) (upd_alertType u))
    (default (condition a) (upd_condition u))
    (default (targetValue a) (upd_targetValue u))
    (default (currentValue a) (upd_currentValue u))
    (default (message a) (upd_message u))
    (default (isActive a) (upd_isActive u))
    (default (isTriggered a) (upd_isTriggered u))
    (match upd_triggeredAt u with
     | Some t => Some t
     | None => triggeredAt a
     end)
    (default (notificationSent a) (upd_notificationSent u))
    (default (priority a) (upd_priority u))
    (match upd_expiresAt u with
     | Some e => Some e
     | None => expiresAt a
     end)
    (default (createdAt a) (upd_createdAt u))
    (default (updatedAt a) (upd_updatedAt u)).

(** [Alert.findOneAndUpdate(filter, update, { new: true })]: the first
    document the filter selects is updated and returned. *)
Fixpoint findOneAndUpdate (p : Alert -> bool) (f : Alert -> Alert)
  (db : list Alert) : option Alert * list Alert :=
  match db with
  | [] => (None, [])
  | x :: rest =>
    if p x then (Some (f x), f x :: rest)
    else (fst (findOneAndUpdate p f rest), x :: snd (findOneAndUpdate p f rest))
  end.

Definition ownedBy (alertId user : nat) (a : Alert) : bool :=
  Nat.eqb (_id a) alertId && Nat.eqb (userId a) user.

(** [updateAlert(alertId, userId, updates)]; [None] is
    [throw new Error('Alert not found')]. *)
Definition updateAlert (alertId user : nat) (updates : AlertUpdates)
  (db : list Alert) : option Alert * list Alert :=
  findOneAndUpdate (ownedBy alertId user) (applyUpdates updates) db.

Definition deleteAlert (alertId user : nat) (db : list Alert)
  : option Alert * list Alert :=
  findOneAndUpdate (ownedBy alertId user) (set_isActive false) db.

(** The filter of the sweep: [{ expiresAt: { $lt: now }, isActive: true }]. *)
Definition expired (now : Z) (a : Alert) : bool :=
  match expiresAt a with
  | None => false
  | Some e => Z.ltb e now
  end && isActive a.

(** [cleanupExpiredAlerts()]: [updateMany] and its [modifiedCount]. *)
Definition cleanupExpiredAlerts (now : Z) (db : list Alert) : nat * list Alert :=
  (length (List.filter (expired now) db),
   map (fun a => if expired now a then set_isActive false a else a) db).

(** ** Histories: cycles and sweeps, one after the other *)

Inductive Op :=
| Cycle (now : Z) (quotes : list MarketData)
| Sweep (now : Z).

Definition runOp (env : Env) (st : Store) (op : Op) : Store :=
  match op with
  | Cycle now quotes => fst (checkAlerts env now quotes st)
  | Sweep now => mkStore (snd (cleanupExpiredAlerts now (alerts st))) (log st)
  end.

Definition runOps (env : Env) (ops : list Op) (st : Store) : Store :=
  fold_left (runOp env) ops st.

(** ** Framing: what one step may touch *)

Definition eventId (e : Event) : nat :=
  match e with
  | Saved a => _id a
  | SaveRejected a => _id a
  | NotificationDispatched id => id
  | MailAttempt id _ _ => id
  | ErrorLogged id => id
  end.

(** [only P st st']: going from [st] to [st'] rewrote only documents
    whose [_id] satisfies [P], kept every [_id] in place, and logged
    only events about such documents. *)
Record only (P : nat -> Prop) (st st' : Store) : Prop := mkOnly {
  only_ids : map _id (alerts st') = map _id (alerts st);
  only_keeps : forall x, In x (alerts st) -> ~ P (_id x) -> In x (alerts st');
  only_kept : forall x, In x (alerts st') -> ~ P (_id x) -> In x (alerts st);
  only_log : exists evs, log st' = log st ++ evs /\ Forall (fun e => P (eventId e)) evs
}.

Lemma only_refl (P : nat -> Prop) st : only P st st.
Proof.
  split; auto.
  exists []. split; [now rewrite app_nil_r | constructor].
Qed.

Lemma only_trans (P : nat -> Prop) st1 st2 st3 :
  only P st1 st2 -> only P st2 st3 -> only P st1 st3.
Proof.
  intros [i1 k1 b1 (e1 & l1 & f1)] [i2 k2 b2 (e2 & l2 & f2)].
  split.
  - now rewrite i2.
  - auto.
  - auto.
  - exists (e1 ++ e2). split.
    + now rewrite l2, l1, app_assoc.
    + apply Forall_app; auto.
Qed.

Lemma only_weaken (P Q : nat -> Prop) st st' :
  (forall i, P i -> Q i) -> only P st st' -> only Q st st'.
Proof.
  intros PQ [i k b (e & l & f)].
  split.
  - exact i.
  - intros x Hin Hn. apply k; auto.
  - intros x Hin Hn. apply b; auto.
  - exists e. split; auto.
    eapply List.Forall_impl; [|exact f]. simpl. auto.
Qed.

Lemma replaceDoc_ids d db : map _id (replaceDoc d db) = map _id db.
Proof.
  unfold replaceDoc. rewrite map_map. apply map_ext_in.
  intros x _. destruct (Nat.eqb_spec (_id x) (_id d)); congruence.
Qed.

Lemma replaceDoc_keeps x d db :
  In x db -> _id x <> _id d -> In x (replaceDoc d db).
Proof.
  intros Hin Hne. unfold replaceDoc. apply in_map_iff.
  exists x. split; auto.
  destruct (Nat.eqb_spec (_id x) (_id d)); congruence.
Qed.

Lemma replaceDoc_inv x d db :
  In x (replaceDoc d db) -> x = d \/ (In x db /\ _id x <> _id d).
Proof.
  unfold replaceDoc. intros Hin. apply in_map_iff in Hin.
  destruct Hin as (y & Hy & Hin).
  destruct (Nat.eqb_spec (_id y) (_id d)); subst; auto.
Qed.

Lemma replaceDoc_hit x d db :
  In x (replaceDoc d db) -> _id x = _id d -> x = d.
Proof.
  intros Hin Heq. apply replaceDoc_inv in Hin.
  destruct Hin as [|[_ Hne]]; congruence.
Qed.

Lemma replaceDoc_In a d db :
  In a db -> _id a = _id d -> In d (replaceDoc d db).
Proof.
  intros Hin Hid. unfold replaceDoc. apply in_map_iff.
  exists a. split; auto. now rewrite Hid, Nat.eqb_refl.
Qed.

Lemma emit_only (P : nat -> Prop) e st : P (eventId e) -> only P st (emit e st).
Proof.
  intros He. split; simpl; auto.
  exists [e]. split; auto.
Qed.

Lemma save_doc env now a st :
  fst (fst (save env now a st)) = set_updatedAt now a.
Proof. unfold save. now destruct (saveOk env _). Qed.

Lemma save_only env now a st :
  only (eq (_id a)) st (snd (fst (save env now a st))).
Proof.
  unfold save. destruct (saveOk env _); simpl.
  - split; simpl.
    + apply replaceDoc_ids.
    + intros x Hin Hne. apply replaceDoc_keeps; simpl; auto.
    + intros x Hin Hne. apply replaceDoc_inv in Hin.
      destruct Hin as [->|[Hin _]]; auto. now destruct Hne.
    + eexists. split; [reflexivity|]. repeat constructor.
  - now apply emit_only.
Qed.

Lemma sendEmailNotification_only env now user a st :
  only (eq (_id a)) st (snd (sendEmailNotification env now user a st)).
Proof.
  unfold sendEmailNotification.
  destruct (triggeredAt a); [|now apply emit_only].
  destruct (emailTransporter env) as [sendMail|]; [|now apply emit_only].
  destruct (sendMail user a).
  - pose proof (save_only env now (set_notificationSent true a)
                  (emit (MailAttempt (_id a) (email user) MailSent) st)) as Hs.
    simpl in Hs.
    assert (only (eq (_id a)) st
              (snd (fst (save env now (set_notificationSent true a)
                 (emit (MailAttempt (_id a) (email user) MailSent) st))))) as H.
    { eapply only_trans; [|exact Hs]. now apply emit_only. }
    destruct (snd (save _ _ _ _)); simpl; auto.
    eapply only_trans; [exact H|]. now apply emit_only.
  - simpl. eapply only_trans; apply emit_only; reflexivity.
Qed.

Lemma sendAlertNotification_only env now a st :
  only (eq (_id a)) st (snd (sendAlertNotification env now a st)).
Proof.
  unfold sendAlertNotification.
  assert (only (eq (_id a)) st (emit (NotificationDispatched (_id a)) st)) as H0
    by now apply emit_only.
  destruct (findById env (userId a)) as [| |user]; simpl; auto.
  - eapply only_trans; [exact H0|]. now apply emit_only.
  - destruct (emailTransporter env); simpl; auto.
    destruct (notifications_email user) as [[|]|]; simpl; auto.
    + eapply only_trans; [exact H0|]. apply sendEmailNotification_only.
    + eapply only_trans; [exact H0|]. now apply emit_only.
Qed.

Lemma processAlert_only env now m a st :
  only (eq (_id a)) st (fst (processAlert env now m a st)).
Proof.
  unfold processAlert.
  destruct (m !! symbol a) as [md|]; [|apply only_refl].
  destruct (observedValue (alertType a) md) as [v|]; [|apply only_refl].
  destruct (shouldTrigger _ _ _).
  - pose proof (save_only env now (markTriggered now v a) st) as Hs.
    pose proof (save_doc env now (markTriggered now v a) st) as Hd.
    destruct (snd (save _ _ _ _)); simpl; auto.
    eapply only_trans; [exact Hs|].
    pose proof (sendAlertNotification_only env now
      (fst (fst (save env now (markTriggered now v a) st)))
      (snd (fst (save env now (markTriggered now v a) st)))) as Hn.
    rewrite Hd in Hn at 1. exact Hn.
  - simpl. apply (save_only env now (set_currentValue v a) st).
Qed.

Lemma checkLoop_only env now m l : forall n st,
  only (fun i => In i (map _id l)) st (fst (checkLoop env now m l n st)).
Proof.
  induction l as [|a l IH]; intros n st; simpl.
  - apply only_refl.
  - pose proof (processAlert_only env now m a st) as Hp.
    assert (only (fun i => _id a = i \/ In i (map _id l)) st
              (fst (processAlert env now m a st))) as Hp'
      by (eapply only_weaken; [|exact Hp]; auto).
    destruct (snd (processAlert env now m a st)); simpl; auto;
      (eapply only_trans; [exact Hp'|]);
      (eapply only_weaken; [|apply IH]); auto.
Qed.

Lemma checkAlerts_only env now quotes st :
  only (fun i => In i (map _id (List.filter (eligible now) (alerts st))))
    st (fst (checkAlerts env now quotes st)).
Proof.
  unfold checkAlerts.
  destruct (List.filter (eligible now) (alerts st)) as [|a l] eqn:E.
  - apply only_refl.
  - pose proof (checkLoop_only env now (buildMarketDataMap quotes) (a :: l) 0 st) as H.
    destruct (snd (checkLoop _ _ _ _ _ _)); exact H.
Qed.

(** ** A triggered alert is out of the reach of cycles and sweeps *)

Lemma NoDup_map_same {A B : Type} (f : A -> B) (l : list A) a b :
  List.NoDup (map f l) -> In a l -> In b l -> f a = f b -> a = b.
Proof.
  induction l as [|x l IH]; simpl; [tauto|].
  intros Hnd Ha Hb Hf. inversion Hnd as [|? ? Hx Hl]; subst.
  destruct Ha as [->|Ha], Hb as [->|Hb]; auto.
  - destruct Hx. rewrite Hf. now apply in_map.
  - destruct Hx. rewrite <- Hf. now apply in_map.
Qed.

Lemma not_eligible_not_selected now db a :
  List.NoDup (map _id db) -> In a db -> eligible now a = false ->
  ~ In (_id a) (map _id (List.filter (eligible now) db)).
Proof.
  intros Hnd Hin Hne Hsel.
  apply in_map_iff in Hsel. destruct Hsel as (b & Hid & Hb).
  apply filter_In in Hb. destruct Hb as [Hb He].
  assert (b = a) by (eapply NoDup_map_same; eauto).
  congruence.
Qed.

Lemma triggered_not_eligible now a : isTriggered a = true -> eligible now a = false.
Proof.
  intros H. unfold eligible. rewrite H.
  now rewrite andb_false_r.
Qed.

Lemma cleanup_ids now db :
  map _id (snd (cleanupExpiredAlerts now db)) = map _id db.
Proof.
  simpl. rewrite map_map. apply map_ext.
  intros a. now destruct (expired now a).
Qed.

Lemma runOp_ids env st op : map _id (alerts (runOp env st op)) = map _id (alerts st).
Proof.
  destruct op as [now quotes|now]; simpl.
  - apply (only_ids _ _ _ (checkAlerts_only env now quotes st)).
  - rewrite map_map. apply map_ext. intros a. now destruct (expired now a).
Qed.

(** What a sweep may make of a document. *)
Definition swept (a a' : Alert) : Prop := a' = a \/ a' = set_isActive false a.

Lemma swept_id a a' : swept a a' -> _id a' = _id a.
Proof. now intros [->| ->]. Qed.

Lemma swept_triggered a a' : swept a a' -> isTriggered a' = isTriggered a.
Proof. now intros [->| ->]. Qed.

Lemma swept_again a a' b : swept a a' -> swept a' b -> swept a b.
Proof.
  unfold swept. intros [->| ->] [->| ->]; auto.
Qed.

(** One operation: a triggered document is kept as it is by a cycle, a
    sweep changes at most its [isActive], and nothing is logged about it. *)
Lemma runOp_triggered env st op a :
  List.NoDup (map _id (alerts st)) -> In a (alerts st) -> isTriggered a = true ->
  (exists a', In a' (alerts (runOp env st op)) /\ swept a a' /\
              (forall now quotes, op = Cycle now quotes -> a' = a)) /\
  exists evs, log (runOp env st op) = log st ++ evs /\
              Forall (fun e => eventId e <> _id a) evs.
Proof.
  intros Hnd Hin Htr. destruct op as [now quotes|now]; simpl.
  - pose proof (checkAlerts_only env now quotes st) as [_ Hk _ (evs & Hl & Hf)].
    pose proof (not_eligible_not_selected now _ a Hnd Hin
                  (triggered_not_eligible now a Htr)) as Hno.
    split.
    + exists a. split; [now apply Hk|]. split; [now left|auto].
    + exists evs. split; auto.
      eapply List.Forall_impl; [|exact Hf]. simpl. intros e He Heq.
      apply Hno. now rewrite <- Heq.
  - split.
    + exists (if expired now a then set_isActive false a else a).
      split; [|split].
      * apply in_map_iff. now exists a.
      * destruct (expired now a); [now right|now left].
      * discriminate.
    + exists []. split; [now rewrite app_nil_r|constructor].
Qed.

Definition isCycle (op : Op) : Prop :=
  match op with Cycle _ _ => True | Sweep _ => False end.

(** The alert of the scenario of the design document, after it fired. *)
Definition niftyFired : Alert :=
  mkAlert 1 7 "NIFTY" price above 20000 20050 "NIFTY above 20000"
    true true (Some 120000) false high None 0 120000.

Definition rearm : AlertUpdates :=
  mkUpdates None None None None None None None None (Some false) None None None
    None None None.

(** C4 as stated fails for the update operation: [updateAlert] writes
    whatever fields its caller gives, [isTriggered] among them, and the
    next cycle evaluates the re-armed alert and fires it a second time. *)
Lemma updateAlert_resets_isTriggered :
  isTriggered niftyFired = true /\
  updateAlert 1 7 rearm [niftyFired]
    = (Some (set_isTriggered false niftyFired), [set_isTriggered false niftyFired]) /\
  isTriggered (set_isTriggered false niftyFired) = false /\
  snd (checkAlerts (mkEnv (fun _ => LookupNull) None (fun _ => true)) 180000
         [mkMarketData "NIFTY" 20100 0 0 0 0 0 0 None 170000 yahoo_finance]
         (mkStore (snd (updateAlert 1 7 rearm [niftyFired])) []))
    = Checked 1 1.
Proof.
  split; [reflexivity|]. split; [reflexivity|]. split; [reflexivity|].
  vm_compute. reflexivity.
Qed.

(** ** The trigger transition and its notification *)

Definition isDispatch (e : Event) : bool :=
  match e with NotificationDispatched _ => true | _ => false end.

Definition isMail (e : Event) : bool :=
  match e with MailAttempt _ _ _ => true | _ => false end.

(** The document the second [save], of [sendEmailNotification], writes. *)
Definition markSent (now : Z) (a : Alert) : Alert :=
  set_updatedAt now (set_notificationSent true a).

Lemma save_true env now a st :
  saveOk env (set_updatedAt now a) = true ->
  save env now a st
  = (set_updatedAt now a,
     mkStore (replaceDoc (set_updatedAt now a) (alerts st))
             (log st ++ [Saved (set_updatedAt now a)]), true).
Proof. intros H. unfold save. now rewrite H. Qed.

Lemma save_false env now a st :
  saveOk env (set_updatedAt now a) = false ->
  save env now a st
  = (set_updatedAt now a, emit (SaveRejected (set_updatedAt now a)) st, false).
Proof. intros H. unfold save. now rewrite H. Qed.

(** [sendEmailNotification]: at most one mail is attempted, no dispatch
    is logged, and the store changes only by the write of [markSent],
    right after a mail the transport accepted. *)
Lemma sendEmailNotification_spec env now user a st :
  exists evs,
    log (snd (sendEmailNotification env now user a st)) = log st ++ evs /\
    List.filter isDispatch evs = [] /\
    (length (List.filter isMail evs) <= 1)%nat /\
    (alerts (snd (sendEmailNotification env now user a st)) = alerts st \/
     exists sendMail,
       emailTransporter env = Some sendMail /\ sendMail user a = MailSent /\
       evs = [MailAttempt (_id a) (email user) MailSent; Saved (markSent now a)] /\
       alerts (snd (sendEmailNotification env now user a st))
       = replaceDoc (markSent now a) (alerts st)).
Proof.
  unfold sendEmailNotification.
  destruct (triggeredAt a).
  2:{ exists [ErrorLogged (_id a)]. simpl. auto. }
  destruct (emailTransporter env) as [sendMail|] eqn:Et.
  2:{ exists [ErrorLogged (_id a)]. simpl. auto. }
  destruct (sendMail user a) eqn:Es.
  - destruct (saveOk env (markSent now a)) eqn:Eok.
    + unfold markSent in Eok. rewrite (save_true _ _ _ _ Eok). simpl.
      exists [MailAttempt (_id a) (email user) MailSent; Saved (markSent now a)].
      rewrite <- app_assoc. simpl. repeat split; auto.
      right. exists sendMail. repeat split; auto.
    + unfold markSent in Eok. rewrite (save_false _ _ _ _ Eok). simpl.
      exists [MailAttempt (_id a) (email user) MailSent;
              SaveRejected (markSent now a); ErrorLogged (_id a)].
      rewrite <- !app_assoc. simpl. repeat split; auto.
  - simpl.
    exists [MailAttempt (_id a) (email user) MailRejected; ErrorLogged (_id a)].
    rewrite <- app_assoc. simpl. repeat split; auto.
Qed.

(** [sendAlertNotification]: one dispatch is logged, first; the rest is
    as for [sendEmailNotification], which runs only for a user that is
    found and has the mail preference on, with a transport configured. *)
Lemma sendAlertNotification_spec env now a st :
  exists evs,
    log (snd (sendAlertNotification env now a st))
    = log st ++ NotificationDispatched (_id a) :: evs /\
    List.filter isDispatch evs = [] /\
    (length (List.filter isMail evs) <= 1)%nat /\
    (alerts (snd (sendAlertNotification env now a st)) = alerts st \/
     exists user sendMail,
       findById env (userId a) = LookupUser user /\
       notifications_email user = Some true /\
       emailTransporter env = Some sendMail /\ sendMail user a = MailSent /\
       evs = [MailAttempt (_id a) (email user) MailSent; Saved (markSent now a)] /\
       alerts (snd (sendAlertNotification env now a st))
       = replaceDoc (markSent now a) (alerts st)).
Proof.
  unfold sendAlertNotification.
  destruct (findById env (userId a)) as [| |user] eqn:Eu; simpl.
  - exists [ErrorLogged (_id a)]. rewrite <- app_assoc. simpl. auto.
  - exists []. simpl. auto.
  - destruct (emailTransporter env) as [sendMail|] eqn:Et; simpl.
    2:{ exists []. simpl. auto. }
    destruct (notifications_email user) as [[|]|] eqn:Ep; simpl.
    + destruct (sendEmailNotification_spec env now user a
                  (emit (NotificationDispatched (_id a)) st))
        as (evs & Hl & Hd & Hm & Hs).
      exists evs. simpl in Hl. rewrite <- app_assoc in Hl. simpl in Hl.
      repeat split; auto.
      destruct Hs as [Hs|(f & Hf & Hsent & Hin & Hs)]; [now left|right].
      rewrite Et in Hf. injection Hf as <-.
      exists user, sendMail. repeat split; auto.
    + exists []. simpl. auto.
    + exists [ErrorLogged (_id a)]. rewrite <- app_assoc. simpl. auto.
Qed.





(** ** notificationSent *)



(** ** The decision of a cycle *)

Section AllSavesResolve.

Variable env : Env.
Variable now : Z.
Variable m : gmap string MarketData.
Hypothesis saves : forall doc, saveOk env doc = true.

Lemma processAlert_no_throw a st : snd (processAlert env now m a st) <> Threw.
Proof.
  unfold processAlert.
  destruct (m !! symbol a) as [md|]; [|discriminate].
  destruct (observedValue (alertType a) md) as [v|]; [|discriminate].
  destruct (shouldTrigger _ _ _); rewrite (save_true _ _ _ _ (saves _)); discriminate.
Qed.



End AllSavesResolve.

Lemma NoDup_map_filter {A B : Type} (f : A -> B) (p : A -> bool) (l : list A) :
  List.NoDup (map f l) -> List.NoDup (map f (List.filter p l)).
Proof.
  induction l as [|x l IH]; simpl; intros Hnd; [constructor|].
  inversion Hnd as [|? ? Hx Hl]; subst.
  destruct (p x); simpl; auto.
  constructor; auto.
  intros Hin. apply Hx. apply in_map_iff in Hin.
  destruct Hin as (y & Hy & Hin). apply filter_In in Hin.
  rewrite <- Hy. apply in_map. tauto.
Qed.


(** ** Cycles on concrete stores *)

(** No mail transport, no user, every save resolves. *)
Definition quietEnv : Env := mkEnv (fun _ => LookupNull) None (fun _ => true).

Definition tcsAlert (id : nat) (t : AlertType) (c : Condition) (target : float)
  : Alert :=
  mkAlert id 7 "TCS" t c target 0 "TCS alert" true false None false medium None 0 0.

Definition tcsQuote (price changePercent : float) : MarketData :=
  mkMarketData "TCS" price 0 changePercent 0 0 0 0 None 0 yahoo_finance.



(** C1, on the cycle of [checkAlerts]: with the observed price equal to
    the target, where [observed >= target] and [observed <= target] both
    hold, neither the [above] alert nor the [below] alert fires; both are
    only tracked. *)
Theorem above_and_below_miss_the_target_value :
  PrimFloat.leb 100 100 = true /\
  snd (checkAlerts quietEnv 1000 [tcsQuote 100 0]
         (mkStore [tcsAlert 1 price above 100; tcsAlert 2 price below 100] []))
  = Checked 2 0 /\
  map (fun a => (isTriggered a, currentValue a))
    (alerts (fst (checkAlerts quietEnv 1000 [tcsQuote 100 0]
       (mkStore [tcsAlert 1 price above 100; tcsAlert 2 price below 100] []))))
  = [(false, 100%float); (false, 100%float)].
Proof.
  split; [reflexivity|].
  split; vm_compute; reflexivity.
Qed.

(** C2, on the cycle of [checkAlerts]: a [change_percent] alert is
    compared with the signed percent change.  With [above 3], a change of
    +5 fires and a change of -5 does not, and the value recorded for the
    latter is -5, not 5. *)
Theorem change_percent_is_compared_signed :
  map (fun a => (isTriggered a, currentValue a))
    (alerts (fst (checkAlerts quietEnv 1000 [tcsQuote 100 5]
       (mkStore [tcsAlert 1 change_percent above 3] []))))
  = [(true, 5%float)] /\
  map (fun a => (isTriggered a, currentValue a))
    (alerts (fst (checkAlerts quietEnv 1000 [tcsQuote 100 (-5)]
       (mkStore [tcsAlert 1 change_percent above 3] []))))
  = [(false, (-5)%float)].
Proof.
  split; vm_compute; reflexivity.
Qed.

(** A user with mail notifications on, and a transport that rejects
    every mail. *)
Definition failingMailEnv : Env :=
  mkEnv (fun _ => LookupUser (mkUser 7 "user@example.com" (Some true)))
        (Some (fun _ _ => MailRejected))
        (fun _ => true).




(** ** Dispatches over a history of cycles that do not overlap *)

Definition isDispatchOf (id : nat) (e : Event) : bool :=
  match e with
  | NotificationDispatched i => Nat.eqb i id
  | _ => false
  end.

(** How many times the notification of alert [id] was dispatched. *)
Definition dispatches (id : nat) (evs : list Event) : nat :=
  length (List.filter (isDispatchOf id) evs).

Lemma dispatches_app id l1 l2 :
  dispatches id (l1 ++ l2) = (dispatches id l1 + dispatches id l2)%nat.
Proof. unfold dispatches. now rewrite List.filter_app, List.length_app. Qed.

Lemma dispatches_foreign id evs :
  Forall (fun e => eventId e <> id) evs -> dispatches id evs = 0%nat.
Proof.
  unfold dispatches. induction evs as [|e evs IH]; intros Hall; simpl; auto.
  inversion Hall as [|? ? He Hrest]; subst.
  destruct e as [a|a|i|i to r|i]; simpl; auto.
  simpl in He. destruct (Nat.eqb_spec i id); [congruence|auto].
Qed.

Lemma dispatches_none id evs :
  List.filter isDispatch evs = [] -> dispatches id evs = 0%nat.
Proof.
  unfold dispatches. induction evs as [|e evs IH]; simpl; auto.
  destruct e as [a|a|i|i to r|i]; simpl; auto. discriminate.
Qed.

(** The stored document of [id] is triggered. *)
Definition storedTriggered (id : nat) (st : Store) : Prop :=
  exists a, In a (alerts st) /\ _id a = id /\ isTriggered a = true.

(** One iteration logs events of its alert only, dispatches at most
    once, and when it dispatches the stored document is triggered. *)
Ltac quiet_events :=
  split; [try rewrite app_nil_r; reflexivity|];
  split; [repeat constructor|];
  split; [unfold dispatches; simpl; lia|];
  let H := fresh in intros H; unfold dispatches in H; simpl in H; lia.

Lemma processAlert_dispatches env now m a st :
  In (_id a) (map _id (alerts st)) ->
  exists evs,
    log (fst (processAlert env now m a st)) = log st ++ evs /\
    Forall (fun e => eventId e = _id a) evs /\
    (dispatches (_id a) evs <= 1)%nat /\
    ((1 <= dispatches (_id a) evs)%nat ->
     storedTriggered (_id a) (fst (processAlert env now m a st))).
Proof.
  intros Hstored. apply in_map_iff in Hstored. destruct Hstored as (b & Hb & Hin).
  unfold processAlert.
  destruct (m !! symbol a) as [md|]; [|exists []; quiet_events].
  destruct (observedValue (alertType a) md) as [v|]; [|exists []; quiet_events].
  destruct (shouldTrigger _ _ _).
  - set (doc := set_updatedAt now (markTriggered now v a)).
    destruct (saveOk env doc) eqn:Hok.
    + rewrite (save_true _ _ _ _ Hok). simpl. fold doc.
      assert (In doc (replaceDoc doc (alerts st))) as Hdoc
        by (now apply (replaceDoc_In b)).
      pose proof (sendAlertNotification_only env now doc
        (mkStore (replaceDoc doc (alerts st)) (log st ++ [Saved doc])))
        as [_ _ _ (es & Hes & Hall)].
      destruct (sendAlertNotification_spec env now doc
        (mkStore (replaceDoc doc (alerts st)) (log st ++ [Saved doc])))
        as (evs & Hl & Hd & _ & Hs).
      simpl in Hl, Hes.
      assert (es = NotificationDispatched (_id a) :: evs) as ->.
      { rewrite Hl in Hes. now apply app_inv_head in Hes. }
      exists (Saved doc :: NotificationDispatched (_id a) :: evs).
      rewrite Hl, <- app_assoc. simpl. split; [reflexivity|]. split.
      * constructor; [reflexivity|].
        eapply List.Forall_impl; [|exact Hall]. simpl. auto.
      * assert (dispatches (_id a)
                  (Saved doc :: NotificationDispatched (_id a) :: evs) = 1%nat)
          as ->.
        { unfold dispatches. simpl. rewrite Nat.eqb_refl. simpl.
          fold (dispatches (_id a) evs). now rewrite (dispatches_none _ _ Hd). }
        split; [lia|]. intros _.
        destruct Hs as [Hs|(user & f & _ & _ & _ & _ & _ & Hs)].
        -- exists doc. rewrite Hs. simpl. auto.
        -- exists (markSent now doc). rewrite Hs. simpl.
           split; [now apply (replaceDoc_In doc)|]. auto.
    + rewrite (save_false _ _ _ _ Hok). simpl. fold doc.
      exists [SaveRejected doc]. quiet_events.
  - set (doc := set_updatedAt now (set_currentValue v a)).
    destruct (saveOk env doc) eqn:Hok.
    + rewrite (save_true _ _ _ _ Hok). simpl. fold doc.
      exists [Saved doc]. quiet_events.
    + rewrite (save_false _ _ _ _ Hok). simpl. fold doc.
      exists [SaveRejected doc]. quiet_events.
Qed.

Lemma storedTriggered_kept (P : nat -> Prop) id st st' :
  only P st st' -> ~ P id -> storedTriggered id st -> storedTriggered id st'.
Proof.
  intros Honly Hout (a & Hin & Hid & Htr). exists a. repeat split; auto.
  apply (only_keeps _ _ _ Honly); auto. now rewrite Hid.
Qed.

(** The loop over documents of distinct [_id]s: at most one dispatch per
    alert, each after its document was stored triggered, none for an
    alert that is not in the loop. *)
Lemma checkLoop_dispatches env now m l : forall n st,
  List.NoDup (map _id l) ->
  (forall a, In a l -> In (_id a) (map _id (alerts st))) ->
  exists evs,
    log (fst (checkLoop env now m l n st)) = log st ++ evs /\
    forall id,
      (dispatches id evs <= 1)%nat /\
      ((1 <= dispatches id evs)%nat ->
       storedTriggered id (fst (checkLoop env now m l n st))) /\
      (~ In id (map _id l) -> dispatches id evs = 0%nat).
Proof.
  induction l as [|a l IH]; intros n st Hnd Hstored.
  - exists []. simpl. rewrite app_nil_r. split; auto.
    intros id. unfold dispatches. simpl. repeat split; auto; lia.
  - inversion Hnd as [|? ? Ha Hl]; subst.
    destruct (processAlert_dispatches env now m a st) as (evs1 & Hl1 & Hall1 & Hle1 & Htr1).
    { apply Hstored. now left. }
    pose proof (processAlert_only env now m a st) as Honly1.
    assert (forall id, id <> _id a -> dispatches id evs1 = 0%nat) as Hforeign.
    { intros id Hne. apply dispatches_foreign.
      eapply List.Forall_impl; [|exact Hall1]. simpl. congruence. }
    assert (forall k,
      exists evs,
        log (fst (checkLoop env now m l k (fst (processAlert env now m a st))))
        = log st ++ evs /\
        forall id,
          (dispatches id evs <= 1)%nat /\
          ((1 <= dispatches id evs)%nat ->
           storedTriggered id
             (fst (checkLoop env now m l k (fst (processAlert env now m a st))))) /\
          (~ In id (map _id (a :: l)) -> dispatches id evs = 0%nat)) as Hgo.
    { intros k.
      destruct (IH k (fst (processAlert env now m a st)) Hl) as (evs2 & Hl2 & Hids).
      { intros b Hb. rewrite (only_ids _ _ _ Honly1). apply Hstored. now right. }
      pose proof (checkLoop_only env now m l k (fst (processAlert env now m a st)))
        as Honly2.
      exists (evs1 ++ evs2). split; [now rewrite Hl2, Hl1, app_assoc|].
      intros id. rewrite dispatches_app.
      destruct (Hids id) as (Hle2 & Htr2 & Hout2).
      destruct (Nat.eq_dec id (_id a)) as [->|Hne].
      - rewrite (Hout2 Ha), Nat.add_0_r. split; [exact Hle1|]. split.
        + intros Hone. eapply storedTriggered_kept; [exact Honly2|exact Ha|auto].
        + intros Hout. destruct Hout. now left.
      - rewrite (Hforeign id Hne). simpl. split; [exact Hle2|]. split; [exact Htr2|].
        intros Hout. apply Hout2. intros Hin. apply Hout. now right. }
    assert (exists evs,
        log (fst (processAlert env now m a st)) = log st ++ evs /\
        forall id,
          (dispatches id evs <= 1)%nat /\
          ((1 <= dispatches id evs)%nat ->
           storedTriggered id (fst (processAlert env now m a st))) /\
          (~ In id (map _id (a :: l)) -> dispatches id evs = 0%nat)) as Hstop.
    { exists evs1. split; [exact Hl1|]. intros id.
      destruct (Nat.eq_dec id (_id a)) as [->|Hne].
      - split; [exact Hle1|]. split; [exact Htr1|].
        intros Hout. destruct Hout. now left.
      - rewrite (Hforeign id Hne). repeat split; auto; lia. }
    simpl. destruct (snd (processAlert env now m a st)); auto.
Qed.

Lemma checkAlerts_dispatches env now quotes st :
  List.NoDup (map _id (alerts st)) ->
  exists evs,
    log (fst (checkAlerts env now quotes st)) = log st ++ evs /\
    forall id,
      (dispatches id evs <= 1)%nat /\
      ((1 <= dispatches id evs)%nat ->
       storedTriggered id (fst (checkAlerts env now quotes st))).
Proof.
  intros Hnd. unfold checkAlerts.
  destruct (List.filter (eligible now) (alerts st)) as [|b l] eqn:E.
  - exists []. simpl. rewrite app_nil_r. split; auto.
    intros id. unfold dispatches. simpl. split; lia.
  - destruct (checkLoop_dispatches env now (buildMarketDataMap quotes) (b :: l)
                0%nat st) as (evs & Hl & Hids).
    { rewrite <- E. now apply NoDup_map_filter. }
    { intros a Ha. rewrite <- E in Ha. apply filter_In in Ha.
      apply in_map. tauto. }
    exists evs.
    destruct (snd (checkLoop env now (buildMarketDataMap quotes) (b :: l) 0 st));
      simpl; (split; [exact Hl|]); intros id; destruct (Hids id) as (H1 & H2 & _);
      auto.
Qed.

(** The log accounts for the store: distinct [_id]s, and an alert is
    dispatched at most once, and then stored triggered. *)
Definition accounted (st : Store) : Prop :=
  List.NoDup (map _id (alerts st)) /\
  forall id,
    (dispatches id (log st) <= 1)%nat /\
    ((1 <= dispatches id (log st))%nat -> storedTriggered id st).

Lemma accounted_runOp env st op : accounted st -> accounted (runOp env st op).
Proof.
  intros [Hnd Hacc]. split; [now rewrite runOp_ids|].
  intros id. destruct (Hacc id) as [Hle Htr].
  destruct (Nat.eq_dec (dispatches id (log st)) 0%nat) as [Hzero|Hpos].
  - destruct op as [now quotes|now]; simpl.
    + destruct (checkAlerts_dispatches env now quotes st Hnd) as (evs & Hl & Hids).
      rewrite Hl, dispatches_app, Hzero. simpl. apply Hids.
    + rewrite Hzero. split; [lia|]. intros H. lia.
  - destruct Htr as (a & Hin & Hid & Ha); [lia|].
    destruct (runOp_triggered env st op a Hnd Hin Ha)
      as [(a' & Hin' & Hsw & _) (evs & Hl & Hall)].
    rewrite Hl, dispatches_app.
    rewrite Hid in Hall. rewrite (dispatches_foreign id evs Hall), Nat.add_0_r.
    split; [exact Hle|]. intros _. exists a'. split; [exact Hin'|].
    split; [now rewrite (swept_id _ _ Hsw)|now rewrite (swept_triggered _ _ Hsw)].
Qed.

Lemma accounted_runOps env ops : forall st,
  accounted st -> accounted (runOps env ops st).
Proof.
  induction ops as [|op ops IH]; intros st Hacc; [exact Hacc|].
  change (runOps env (op :: ops) st) with (runOps env ops (runOp env st op)).
  apply IH. now apply accounted_runOp.
Qed.

(** ** More on the cycle: what it spares and what it keeps *)

(** The alert has no observed value under [m]: its symbol has no quote,
    or its type is none of the three the [switch] knows. *)
Definition unresolved (m : gmap string MarketData) (a : Alert) : Prop :=
  m !! symbol a ≫= observedValue (alertType a) = None.

Lemma processAlert_unresolved env now m a st :
  unresolved m a -> processAlert env now m a st = (st, Skipped).
Proof.
  unfold unresolved, processAlert. intros Hun.
  destruct (m !! symbol a) as [md|]; simpl in Hun; [|reflexivity].
  now rewrite Hun.
Qed.

(** The loop spares [a] when the only document of its [_id] among
    [activeAlerts], if any, is unresolved. *)
Lemma checkLoop_spares env now m a l : forall n st,
  (forall b, In b l -> _id b = _id a -> unresolved m b) ->
  only (fun i => In i (map _id l) /\ i <> _id a) st
       (fst (checkLoop env now m l n st)).
Proof.
  induction l as [|b l IH]; intros n st Hskip; simpl.
  - apply only_refl.
  - assert (only (fun i => (_id b = i \/ In i (map _id l)) /\ i <> _id a) st
              (fst (processAlert env now m b st))) as Hb.
    { destruct (Nat.eq_dec (_id b) (_id a)) as [Heq|Hne].
      - rewrite (processAlert_unresolved env now m b st); [apply only_refl|].
        apply Hskip; [now left|exact Heq].
      - eapply only_weaken; [|apply processAlert_only].
        simpl. intros i <-. auto. }
    assert (forall k st1,
              only (fun i => (_id b = i \/ In i (map _id l)) /\ i <> _id a) st1
                (fst (checkLoop env now m l k st1))) as Hrest.
    { intros k st1. eapply only_weaken; [|apply IH].
      - simpl. tauto.
      - intros c Hc. apply Hskip. now right. }
    destruct (snd (processAlert env now m b st)); simpl; auto;
      (eapply only_trans; [exact Hb|apply Hrest]).
Qed.

Lemma checkAlerts_spares env now quotes st a :
  (forall b, In b (alerts st) -> eligible now b = true -> _id b = _id a ->
             unresolved (buildMarketDataMap quotes) b) ->
  In a (alerts st) ->
  In a (alerts (fst (checkAlerts env now quotes st))) /\
  exists evs,
    log (fst (checkAlerts env now quotes st)) = log st ++ evs /\
    Forall (fun e => eventId e <> _id a) evs.
Proof.
  intros Hskip Hin.
  assert (only (fun i => In i (map _id (List.filter (eligible now) (alerts st)))
                         /\ i <> _id a)
               st (fst (checkAlerts env now quotes st))) as Honly.
  { unfold checkAlerts.
    destruct (List.filter (eligible now) (alerts st)) as [|b l] eqn:E;
      [apply only_refl|].
    pose proof (checkLoop_spares env now (buildMarketDataMap quotes) a (b :: l)
                  0%nat st) as H.
    destruct (snd (checkLoop _ _ _ _ _ _)); apply H;
      intros c Hc Hid; rewrite <- E in Hc; apply filter_In in Hc;
      apply Hskip; tauto. }
  split.
  - apply (only_keeps _ _ _ Honly); auto. tauto.
  - destruct (only_log _ _ _ Honly) as (evs & Hl & Hall).
    exists evs. split; auto.
    eapply List.Forall_impl; [|exact Hall]. simpl. tauto.
Qed.

(** The three ways an alert is not eligible at [now]. *)
Lemma not_eligible_iff now a :
  eligible now a = false <->
  isActive a = false \/ isTriggered a = true \/
  exists e, expiresAt a = Some e /\ e <= now.
Proof.
  unfold eligible.
  destruct (isActive a), (isTriggered a), (expiresAt a) as [e|]; simpl;
    try (split; [auto|reflexivity]; fail).
  - rewrite Z.ltb_ge. split.
    + intros H. right. right. eauto.
    + intros [H|[H|(e' & He & Hle)]]; try discriminate. congruence.
  - split; [discriminate|]. intros [H|[H|(e' & He & _)]]; discriminate.
Qed.

(** An alert that is deactivated, already triggered, or expired at the
    clock of the cycle is not evaluated: the cycle leaves its document
    as it is and logs nothing about it. *)
Theorem cycle_spares_ineligible_alerts env now quotes st a :
  List.NoDup (map _id (alerts st)) -> In a (alerts st) ->
  (isActive a = false \/ isTriggered a = true \/
   exists e, expiresAt a = Some e /\ e <= now) ->
  In a (alerts (fst (checkAlerts env now quotes st))) /\
  exists evs,
    log (fst (checkAlerts env now quotes st)) = log st ++ evs /\
    Forall (fun e => eventId e <> _id a) evs.
Proof.
  intros Hnd Hin Hwhy. apply not_eligible_iff in Hwhy.
  apply checkAlerts_spares; auto.
  intros b Hb Hel Hid.
  assert (b = a) by (eapply NoDup_map_same; eauto).
  congruence.
Qed.

(** An alert whose symbol has no quote in the answer of the
    collection, or whose type is [technical], is passed over silently
    by a cycle: its document is unchanged and nothing is logged about
    it. *)
Theorem cycle_skips_alerts_without_observed_value env now quotes st a :
  List.NoDup (map _id (alerts st)) -> In a (alerts st) ->
  (buildMarketDataMap quotes !! symbol a = None \/ alertType a = technical) ->
  In a (alerts (fst (checkAlerts env now quotes st))) /\
  exists evs,
    log (fst (checkAlerts env now quotes st)) = log st ++ evs /\
    Forall (fun e => eventId e <> _id a) evs.
Proof.
  intros Hnd Hin Hwhy. apply checkAlerts_spares; auto.
  intros b Hb _ Hid.
  assert (b = a) as -> by (eapply NoDup_map_same; eauto).
  unfold unresolved. destruct Hwhy as [Hq|Ht].
  - now rewrite Hq.
  - rewrite Ht. now destruct (buildMarketDataMap quotes !! symbol a).
Qed.

(** What the user defined of an alert: every field but [currentValue],
    [isTriggered], [triggeredAt], [notificationSent] and [updatedAt]. *)
Definition definition (a : Alert) :=
  (_id a, userId a, symbol a, alertType a, condition a, targetValue a,
   message a, isActive a, priority a, expiresAt a, createdAt a).

Lemma definition_id x y : definition x = definition y -> _id x = _id y.
Proof. unfold definition. congruence. Qed.

Lemma replaceDoc_definitions d db :
  (forall x, In x db -> _id x = _id d -> definition x = definition d) ->
  map definition (replaceDoc d db) = map definition db.
Proof.
  intros Hd. unfold replaceDoc. rewrite map_map. apply map_ext_in.
  intros x Hx. destruct (Nat.eqb_spec (_id x) (_id d)); auto.
  symmetry. now apply Hd.
Qed.

Lemma processAlert_definitions env now m a st :
  (forall x, In x (alerts st) -> _id x = _id a -> definition x = definition a) ->
  map definition (alerts (fst (processAlert env now m a st)))
  = map definition (alerts st).
Proof.
  intros Hsame. unfold processAlert.
  destruct (m !! symbol a) as [md|]; [|reflexivity].
  destruct (observedValue (alertType a) md) as [v|]; [|reflexivity].
  destruct (shouldTrigger _ _ _).
  - set (doc := set_updatedAt now (markTriggered now v a)).
    destruct (saveOk env doc) eqn:Hok.
    + rewrite (save_true _ _ _ _ Hok). simpl. fold doc.
      assert (map definition (replaceDoc doc (alerts st))
              = map definition (alerts st)) as Hfirst
        by (apply replaceDoc_definitions; exact Hsame).
      destruct (sendAlertNotification_spec env now doc
        (mkStore (replaceDoc doc (alerts st)) (log st ++ [Saved doc])))
        as (evs & _ & _ & _ & [Hs|(user & f & _ & _ & _ & _ & _ & Hs)]);
        rewrite Hs; simpl; auto.
      rewrite replaceDoc_definitions; auto.
      intros x Hx Hid. now rewrite (replaceDoc_hit x doc (alerts st) Hx Hid).
    + now rewrite (save_false _ _ _ _ Hok).
  - set (doc := set_updatedAt now (set_currentValue v a)).
    destruct (saveOk env doc) eqn:Hok.
    + rewrite (save_true _ _ _ _ Hok). simpl. fold doc.
      apply replaceDoc_definitions. exact Hsame.
    + now rewrite (save_false _ _ _ _ Hok).
Qed.

Lemma checkLoop_definitions env now m l : forall n st,
  (forall a x, In a l -> In x (alerts st) -> _id x = _id a ->
               definition x = definition a) ->
  map definition (alerts (fst (checkLoop env now m l n st)))
  = map definition (alerts st).
Proof.
  induction l as [|b l IH]; intros n st Hsame; [reflexivity|].
  pose proof (processAlert_definitions env now m b st) as Hb.
  assert (map definition (alerts (fst (processAlert env now m b st)))
          = map definition (alerts st)) as Hfirst.
  { apply Hb. intros x Hx Hid. apply (Hsame b x); auto. now left. }
  assert (forall k,
            map definition (alerts (fst (checkLoop env now m l k
                                           (fst (processAlert env now m b st)))))
            = map definition (alerts st)) as Hrest.
  { intros k. rewrite IH; [exact Hfirst|].
    intros a x1 Ha Hx1 Hid.
    assert (In (definition x1) (map definition (alerts st))) as Hwas
      by (rewrite <- Hfirst; now apply in_map).
    apply in_map_iff in Hwas. destruct Hwas as (x & Hdef & Hx).
    rewrite <- Hdef. apply (Hsame a x); auto; [now right|].
    rewrite (definition_id _ _ Hdef). exact Hid. }
  simpl. destruct (snd (processAlert env now m b st)); auto.
Qed.

Lemma checkAlerts_definitions env now quotes st :
  List.NoDup (map _id (alerts st)) ->
  map definition (alerts (fst (checkAlerts env now quotes st)))
  = map definition (alerts st).
Proof.
  intros Hnd. unfold checkAlerts.
  destruct (List.filter (eligible now) (alerts st)) as [|b l] eqn:E;
    [reflexivity|].
  pose proof (checkLoop_definitions env now (buildMarketDataMap quotes) (b :: l)
                0%nat st) as H.
  destruct (snd (checkLoop _ _ _ _ _ _)); apply H;
    intros a x Ha Hx Hid; rewrite <- E in Ha; apply filter_In in Ha;
    (assert (x = a) as -> by (eapply NoDup_map_same; [exact Hnd| | |]; tauto));
    reflexivity.
Qed.

(** Evaluation cycles never change what the user defined: after any
    number of cycles, owner, symbol, type, condition, target, message,
    [isActive], priority and expiry of every document are as before,
    document by document. *)
Theorem cycles_keep_alert_definitions env ops : forall st,
  List.NoDup (map _id (alerts st)) -> Forall isCycle ops ->
  map definition (alerts (runOps env ops st)) = map definition (alerts st).
Proof.
  induction ops as [|op ops IH]; intros st Hnd Hall; [reflexivity|].
  inversion Hall as [|? ? Hop Hrest]; subst.
  change (runOps env (op :: ops) st) with (runOps env ops (runOp env st op)).
  rewrite IH; auto.
  - destruct op as [now quotes|now]; [|destruct Hop].
    now apply checkAlerts_definitions.
  - now rewrite runOp_ids.
Qed.

(** ** The counts a cycle returns *)

Lemma processAlert_fired env now m a st :
  exists evs,
    log (fst (processAlert env now m a st)) = log st ++ evs /\
    length (List.filter isDispatch evs)
    = match snd (processAlert env now m a st) with Fired => 1%nat | _ => 0%nat end.
Proof.
  unfold processAlert.
  destruct (m !! symbol a) as [md|];
    [|exists []; split; [now rewrite app_nil_r|reflexivity]].
  destruct (observedValue (alertType a) md) as [v|];
    [|exists []; split; [now rewrite app_nil_r|reflexivity]].
  destruct (shouldTrigger _ _ _).
  - set (doc := set_updatedAt now (markTriggered now v a)).
    destruct (saveOk env doc) eqn:Hok.
    + rewrite (save_true _ _ _ _ Hok). simpl. fold doc.
      destruct (sendAlertNotification_spec env now doc
        (mkStore (replaceDoc doc (alerts st)) (log st ++ [Saved doc])))
        as (evs & Hl & Hd & _ & _).
      exists (Saved doc :: NotificationDispatched (_id a) :: evs).
      rewrite Hl. simpl. rewrite <- app_assoc. simpl. split; [reflexivity|].
      now rewrite Hd.
    + rewrite (save_false _ _ _ _ Hok). simpl.
      exists [SaveRejected doc]. split; reflexivity.
  - set (doc := set_updatedAt now (set_currentValue v a)).
    destruct (saveOk env doc) eqn:Hok.
    + rewrite (save_true _ _ _ _ Hok). simpl.
      exists [Saved doc]. split; reflexivity.
    + rewrite (save_false _ _ _ _ Hok). simpl.
      exists [SaveRejected doc]. split; reflexivity.
Qed.

Lemma checkLoop_count env now m l : forall n st t,
  snd (checkLoop env now m l n st) = Some t ->
  exists evs,
    log (fst (checkLoop env now m l n st)) = log st ++ evs /\
    t = (n + length (List.filter isDispatch evs))%nat /\
    (length (List.filter isDispatch evs) <= length l)%nat.
Proof.
  induction l as [|a l IH]; intros n st t Ht.
  - simpl in Ht. injection Ht as <-. exists []. simpl.
    rewrite app_nil_r. repeat split; lia.
  - destruct (processAlert_fired env now m a st) as (evs1 & Hl1 & Hc1).
    simpl in Ht |- *.
    destruct (snd (processAlert env now m a st)) eqn:Hit; try discriminate;
      destruct (IH _ _ _ Ht) as (evs2 & Hl2 & Ht2 & Hle2);
      exists (evs1 ++ evs2);
      rewrite Hl2, Hl1, app_assoc, List.filter_app, List.length_app, Hc1;
      (split; [reflexivity|]); simpl; lia.
Qed.

(** When a cycle returns [{ checked, triggered }], [checked] is the
    number of eligible alerts, [triggered] is the number of
    notifications the cycle dispatched, and [triggered <= checked]. *)
Theorem cycle_counts_its_dispatches env now quotes st checked triggered :
  snd (checkAlerts env now quotes st) = Checked checked triggered ->
  checked = length (List.filter (eligible now) (alerts st)) /\
  (triggered <= checked)%nat /\
  exists evs,
    log (fst (checkAlerts env now quotes st)) = log st ++ evs /\
    triggered = length (List.filter isDispatch evs).
Proof.
  unfold checkAlerts.
  destruct (List.filter (eligible now) (alerts st)) as [|b l] eqn:E.
  - simpl. intros H. injection H as <- <-. repeat split; auto.
    exists []. now rewrite app_nil_r.
  - destruct (snd (checkLoop env now (buildMarketDataMap quotes) (b :: l) 0 st))
      as [t|] eqn:Ht; simpl; [|discriminate].
    intros H. injection H as <- <-.
    destruct (checkLoop_count _ _ _ _ _ _ _ Ht) as (evs & Hl & Hcount & Hle).
    simpl in Hcount. subst t. repeat split; auto.
    exists evs. auto.
Qed.

(** ** The document a cycle leaves for an evaluated alert *)

(** What one iteration guarantees of the document of [a] carries over
    to the whole loop, when no save is rejected. *)
Lemma checkLoop_lifts env now m (Q : Alert -> Prop) a l :
  (forall doc, saveOk env doc = true) ->
  (forall st0, In a (alerts st0) ->
     exists a', In a' (alerts (fst (processAlert env now m a st0))) /\
                _id a' = _id a /\
                (forall x, In x (alerts (fst (processAlert env now m a st0))) ->
                           _id x = _id a -> x = a') /\ Q a') ->
  forall n st,
    List.NoDup (map _id l) -> In a l -> In a (alerts st) ->
    exists a', In a' (alerts (fst (checkLoop env now m l n st))) /\
               (forall x, In x (alerts (fst (checkLoop env now m l n st))) ->
                          _id x = _id a -> x = a') /\ Q a'.
Proof.
  intros Hsaves Hone.
  induction l as [|b l IH]; intros n st Hnd Hin Hst; [destruct Hin|].
  inversion Hnd as [|? ? Hb Hl]; subst.
  assert (forall k,
    exists a',
      In a' (alerts (fst (checkLoop env now m l k (fst (processAlert env now m b st))))) /\
      (forall x, In x (alerts (fst (checkLoop env now m l k
                                     (fst (processAlert env now m b st))))) ->
                 _id x = _id a -> x = a') /\ Q a') as Hrest.
  { intros k. destruct Hin as [->|Hin].
    - destruct (Hone st Hst) as (a' & Hin' & Hid & Huniq & HQ).
      pose proof (checkLoop_only env now m l k (fst (processAlert env now m a st)))
        as [_ Hkeeps Hkept _].
      assert (~ In (_id a') (map _id l)) as Hout by now rewrite Hid.
      exists a'. repeat split; auto.
      intros x Hx Hxid. apply Huniq; auto. apply Hkept; auto. now rewrite Hxid.
    - apply (IH k); auto.
      apply (only_keeps _ _ _ (processAlert_only env now m b st)); auto.
      intros Heq. apply Hb. rewrite Heq. now apply in_map. }
  simpl.
  pose proof (processAlert_no_throw env now m Hsaves b st) as Hnt.
  destruct (snd (processAlert env now m b st)); auto. now destruct Hnt.
Qed.

(** In a cycle whose saves resolve, an eligible alert with an observed
    value [v] ends as one document: when its condition does not hold,
    the same alert with [currentValue] set to [v] (and [updatedAt] to
    the clock), nothing else changed; when it holds, the alert with
    [isTriggered], [triggeredAt] and [currentValue] set, and
    [notificationSent] too when the mail went out. *)
Theorem cycle_tracks_or_fires env now quotes st a md v :
  (forall doc, saveOk env doc = true) ->
  List.NoDup (map _id (alerts st)) -> In a (alerts st) ->
  eligible now a = true ->
  buildMarketDataMap quotes !! symbol a = Some md ->
  observedValue (alertType a) md = Some v ->
  exists a',
    In a' (alerts (fst (checkAlerts env now quotes st))) /\
    (forall x, In x (alerts (fst (checkAlerts env now quotes st))) ->
               _id x = _id a -> x = a') /\
    if shouldTrigger (condition a) v (targetValue a)
    then a' = set_updatedAt now (markTriggered now v a) \/
         a' = markSent now (set_updatedAt now (markTriggered now v a))
    else a' = set_updatedAt now (set_currentValue v a).
Proof.
  intros Hsaves Hnd Hin Hel Hm Hv.
  assert (In a (List.filter (eligible now) (alerts st))) as Hsel
    by (apply filter_In; auto).
  unfold checkAlerts.
  destruct (List.filter (eligible now) (alerts st)) as [|b l] eqn:E;
    [destruct Hsel|].
  destruct (checkLoop_lifts env now (buildMarketDataMap quotes)
              (fun a' =>
                 if shouldTrigger (condition a) v (targetValue a)
                 then a' = set_updatedAt now (markTriggered now v a) \/
                      a' = markSent now (set_updatedAt now (markTriggered now v a))
                 else a' = set_updatedAt now (set_currentValue v a))
              a (b :: l) Hsaves) with (n := 0%nat) (st := st)
    as (a' & H1 & H2 & H3); auto.
  - intros st0 Hst0. unfold processAlert. rewrite Hm, Hv.
    destruct (shouldTrigger (condition a) v (targetValue a));
      rewrite (save_true _ _ _ _ (Hsaves _)); simpl.
    + set (doc := set_updatedAt now (markTriggered now v a)).
      assert (In doc (replaceDoc doc (alerts st0))) as Hdoc
        by (now apply (replaceDoc_In a)).
      destruct (sendAlertNotification_spec env now doc
                  (mkStore (replaceDoc doc (alerts st0)) (log st0 ++ [Saved doc])))
        as (evs & _ & _ & _ & [Hs|(user & f & _ & _ & _ & _ & _ & Hs)]);
        rewrite Hs; simpl.
      * exists doc. repeat split; auto.
        intros x Hx Hid. now apply (replaceDoc_hit x doc (alerts st0)).
      * exists (markSent now doc). repeat split; auto.
        -- now apply (replaceDoc_In doc).
        -- intros x Hx Hid. now apply (replaceDoc_hit x _ _ Hx).
    + exists (set_updatedAt now (set_currentValue v a)). repeat split; auto.
      * now apply (replaceDoc_In a).
      * intros x Hx Hid. now apply (replaceDoc_hit x _ (alerts st0)).
  - rewrite <- E. now apply NoDup_map_filter.
  - exists a'.
    destruct (snd (checkLoop env now (buildMarketDataMap quotes) (b :: l) 0 st));
      simpl; auto.
Qed.

(** ** The expiry sweep *)

Lemma expired_after_sweep now a :
  expired now (if expired now a then set_isActive false a else a) = false.
Proof.
  destruct (expired now a) eqn:E; [|exact E].
  unfold expired. simpl. apply andb_false_r.
Qed.

(** The number the sweep returns is the number of alerts it turns
    inactive; afterwards no alert is both active and past its expiry,
    so that a second sweep at the same time returns 0 and changes
    nothing. *)
Theorem sweep_deactivates_the_expired_once now db :
  (length (List.filter (fun a => negb (isActive a))
             (snd (cleanupExpiredAlerts now db)))
   = length (List.filter (fun a => negb (isActive a)) db)
     + fst (cleanupExpiredAlerts now db))%nat /\
  Forall (fun a => expired now a = false) (snd (cleanupExpiredAlerts now db)) /\
  cleanupExpiredAlerts now (snd (cleanupExpiredAlerts now db))
  = (0%nat, snd (cleanupExpiredAlerts now db)).
Proof.
  simpl. split; [|split].
  - induction db as [|a db IH]; [reflexivity|].
    simpl. destruct (expired now a) eqn:E; simpl.
    + assert (isActive a = true) as Hact.
      { unfold expired in E. now apply andb_true_iff in E. }
      rewrite Hact. simpl. rewrite IH. lia.
    + destruct (isActive a); simpl; rewrite IH; lia.
  - apply List.Forall_forall. intros x Hx. apply in_map_iff in Hx.
    destruct Hx as (a & <- & _). apply expired_after_sweep.
  - unfold cleanupExpiredAlerts.
    induction db as [|a db IH]; [reflexivity|].
    injection IH as Hn Hdb. cbn [map List.filter].
    rewrite expired_after_sweep. now rewrite Hn, Hdb.
Qed.

(** A sweep does not change what a cycle at the same or a later time
    selects: an alert the sweep deactivates had expired already. *)
Theorem sweep_keeps_the_eligible_alerts now now' db :
  now <= now' ->
  List.filter (eligible now') (snd (cleanupExpiredAlerts now db))
  = List.filter (eligible now') db.
Proof.
  intros Hle. simpl. induction db as [|a db IH]; [reflexivity|].
  simpl. destruct (expired now a) eqn:E.
  - assert (eligible now' a = false) as Ha.
    { unfold expired in E. unfold eligible.
      destruct (expiresAt a) as [e|]; [|discriminate].
      apply andb_true_iff in E. destruct E as [E _]. apply Z.ltb_lt in E.
      assert (Z.ltb now' e = false) as -> by (apply Z.ltb_ge; lia).
      apply andb_false_r. }
    rewrite Ha. assert (eligible now' (set_isActive false a) = false) as -> by reflexivity.
    exact IH.
  - destruct (eligible now' a); [now rewrite IH|exact IH].
Qed.

(** ** updateAlert and deleteAlert *)

Lemma findOneAndUpdate_spec (p : Alert -> bool) (f : Alert -> Alert) db :
  (forall x, _id (f x) = _id x) ->
  map _id (snd (findOneAndUpdate p f db)) = map _id db /\
  (forall x, In x db -> p x = false -> In x (snd (findOneAndUpdate p f db))) /\
  (fst (findOneAndUpdate p f db) = None ->
   snd (findOneAndUpdate p f db) = db /\ forall x, In x db -> p x = false) /\
  (forall a', fst (findOneAndUpdate p f db) = Some a' ->
     In a' (snd (findOneAndUpdate p f db)) /\
     exists x, In x db /\ p x = true /\ a' = f x).
Proof.
  intros Hf. induction db as [|x db IH]; simpl.
  - split; [reflexivity|]. split; [tauto|].
    split; [tauto|]. discriminate.
  - destruct IH as (Hids & Hkeep & Hnone & Hsome).
    destruct (p x) eqn:Hp; simpl.
    + rewrite (Hf x).
      split; [reflexivity|]. split.
      * intros y [->|Hy] Hpy; [congruence|now right].
      * split; [discriminate|]. intros a' Ha. injection Ha as <-.
        split; [now left|]. exists x. auto.
    + rewrite Hids. split; [reflexivity|]. split.
      * intros y [->|Hy] Hpy; [now left|right; auto].
      * split.
        -- intros Hn. destruct (Hnone Hn) as [Hdb Hall]. rewrite Hdb.
           split; [reflexivity|]. intros y [->|Hy]; auto.
        -- intros a' Ha. destruct (Hsome a' Ha) as (Hin & y & Hy & Hpy & Heq).
           split; [now right|]. exists y. auto.
Qed.




(** Handing an alert over: user 7 updates alert 1 with [userId: 8];
    afterwards the alert is user 8's, and user 7 can no longer update
    or delete it. *)
Definition handOver : AlertUpdates :=
  mkUpdates (Some 8%nat) None None None None None None None None None None None
    None None None.

Lemma updateAlert_can_change_the_owner :
  map userId (snd (updateAlert 1 7 handOver [tcsAlert 1 price above 100])) = [8%nat] /\
  fst (deleteAlert 1 7 (snd (updateAlert 1 7 handOver [tcsAlert 1 price above 100])))
  = None.
Proof. split; reflexivity. Qed.

(** What [deleteAlert] answers is stored, inactive, and carries the
    given [_id]. *)
Lemma deleteAlert_answer alertId user db a' :
  fst (deleteAlert alertId user db) = Some a' ->
  In a' (snd (deleteAlert alertId user db)) /\ _id a' = alertId /\
  isActive a' = false /\
  map _id (snd (deleteAlert alertId user db)) = map _id db.
Proof.
  intros Hdel.
  destruct (findOneAndUpdate_spec (ownedBy alertId user) (set_isActive false) db)
    as (Hids & _ & _ & Hsome); [reflexivity|].
  destruct (Hsome a' Hdel) as (Hin & x & Hx & Hp & Heq).
  split; [exact Hin|]. subst a'. simpl.
  unfold ownedBy in Hp. apply andb_true_iff in Hp.
  split; [now apply Nat.eqb_eq, (proj1 Hp)|]. split; [reflexivity|exact Hids].
Qed.

(** ** getUserAlerts *)

(** The [query] of [getUserAlerts]: the owner, and [isActive] unless the
    option is [null]. *)
Definition userQuery (user : nat) (active : option bool) (a : Alert) : bool :=
  Nat.eqb (userId a) user &&
  match active with
  | None => true
  | Some b => Bool.eqb (isActive a) b
  end.

(** [l] is in the order of [.sort({ createdAt: -1 })]: newest first. *)
Fixpoint newestFirst (l : list Alert) : Prop :=
  match l with
  | [] => True
  | a :: rest => (forall b, In b rest -> createdAt b <= createdAt a) /\ newestFirst rest
  end.

(** What [find(query).sort({ createdAt: -1 })] may answer on the
    documents [found] that the query selects: all of them, newest
    first.  The order among documents of equal [createdAt] is the
    database's, and need not be the same from one query to the next. *)
Definition sortedAnswer (found answer : list Alert) : Prop :=
  Permutation answer found /\ newestFirst answer.

(** One such answer: a stable insertion sort. *)
Fixpoint insertNewest (a : Alert) (l : list Alert) : list Alert :=
  match l with
  | [] => [a]
  | b :: rest =>
    if Z.leb (createdAt b) (createdAt a) then a :: l else b :: insertNewest a rest
  end.

Definition sortNewestFirst (l : list Alert) : list Alert :=
  fold_right insertNewest [] l.

(** The object [getUserAlerts] returns.  [total] is
    [Math.ceil(total / limit)]; [None] stands for the [Infinity] or
    [NaN] a [limit] of 0 gives. *)
Record AlertPage := mkAlertPage {
  page_alerts : list Alert;
  current : nat;
  total : option nat;
  count : nat;
  totalItems : nat
}.

(** [getUserAlerts(userId, { isActive, limit, page })].  [sort] is what
    the database makes of [.sort({ createdAt: -1 })] in this query.
    [.limit(0)] is no limit; a [page] of 0 makes [skip] negative, which
    the query rejects: [None]. *)
Definition getUserAlerts (sort : list Alert -> list Alert)
  (user : nat) (active : option bool) (limit page : nat)
  (db : list Alert) : option AlertPage :=
  if (Nat.eqb page 0 && negb (Nat.eqb limit 0))%bool then None
  else
    let found := List.filter (userQuery user active) db in
    let skipped := skipn ((page - 1) * limit) (sort found) in
    let alerts := if Nat.eqb limit 0 then skipped else firstn limit skipped in
    Some (mkAlertPage alerts page
            (if Nat.eqb limit 0 then None
             else Some ((length found + limit - 1) / limit)%nat)
            (length alerts) (length found)).

Definition alertsOf (r : option AlertPage) : list Alert :=
  match r with
  | Some p => page_alerts p
  | None => []
  end.

Lemma insertNewest_perm a l : Permutation (insertNewest a l) (a :: l).
Proof.
  induction l as [|b l IH]; simpl; [reflexivity|].
  destruct (Z.leb (createdAt b) (createdAt a)); [reflexivity|].
  rewrite IH. apply perm_swap.
Qed.

Lemma sortNewestFirst_perm l : Permutation (sortNewestFirst l) l.
Proof.
  induction l as [|a l IH]; simpl; [reflexivity|].
  rewrite insertNewest_perm. now constructor.
Qed.

Lemma insertNewest_sorted a l : newestFirst l -> newestFirst (insertNewest a l).
Proof.
  induction l as [|b l IH]; simpl; [tauto|].
  intros [Hb Hl]. destruct (Z.leb_spec (createdAt b) (createdAt a)); simpl.
  - split; [|tauto]. intros c [->|Hc]; [assumption|].
    specialize (Hb c Hc). lia.
  - split; [|now apply IH]. intros c Hc.
    apply (Permutation_in _ (insertNewest_perm a l)) in Hc.
    destruct Hc as [->|Hc]; [lia|auto].
Qed.

Lemma sortNewestFirst_sorted l : newestFirst (sortNewestFirst l).
Proof.
  induction l as [|a l IH]; simpl; [exact I|]. now apply insertNewest_sorted.
Qed.

Lemma firstn_more {A : Type} (n k : nat) (l : list A) :
  firstn (n + k) l = firstn n l ++ firstn k (skipn n l).
Proof.
  revert l. induction n as [|n IH]; intros l; [reflexivity|].
  destruct l as [|x l]; simpl.
  - now destruct k.
  - now rewrite IH.
Qed.

Lemma pages_cover {A : Type} (limit : nat) (l : list A) (k : nat) :
  concat (map (fun p => firstn limit (skipn ((p - 1) * limit) l)) (seq 1 k))
  = firstn (k * limit) l.
Proof.
  induction k as [|k IH]; [reflexivity|].
  rewrite seq_S, List.map_app, List.concat_app, IH. simpl.
  rewrite app_nil_r, Nat.sub_0_r.
  replace (limit + k * limit)%nat with (k * limit + limit)%nat by lia.
  now rewrite firstn_more.
Qed.

Lemma pages_suffice (n limit : nat) :
  (0 < limit)%nat -> (n <= (n + limit - 1) / limit * limit)%nat.
Proof.
  intros Hpos.
  pose proof (Nat.div_mod_eq (n + limit - 1) limit) as Hdm.
  pose proof (Nat.mod_upper_bound (n + limit - 1) limit) as Hub.
  nia.
Qed.

Lemma sortNewestFirst_answer found : sortedAnswer found (sortNewestFirst found).
Proof. split; [apply sortNewestFirst_perm|apply sortNewestFirst_sorted]. Qed.

(** Documents of distinct [createdAt] have one order only. *)
Lemma newestFirst_unique l1 : forall l2,
  Permutation l1 l2 -> newestFirst l1 -> newestFirst l2 ->
  List.NoDup (map createdAt l1) -> l1 = l2.
Proof.
  induction l1 as [|x l1 IH]; intros l2 Hp H1 H2 Hnd.
  - apply Permutation_nil in Hp. now subst.
  - destruct l2 as [|y l2].
    { apply Permutation_sym, Permutation_nil in Hp. discriminate. }
    assert (x = y) as <-.
    { assert (In y (x :: l1)) as Hy
        by (apply (Permutation_in _ (Permutation_sym Hp)); now left).
      assert (In x (y :: l2)) as Hx
        by (apply (Permutation_in _ Hp); now left).
      destruct Hy as [Hy|Hy]; [exact Hy|].
      destruct Hx as [Hx|Hx]; [now symmetry|].
      simpl in H1, H2.
      pose proof (proj1 H1 y Hy). pose proof (proj1 H2 x Hx).
      apply (NoDup_map_same createdAt (x :: l1)); simpl; auto. lia. }
    f_equal. apply IH.
    + now apply Permutation_cons_inv in Hp.
    + apply H1.
    + apply H2.
    + now inversion Hnd.
Qed.

Lemma sortedAnswer_unique found answer :
  List.NoDup (map createdAt found) -> sortedAnswer found answer ->
  answer = sortNewestFirst found.
Proof.
  intros Hnd [Hp Hs].
  apply newestFirst_unique; auto.
  - rewrite Hp. symmetry. apply sortNewestFirst_perm.
  - apply sortNewestFirst_sorted.
  - assert (Permutation (map createdAt answer) (map createdAt found)) as Hpm
      by now apply Permutation_map.
    apply (Permutation_NoDup (Permutation_sym Hpm)). exact Hnd.
Qed.

(** With a positive [limit] and matching alerts of distinct [createdAt],
    whatever order the database takes in each page query: the pages 1
    to [total] of [getUserAlerts], one after the other, are the user's
    alerts that match the query, each once, newest first; no page holds
    more than [limit] alerts, [count] is the length of the page, and a
    page past [total] is empty.  Page 0 is rejected. *)
Theorem pages_partition_the_users_alerts
  (sorts : nat -> list Alert -> list Alert) user active limit db :
  (0 < limit)%nat ->
  List.NoDup (map createdAt (List.filter (userQuery user active) db)) ->
  (forall p, sortedAnswer (List.filter (userQuery user active) db)
               (sorts p (List.filter (userQuery user active) db))) ->
  let found := List.filter (userQuery user active) db in
  let pages := ((length found + limit - 1) / limit)%nat in
  let everything :=
    concat (map (fun p => alertsOf (getUserAlerts (sorts p) user active limit p db))
              (seq 1 pages)) in
  Permutation everything found /\
  newestFirst everything /\
  getUserAlerts (sorts 0%nat) user active limit 0 db = None /\
  forall p, (1 <= p)%nat ->
    exists r,
      getUserAlerts (sorts p) user active limit p db = Some r /\
      total r = Some pages /\ totalItems r = length found /\
      count r = length (page_alerts r) /\ (count r <= limit)%nat /\
      ((pages < p)%nat -> page_alerts r = []).
Proof.
  intros Hpos Hnd Hsorts found pages everything.
  assert (forall p, sorts p found = sortNewestFirst found) as Hsame
    by (intros p; now apply sortedAnswer_unique).
  assert (Nat.eqb limit 0 = false) as Hl by (apply Nat.eqb_neq; lia).
  assert (length (sortNewestFirst found) = length found) as Hlen
    by (apply Permutation_length, sortNewestFirst_perm).
  assert (everything = sortNewestFirst found) as Hall.
  { subst everything.
    rewrite (map_ext_in _ (fun p => firstn limit
                             (skipn ((p - 1) * limit) (sortNewestFirst found)))).
    - rewrite pages_cover. apply firstn_all2. rewrite Hlen.
      now apply pages_suffice.
    - intros p Hp. apply in_seq in Hp. unfold getUserAlerts.
      assert (Nat.eqb p 0 = false) as -> by (apply Nat.eqb_neq; lia).
      rewrite Hl. simpl. fold found. now rewrite Hsame. }
  split; [rewrite Hall; apply sortNewestFirst_perm|].
  split; [rewrite Hall; apply sortNewestFirst_sorted|].
  split; [unfold getUserAlerts; now rewrite Hl|].
  intros p Hp. unfold getUserAlerts.
  assert (Nat.eqb p 0 = false) as -> by (apply Nat.eqb_neq; lia).
  rewrite Hl. simpl. eexists. split; [reflexivity|]. simpl.
  fold found. rewrite Hsame. repeat split; auto.
  - apply List.firstn_le_length.
  - intros Hpast. rewrite skipn_all2; [now destruct limit|].
    rewrite Hlen. pose proof (pages_suffice (length found) limit Hpos).
    fold pages in H. nia.
Qed.

(** Two alerts of user 7 created at the same time. *)
Definition sameDate : list Alert :=
  [tcsAlert 1 price above 100; tcsAlert 2 price below 50].

(** With equal [createdAt] the order is the database's in each query:
    when the query of page 1 takes one order and the query of page 2
    the other, both answers being sorted, the two pages of size 1 hold
    the same alert and the other alert is on no page. *)
Lemma pages_of_equal_dates_can_repeat :
  sortedAnswer sameDate (sortNewestFirst sameDate) /\
  sortedAnswer sameDate (rev (sortNewestFirst sameDate)) /\
  alertsOf (getUserAlerts sortNewestFirst 7 None 1 1 sameDate)
  = [tcsAlert 1 price above 100] /\
  alertsOf (getUserAlerts (fun l => rev (sortNewestFirst l)) 7 None 1 2 sameDate)
  = [tcsAlert 1 price above 100].
Proof.
  split; [apply sortNewestFirst_answer|].
  split; [|split; reflexivity].
  split.
  - rewrite <- Permutation_rev. apply sortNewestFirst_perm.
  - simpl. split; [intros b [<-|[]]; simpl; lia|].
    split; [intros b []|exact I].
Qed.

(** ** getAlertStats *)

Record AlertStats := mkAlertStats {
  stat_total : nat;
  stat_active : nat;
  stat_triggered : nat;
  stat_pending : nat
}.

(** The [$match] and [$group] of [getAlertStats]; a user with no alert
    gets the zeros of [stats[0] || { ... }]. *)
Definition getAlertStats (user : nat) (db : list Alert) : AlertStats :=
  let mine := List.filter (fun a => Nat.eqb (userId a) user) db in
  mkAlertStats (length mine)
    (length (List.filter isActive mine))
    (length (List.filter isTriggered mine))
    (length (List.filter (fun a => isActive a && negb (isTriggered a)) mine)).

Lemma stats_of_definitions user db db' :
  map definition db = map definition db' ->
  stat_total (getAlertStats user db) = stat_total (getAlertStats user db') /\
  stat_active (getAlertStats user db) = stat_active (getAlertStats user db').
Proof.
  unfold getAlertStats. simpl. revert db'.
  induction db as [|a db IH]; intros [|a' db'] H; try discriminate; [auto|].
  simpl in H. injection H as Hid Hu Hsym Hty Hco Htv Hmsg Hact Hpr Hex Hcr Hrest.
  destruct (IH db' Hrest) as [Ht Ha]. simpl. rewrite Hu.
  destruct (Nat.eqb (userId a') user); simpl; auto.
  rewrite Hact. destruct (isActive a'); simpl; auto.
Qed.

(** The statistics of a user: [pending <= active <= total] and
    [pending + triggered <= total]; an alert of another user does not
    count; and no evaluation cycle changes [total] or [active]. *)
Theorem alert_stats_are_consistent user db env now quotes events :
  List.NoDup (map _id db) ->
  (stat_pending (getAlertStats user db) <= stat_active (getAlertStats user db))%nat /\
  (stat_active (getAlertStats user db) <= stat_total (getAlertStats user db))%nat /\
  (stat_pending (getAlertStats user db) + stat_triggered (getAlertStats user db)
   <= stat_total (getAlertStats user db))%nat /\
  (forall b, userId b <> user ->
             getAlertStats user (b :: db) = getAlertStats user db) /\
  stat_total (getAlertStats user
                (alerts (fst (checkAlerts env now quotes (mkStore db events)))))
  = stat_total (getAlertStats user db) /\
  stat_active (getAlertStats user
                 (alerts (fst (checkAlerts env now quotes (mkStore db events)))))
  = stat_active (getAlertStats user db).
Proof.
  intros Hnd.
  assert (forall l : list Alert,
            (length (List.filter (fun a => isActive a && negb (isTriggered a)) l)
             <= length (List.filter isActive l))%nat /\
            (length (List.filter (fun a => isActive a && negb (isTriggered a)) l)
             + length (List.filter isTriggered l) <= length l)%nat) as Hcounts.
  { induction l as [|a l [IH1 IH2]]; simpl; [split; lia|].
    destruct (isActive a), (isTriggered a); simpl; split; lia. }
  unfold getAlertStats at 1 2 3 4 5 6 7. simpl.
  split; [apply Hcounts|]. split; [apply List.filter_length_le|].
  split; [apply Hcounts|]. split.
  - intros b Hb. unfold getAlertStats. simpl.
    apply Nat.eqb_neq in Hb. now rewrite Hb.
  - apply stats_of_definitions.
    apply (checkAlerts_definitions env now quotes (mkStore db events) Hnd).
Qed.

(** ** A store of three alerts

    Alert 1 is eligible; alert 2 was deactivated; alert 3, of another
    user, expires at time 500. *)
Definition sampleAlerts : list Alert :=
  [tcsAlert 1 price above 100;
   set_isActive false (tcsAlert 2 price below 50);
   mkAlert 3 8 "INFY" volume above 1000 0 "INFY volume" true false None false
     low (Some 500) 0 0].

Lemma sampleAlerts_distinct : List.NoDup (map _id sampleAlerts).
Proof. simpl. repeat constructor; simpl; intuition discriminate. Qed.

Lemma cycle_spares_ineligible_alerts_witness :
  In (set_isActive false (tcsAlert 2 price below 50))
     (alerts (fst (checkAlerts quietEnv 1000 [tcsQuote 40 0]
                     (mkStore sampleAlerts [])))).
Proof.
  apply (cycle_spares_ineligible_alerts quietEnv 1000 [tcsQuote 40 0]
           (mkStore sampleAlerts [])
           (set_isActive false (tcsAlert 2 price below 50))).
  - exact sampleAlerts_distinct.
  - simpl. auto.
  - left. reflexivity.
Defined.

Lemma cycle_skips_alerts_without_observed_value_witness :
  In (tcsAlert 1 price above 100)
     (alerts (fst (checkAlerts quietEnv 100 []
                     (mkStore sampleAlerts [])))).
Proof.
  apply (cycle_skips_alerts_without_observed_value quietEnv 100 []
           (mkStore sampleAlerts []) (tcsAlert 1 price above 100)).
  - exact sampleAlerts_distinct.
  - simpl. auto.
  - left. reflexivity.
Defined.

Lemma cycles_keep_alert_definitions_witness :
  map definition
    (alerts (runOps failingMailEnv
               [Cycle 100 [tcsQuote 90 0]; Cycle 200 [tcsQuote 101 0]]
               (mkStore sampleAlerts [])))
  = map definition sampleAlerts.
Proof.
  apply (cycles_keep_alert_definitions failingMailEnv
           [Cycle 100 [tcsQuote 90 0]; Cycle 200 [tcsQuote 101 0]]
           (mkStore sampleAlerts [])).
  - exact sampleAlerts_distinct.
  - repeat constructor.
Defined.

Lemma cycle_counts_its_dispatches_witness :
  exists evs,
    log (fst (checkAlerts quietEnv 100 [tcsQuote 101 0] (mkStore sampleAlerts [])))
    = [] ++ evs /\
    1%nat = length (List.filter isDispatch evs).
Proof.
  assert (snd (checkAlerts quietEnv 100 [tcsQuote 101 0] (mkStore sampleAlerts []))
          = Checked 2 1) as H by (vm_compute; reflexivity).
  exact (proj2 (proj2 (cycle_counts_its_dispatches quietEnv 100 [tcsQuote 101 0]
                         (mkStore sampleAlerts []) 2 1 H))).
Defined.

Lemma cycle_tracks_or_fires_witness :
  exists a',
    In a' (alerts (fst (checkAlerts quietEnv 100 [tcsQuote 90 0]
                          (mkStore sampleAlerts [])))) /\
    a' = set_updatedAt 100 (set_currentValue 90 (tcsAlert 1 price above 100)).
Proof.
  assert (buildMarketDataMap [tcsQuote 90 0] !! symbol (tcsAlert 1 price above 100)
          = Some (tcsQuote 90 0)) as Hm by (vm_compute; reflexivity).
  destruct (cycle_tracks_or_fires quietEnv 100 [tcsQuote 90 0]
              (mkStore sampleAlerts []) (tcsAlert 1 price above 100)
              (tcsQuote 90 0) 90 (fun _ => eq_refl) sampleAlerts_distinct
              (or_introl eq_refl) eq_refl Hm eq_refl)
    as (a' & Hin & _ & Hdoc).
  exists a'. split; [exact Hin|exact Hdoc].
Defined.

Lemma sweep_keeps_the_eligible_alerts_witness :
  List.filter (eligible 1000) (snd (cleanupExpiredAlerts 600 sampleAlerts))
  = List.filter (eligible 1000) sampleAlerts.
Proof.
  apply (sweep_keeps_the_eligible_alerts 600 1000 sampleAlerts). lia.
Defined.

(** Three alerts of user 7, created at times 10, 30 and 20. *)
Definition datedAlerts : list Alert :=
  [mkAlert 1 7 "TCS" price above 100 0 "first" true false None false medium None 10 10;
   mkAlert 2 7 "INFY" price above 100 0 "second" true false None false medium None 30 30;
   mkAlert 3 7 "HDFC" price above 100 0 "third" true false None false medium None 20 20].

Lemma pages_partition_the_users_alerts_witness :
  Permutation
    (concat (map (fun p => alertsOf (getUserAlerts sortNewestFirst 7 None 2 p datedAlerts))
               (seq 1 ((length (List.filter (userQuery 7 None) datedAlerts) + 2 - 1) / 2))))
    (List.filter (userQuery 7 None) datedAlerts).
Proof.
  refine (proj1 (pages_partition_the_users_alerts (fun _ => sortNewestFirst)
                   7 None 2 datedAlerts _ _ _)).
  - lia.
  - simpl. repeat constructor; simpl; intuition discriminate.
  - intros p. apply sortNewestFirst_answer.
Defined.

Lemma alert_stats_are_consistent_witness :
  (stat_pending (getAlertStats 7 sampleAlerts)
   <= stat_active (getAlertStats 7 sampleAlerts))%nat.
Proof.
  exact (proj1 (alert_stats_are_consistent 7 sampleAlerts quietEnv 100
                  [tcsQuote 101 0] [] sampleAlerts_distinct)).
Defined.

(** ** The trigger state of a document *)

(** An alert that is not triggered has no [triggeredAt] and is not
    marked as notified. *)
Definition coherent (a : Alert) : Prop :=
  isTriggered a = false -> triggeredAt a = None /\ notificationSent a = false.

Lemma replaceDoc_Forall (P : Alert -> Prop) d db :
  P d -> List.Forall P db -> List.Forall P (replaceDoc d db).
Proof.
  intros Hd Hdb. unfold replaceDoc. apply List.Forall_forall.
  intros x Hx. apply in_map_iff in Hx. destruct Hx as (y & <- & Hy).
  destruct (Nat.eqb (_id y) (_id d)); auto.
  now apply (proj1 (List.Forall_forall P db) Hdb).
Qed.

Lemma processAlert_coherent env now m a st :
  coherent a -> List.Forall coherent (alerts st) ->
  List.Forall coherent (alerts (fst (processAlert env now m a st))).
Proof.
  intros Ha Hst. unfold processAlert.
  destruct (m !! symbol a) as [md|]; [|exact Hst].
  destruct (observedValue (alertType a) md) as [v|]; [|exact Hst].
  destruct (shouldTrigger _ _ _).
  - set (doc := set_updatedAt now (markTriggered now v a)).
    assert (coherent doc) as Hdoc by (intros H; discriminate).
    assert (coherent (markSent now doc)) as Hsent by (intros H; discriminate).
    destruct (saveOk env doc) eqn:Hok.
    + rewrite (save_true _ _ _ _ Hok). simpl. fold doc.
      destruct (sendAlertNotification_spec env now doc
        (mkStore (replaceDoc doc (alerts st)) (log st ++ [Saved doc])))
        as (evs & _ & _ & _ & [Hs|(user & f & _ & _ & _ & _ & _ & Hs)]);
        rewrite Hs; simpl.
      * now apply replaceDoc_Forall.
      * apply replaceDoc_Forall; auto. now apply replaceDoc_Forall.
    + now rewrite (save_false _ _ _ _ Hok).
  - set (doc := set_updatedAt now (set_currentValue v a)).
    destruct (saveOk env doc) eqn:Hok.
    + rewrite (save_true _ _ _ _ Hok). simpl. fold doc.
      apply replaceDoc_Forall; auto.
    + now rewrite (save_false _ _ _ _ Hok).
Qed.

Lemma checkLoop_coherent env now m l : forall n st,
  List.Forall coherent l -> List.Forall coherent (alerts st) ->
  List.Forall coherent (alerts (fst (checkLoop env now m l n st))).
Proof.
  induction l as [|a l IH]; intros n st Hl Hst; [exact Hst|].
  inversion Hl as [|? ? Ha Hrest]; subst.
  pose proof (processAlert_coherent env now m a st Ha Hst) as H1.
  simpl. destruct (snd (processAlert env now m a st)); auto.
Qed.

(** Cycles and sweeps keep the trigger state of every document
    coherent: through any history, an alert that is not triggered has
    no [triggeredAt] and is not marked as notified; put the other way
    round, [notificationSent] is only ever true on a triggered alert. *)
Theorem histories_keep_trigger_state_coherent env ops : forall st,
  List.Forall coherent (alerts st) ->
  List.Forall coherent (alerts (runOps env ops st)).
Proof.
  induction ops as [|op ops IH]; intros st Hst; [exact Hst|].
  change (runOps env (op :: ops) st) with (runOps env ops (runOp env st op)).
  apply IH. destruct op as [now quotes|now]; simpl.
  - unfold checkAlerts.
    destruct (List.filter (eligible now) (alerts st)) as [|b l] eqn:E; [exact Hst|].
    assert (List.Forall coherent (b :: l)) as Hsel.
    { rewrite <- E. apply List.Forall_forall. intros x Hx.
      apply filter_In in Hx.
      now apply (proj1 (List.Forall_forall coherent (alerts st)) Hst). }
    pose proof (checkLoop_coherent env now (buildMarketDataMap quotes) (b :: l)
                  0%nat st Hsel Hst) as H.
    now destruct (snd (checkLoop _ _ _ _ _ _)).
  - apply List.Forall_forall. intros x Hx. apply in_map_iff in Hx.
    destruct Hx as (a & <- & Ha).
    pose proof (proj1 (List.Forall_forall coherent (alerts st)) Hst a Ha) as Hco.
    destruct (expired now a); auto.
Qed.

Lemma histories_keep_trigger_state_coherent_witness :
  List.Forall coherent
    (alerts (runOps failingMailEnv
               [Cycle 100 [tcsQuote 90 0]; Sweep 150; Cycle 200 [tcsQuote 101 0]]
               (mkStore sampleAlerts []))).
Proof.
  apply (histories_keep_trigger_state_coherent failingMailEnv
           [Cycle 100 [tcsQuote 90 0]; Sweep 150; Cycle 200 [tcsQuote 101 0]]
           (mkStore sampleAlerts [])).
  simpl. repeat constructor; intros _; split; reflexivity.
Defined.

End AlertService.

(** * routes/alerts.js: the handler of POST /api/alerts/check *)

Module AlertRoutes.

(** An entry of [priceMap]. *)
Record PriceData := mkPriceData {
  price : float;
  change : float;
  changePercent : float;
  volume : float
}.

(** [switch (alert.alertType)]: the cases are the strings ['volume'] and
    ['change']; every other type takes the [default], the price. *)
Definition currentValueOf (alertType : string) (currentData : PriceData) : float :=
  if String.eqb alertType "volume" then volume currentData
  else if String.eqb alertType "change" then PrimFloat.abs (changePercent currentData)
  else price currentData.

(** [switch (alert.condition)]; [shouldTrigger] starts [false]. *)
Definition shouldTrigger (condition : string) (currentData : PriceData)
  (currentValue targetValue : float) : bool :=
  if String.eqb condition "above" then PrimFloat.leb targetValue currentValue
  else if String.eqb condition "below" then PrimFloat.leb currentValue targetValue
  else if String.eqb condition "change_percent"
       then PrimFloat.leb targetValue (PrimFloat.abs (changePercent currentData))
  else false.

(** The decision of one iteration of the handler's loop. *)
Definition decide (alertType condition : string) (targetValue : float)
  (currentData : PriceData) : bool :=
  shouldTrigger condition currentData (currentValueOf alertType currentData) targetValue.

(** [Math.abs(-x)] is [Math.abs(x)], for every binary64 value. *)
Lemma abs_opp (x : float) : PrimFloat.abs (- x) = PrimFloat.abs x.
Proof.
  apply Prim2SF_inj. rewrite !abs_spec, opp_spec.
  now destruct (Prim2SF x).
Qed.

(** The handler compares inclusively: at the target value both [above]
    and [below] fire. *)
Lemma check_above_below_inclusive alertType targetValue currentData :
  (decide alertType "above" targetValue currentData = true <->
   PrimFloat.leb targetValue (currentValueOf alertType currentData) = true) /\
  (decide alertType "below" targetValue currentData = true <->
   PrimFloat.leb (currentValueOf alertType currentData) targetValue = true) /\
  decide "price" "above" 100 (mkPriceData 100 0 0 0) = true /\
  decide "price" "below" 100 (mkPriceData 100 0 0 0) = true.
Proof.
  unfold decide, shouldTrigger. simpl. repeat split; auto.
Qed.

(** The handler's ['change'] type is sign-insensitive: the decision is
    the same for a percent change of [x] and of [-x]. *)
Lemma check_change_sign_insensitive condition targetValue p c x v :
  decide "change" condition targetValue (mkPriceData p c x v)
  = decide "change" condition targetValue (mkPriceData p c (- x) v).
Proof.
  unfold decide, shouldTrigger, currentValueOf. simpl.
  now rewrite abs_opp.
Qed.

(** A type spelled ['change_percent'], as the schema has it, is none of
    the handler's cases: the price is what gets compared. *)
Lemma check_change_percent_type_reads_price currentData :
  currentValueOf "change_percent" currentData = price currentData.
Proof. reflexivity. Qed.

End AlertRoutes.

(** * services/marketDataService.js *)

Module MarketDataService.

(** The quote object the service hands out.  Of the fields a provider
    fills in, [marketCap] is the one that may be missing: Alpha Vantage
    has none and Yahoo not always. *)
Record Quote := mkQuote {
  symbol : string;
  price : float;
  change : float;
  changePercent : float;
  volume : float;
  dayHigh : float;
  dayLow : float;
  previousClose : float;
  marketCap : option float;
  timestamp : Z;
  source : Source
}.

(** An entry of [this.cache]: [{ data, timestamp }]. *)
Record CacheEntry := mkCacheEntry {
  data : Quote;
  cachedAt : Z
}.

(** [this.cache], keyed by [`market_${symbol}`], and the [MarketData]
    collection, keyed by the upper-cased symbol. *)
Record State := mkState {
  cache : gmap string CacheEntry;
  db : gmap string MarketData
}.

(** The collaborators.  [fetchFromYahoo] and [fetchFromAlphaVantage]
    catch every error of their request and return [null]: they answer a
    quote or nothing.  [saveMarketData] catches its own errors too. *)
Record Env := mkEnv {
  (** [Some message] when [MarketData.getLatest(symbol)] rejects. *)
  getLatestRejects : string -> option string;
  (** Whether the upsert of [saveMarketData] goes through. *)
  upsertOk : string -> bool;
  fetchFromYahoo : string -> option Quote;
  fetchFromAlphaVantage : string -> option Quote
}.

Definition cacheTimeout : Z := 60000.

Definition cacheKey (symbol : string) : string := "market_" ++ symbol.

Definition formatMarketData (dbData : MarketData) : Quote :=
  mkQuote (md_symbol dbData) (md_price dbData) (md_change dbData)
    (md_changePercent dbData) (md_volume dbData) (md_dayHigh dbData)
    (md_dayLow dbData) (md_previousClose dbData) (md_marketCap dbData)
    (md_lastUpdated dbData) (md_source dbData).

(** [fetchFromExternalAPI]: Yahoo first, Alpha Vantage as fallback,
    [null] when both gave nothing. *)
Definition fetchFromExternalAPI (env : Env) (symbol : string) : option Quote :=
  match fetchFromYahoo env symbol with
  | Some yahooData => Some yahooData
  | None =>
    match fetchFromAlphaVantage env symbol with
    | Some alphaData => Some alphaData
    | None => None
    end
  end.

(** [saveMarketData]: [findOneAndUpdate({ symbol: data.symbol },
    { ...data, exchange, lastUpdated: new Date(), isActive: true },
    { upsert: true })].  An update object without operators is a [$set]
    of its keys: a field the quote does not have, as [marketCap], which
    Alpha Vantage never gives and Yahoo not always, keeps the value of
    the stored record. *)
Definition saveMarketData (env : Env) (now : Z) (q : Quote) (st : State) : State :=
  if upsertOk env (symbol q)
  then mkState (cache st)
         (<[symbol q := mkMarketData (symbol q) (price q) (change q)
                          (changePercent q) (volume q) (dayHigh q) (dayLow q)
                          (previousClose q)
                          (match marketCap q with
                           | Some cap => Some cap
                           | None => db st !! symbol q ≫= md_marketCap
                           end)
                          now (source q)]> (db st))
  else st.

Definition cacheSet (key : string) (q : Quote) (now : Z) (st : State) : State :=
  mkState (<[key := mkCacheEntry q now]> (cache st)) (db st).

(** How the promise of [getMarketData] settles: it resolves with a
    quote or with [null], or it rejects. *)
Inductive Outcome :=
| Resolves (result : option Quote)
| Rejects (message : string).

(** The body of the [try] of [getMarketData] after the read of the
    collection resolved with [dbData]. *)
Definition afterRead (env : Env) (now : Z) (symbol : string)
  (dbData : option MarketData) (st : State) : Outcome * State :=
  let freshRecord :=
    match dbData with
    | Some d => if Z.ltb (now - md_lastUpdated d) cacheTimeout then Some d else None
    | None => None
    end in
  match freshRecord with
  | Some d =>
    (Resolves (Some (formatMarketData d)),
     cacheSet (cacheKey symbol) (formatMarketData d) now st)
  | None =>
    match fetchFromExternalAPI env symbol with
    | Some freshData =>
      (Resolves (Some freshData),
       cacheSet (cacheKey symbol) freshData now (saveMarketData env now freshData st))
    | None =>
      (* [return dbData ? this.formatMarketData(dbData) : null] *)
      (Resolves (formatMarketData <$> dbData), st)
    end
  end.

(** [getMarketData(symbol, useCache)]. *)
Definition getMarketData (env : Env) (now : Z) (symbol : string) (useCache : bool)
  (st : State) : Outcome * State :=
  let fresh :=
    if useCache
    then match cache st !! cacheKey symbol with
         | Some cached =>
           if Z.ltb (now - cachedAt cached) cacheTimeout then Some (data cached) else None
         | None => None
         end
    else None in
  match fresh with
  | Some q => (Resolves (Some q), st)
  | None =>
    match getLatestRejects env symbol with
    | Some message =>
      (* the [catch]: the cached data if there is any, else rethrow *)
      match cache st !! cacheKey symbol with
      | Some cached => (Resolves (Some (data cached)), st)
      | None => (Rejects message, st)
      end
    | None => afterRead env now symbol (db st !! toUpperCase symbol) st
    end
  end.

(** ** getBatchMarketData *)

(** What a promise of [symbols.map(...)] settles to: the value
    [getMarketData] resolved with, or the object [{ symbol, error }] its
    [catch] makes of a rejection. *)
Inductive Settled :=
| QuoteResult (q : Quote)
| NullResult
| Caught (symbol message : string).

(** An entry of the object the batch returns. *)
Inductive Entry :=
| Success (result : Settled)
| Error (message : string).

Definition settle (symbol : string) (o : Outcome) : Settled :=
  match o with
  | Resolves (Some q) => QuoteResult q
  | Resolves None => NullResult
  | Rejects message => Caught symbol message
  end.

(** What a call of [getMarketData] writes, as decided on the state
    [read] that it consulted, done to the state [st]. *)
Definition requestWrites (env : Env) (now : Z) (symbol : string) (useCache : bool)
  (read st : State) : State :=
  let fresh :=
    if useCache
    then match cache read !! cacheKey symbol with
         | Some cached =>
           if Z.ltb (now - cachedAt cached) cacheTimeout then Some (data cached) else None
         | None => None
         end
    else None in
  match fresh with
  | Some _ => st
  | None =>
    match getLatestRejects env symbol with
    | Some _ => st
    | None =>
      let freshRecord :=
        match db read !! toUpperCase symbol with
        | Some d => if Z.ltb (now - md_lastUpdated d) cacheTimeout then Some d else None
        | None => None
        end in
      match freshRecord with
      | Some d => cacheSet (cacheKey symbol) (formatMarketData d) now st
      | None =>
        match fetchFromExternalAPI env symbol with
        | Some freshData =>
          cacheSet (cacheKey symbol) freshData now (saveMarketData env now freshData st)
        | None => st
        end
      end
    end
  end.

(** [symbols.map(symbol => this.getMarketData(symbol).catch(...))]
    starts every request before any of them gets past its first
    [await]: each request consults the cache, and reads the collection,
    as they were when the batch started.  Their writes follow; they are
    taken here in the order of the requests. *)
Definition fetchAll (env : Env) (now : Z) (symbols : list string) (st : State)
  : list Settled * State :=
  (map (fun symbol => settle symbol (fst (getMarketData env now symbol true st)))
     symbols,
   fold_left (fun acc symbol => requestWrites env now symbol true st acc) symbols st).

(** [data[key] = entry] on the plain object [data].  The key
    ['__proto__'] is the accessor of [Object.prototype]: assigning an
    object to it replaces the prototype of [data] and defines no
    property.  The map holds the own properties, which are what is
    sent to a client; the properties another key inherits are not
    represented, none of them having a name in upper case. *)
Definition assign (key : string) (entry : Entry) (data : gmap string Entry)
  : gmap string Entry :=
  if String.eqb key "__proto__" then data else <[key := entry]> data.

(** [results.forEach(result => { if (result.error) ... else ... })].
    [None] is the [TypeError] of reading [.error] of [null], which ends
    the [forEach] and rejects the batch. *)
Fixpoint collect (results : list Settled) (acc : gmap string Entry)
  : option (gmap string Entry) :=
  match results with
  | [] => Some acc
  | QuoteResult q :: rest => collect rest (assign (symbol q) (Success (QuoteResult q)) acc)
  | NullResult :: _ => None
  | Caught sym message :: rest =>
    if String.eqb message ""
    then collect rest (assign sym (Success (Caught sym message)) acc)
    else collect rest (assign sym (Error message) acc)
  end.

Definition getBatchMarketData (env : Env) (now : Z) (symbols : list string)
  (st : State) : option (gmap string Entry) * State :=
  let r := fetchAll env now symbols st in
  (collect (fst r) ∅, snd r).

(** ** When every source fails *)

(** No fresh cache entry for [symbol] at [now]. *)
Definition noFreshEntry (now : Z) (symbol : string) (st : State) : Prop :=
  forall cached, cache st !! cacheKey symbol = Some cached ->
                 Z.ltb (now - cachedAt cached) cacheTimeout = false.

(** No fresh record of [symbol] in the collection at [now]. *)
Definition noFreshRecord (now : Z) (symbol : string) (st : State) : Prop :=
  forall d, db st !! toUpperCase symbol = Some d ->
            Z.ltb (now - md_lastUpdated d) cacheTimeout = false.

Definition providersFail (env : Env) (symbol : string) : Prop :=
  fetchFromYahoo env symbol = None /\ fetchFromAlphaVantage env symbol = None.

(** With no fresh cache entry, no fresh record and both providers
    failing, a read of the collection that resolves leads to the stale
    record, or to [null] when there is none; the cache is not consulted
    and nothing is rejected. *)
Lemma all_sources_fail_after_read env now symbol useCache st :
  noFreshEntry now symbol st -> noFreshRecord now symbol st ->
  providersFail env symbol ->
  getLatestRejects env symbol = None ->
  getMarketData env now symbol useCache st
  = (Resolves (formatMarketData <$> db st !! toUpperCase symbol), st).
Proof.
  intros Hc Hd [Hy Ha] Hr. unfold getMarketData.
  assert ((if useCache
           then match cache st !! cacheKey symbol with
                | Some cached =>
                  if Z.ltb (now - cachedAt cached) cacheTimeout
                  then Some (data cached) else None
                | None => None
                end
           else None) = None) as ->.
  { destruct useCache; auto.
    destruct (cache st !! cacheKey symbol) as [cached|] eqn:E; auto.
    now rewrite (Hc cached E). }
  rewrite Hr. unfold afterRead, fetchFromExternalAPI. rewrite Hy, Ha.
  destruct (db st !! toUpperCase symbol) as [d|] eqn:E; auto.
  now rewrite (Hd d E).
Qed.

(** The stale cache entry is returned, and a rejection surfaces, only
    on the path where the read of the collection itself rejects. *)
Lemma all_sources_fail_read_rejects env now symbol useCache st message :
  noFreshEntry now symbol st ->
  getLatestRejects env symbol = Some message ->
  getMarketData env now symbol useCache st
  = (match cache st !! cacheKey symbol with
     | Some cached => Resolves (Some (data cached))
     | None => Rejects message
     end, st).
Proof.
  intros Hc Hr. unfold getMarketData.
  assert ((if useCache
           then match cache st !! cacheKey symbol with
                | Some cached =>
                  if Z.ltb (now - cachedAt cached) cacheTimeout
                  then Some (data cached) else None
                | None => None
                end
           else None) = None) as ->.
  { destruct useCache; auto.
    destruct (cache st !! cacheKey symbol) as [cached|] eqn:E; auto.
    now rewrite (Hc cached E). }
  rewrite Hr. now destruct (cache st !! cacheKey symbol).
Qed.

Definition quoteOf (sym : string) (p : float) (at_ : Z) : Quote :=
  mkQuote sym p 0 0 0 0 0 0 None at_ yahoo_finance.

(** Both providers down, the collection readable. *)
Definition providersDown : Env :=
  mkEnv (fun _ => None) (fun _ => true) (fun _ => None) (fun _ => None).

(** A cache holding a quote of TCS taken at time 0, and no record. *)
Definition staleTcs : State :=
  mkState {[ "market_TCS" := mkCacheEntry (quoteOf "TCS" 3500 0) 0 ]} ∅.

(** C5, at time 100000: the cache entry of TCS is 100 s old, the
    collection has no record, both providers fail.  The call resolves
    with [null], although a stale entry is there to return; and with an
    empty cache it resolves with [null] as well, rejecting nothing. *)
Theorem all_sources_fail_resolves_null :
  (exists cached, cache staleTcs !! cacheKey "TCS" = Some cached /\
                  Z.ltb (100000 - cachedAt cached) cacheTimeout = false) /\
  fst (getMarketData providersDown 100000 "TCS" true staleTcs) = Resolves None /\
  fst (getMarketData providersDown 100000 "TCS" true (mkState ∅ ∅)) = Resolves None.
Proof.
  split.
  - exists (mkCacheEntry (quoteOf "TCS" 3500 0) 0). split; reflexivity.
  - split; vm_compute; reflexivity.
Qed.

(** ** The batch *)

(** The batch is rejected exactly when some request resolved with
    [null]. *)
Lemma collect_rejects_iff_null results : forall acc,
  collect results acc = None <-> In NullResult results.
Proof.
  induction results as [|r results IH]; intros acc; simpl.
  - split; [discriminate|tauto].
  - destruct r as [q| |sym message].
    + rewrite IH. split; [tauto|]. intros [H|H]; [discriminate|exact H].
    + split; auto.
    + destruct (String.eqb message ""); rewrite IH;
        (split; [tauto|]); (intros [H|H]; [discriminate|exact H]).
Qed.

(** TCS and HDFC are served by Yahoo; INFY by no provider. *)
Definition infyDown : Env :=
  mkEnv (fun _ => None) (fun _ => true)
        (fun sym => if String.eqb sym "INFY" then None else Some (quoteOf sym 1500 1000))
        (fun _ => None).

(** C6, on [getBatchMarketData(['TCS', 'INFY', 'HDFC'])] with an empty
    cache and collection: alone, TCS and HDFC resolve with their quotes
    and INFY, whose providers fail, resolves with [null]; the batch then
    rejects as a whole and returns no entry for TCS or HDFC. *)
Theorem one_symbol_without_data_rejects_the_batch :
  fst (getMarketData infyDown 1000 "TCS" true (mkState ∅ ∅))
  = Resolves (Some (quoteOf "TCS" 1500 1000)) /\
  fst (getMarketData infyDown 1000 "HDFC" true (mkState ∅ ∅))
  = Resolves (Some (quoteOf "HDFC" 1500 1000)) /\
  fst (getMarketData infyDown 1000 "INFY" true (mkState ∅ ∅)) = Resolves None /\
  fst (getBatchMarketData infyDown 1000 ["TCS"; "INFY"; "HDFC"] (mkState ∅ ∅)) = None.
Proof.
  repeat split; vm_compute; reflexivity.
Qed.

(** The isolation the per-request [catch] does give: a request that
    rejects (here the read of INFY's record) becomes an error entry, and
    the other symbols keep their results. *)
Definition infyReadRejects : Env :=
  mkEnv (fun sym => if String.eqb sym "INFY" then Some "read failed" else None)
        (fun _ => true)
        (fun sym => Some (quoteOf sym 1500 1000))
        (fun _ => None).

Lemma rejected_symbol_is_isolated :
  fst (getBatchMarketData infyReadRejects 1000 ["TCS"; "INFY"; "HDFC"] (mkState ∅ ∅))
  = Some (<["HDFC" := Success (QuoteResult (quoteOf "HDFC" 1500 1000))]>
          (<["INFY" := Error "read failed"]>
           (<["TCS" := Success (QuoteResult (quoteOf "TCS" 1500 1000))]> ∅))).
Proof. vm_compute. reflexivity. Qed.

(** ** The cache and the collection after a fetch *)

Lemma not_fresh now symbol (useCache : bool) st :
  noFreshEntry now symbol st ->
  (if useCache
   then match cache st !! cacheKey symbol with
        | Some cached =>
          if Z.ltb (now - cachedAt cached) cacheTimeout
          then Some (data cached) else None
        | None => None
        end
   else None) = None.
Proof.
  intros Hc. destruct useCache; auto.
  destruct (cache st !! cacheKey symbol) as [cached|] eqn:E; auto.
  now rewrite (Hc cached E).
Qed.

Lemma fetched env now symbol useCache st q :
  noFreshEntry now symbol st -> noFreshRecord now symbol st ->
  getLatestRejects env symbol = None ->
  fetchFromExternalAPI env symbol = Some q ->
  getMarketData env now symbol useCache st
  = (Resolves (Some q),
     cacheSet (cacheKey symbol) q now (saveMarketData env now q st)).
Proof.
  intros Hc Hd Hr Hf. unfold getMarketData.
  rewrite (not_fresh now symbol useCache st Hc), Hr.
  unfold afterRead. rewrite Hf.
  destruct (db st !! toUpperCase symbol) as [d|] eqn:E; auto.
  now rewrite (Hd d E).
Qed.

(** A quote fetched from a provider is served from the cache for the
    next 60 s: during that time a call for the same symbol resolves
    with the same quote and consults neither the collection nor a
    provider, whatever they would answer, and leaves the state as it
    is. *)
Theorem fetched_quote_is_cached_for_a_minute env now symbol useCache st q :
  noFreshEntry now symbol st -> noFreshRecord now symbol st ->
  getLatestRejects env symbol = None ->
  fetchFromExternalAPI env symbol = Some q ->
  fst (getMarketData env now symbol useCache st) = Resolves (Some q) /\
  forall env' now',
    now <= now' < now + cacheTimeout ->
    getMarketData env' now' symbol true
      (snd (getMarketData env now symbol useCache st))
    = (Resolves (Some q), snd (getMarketData env now symbol useCache st)).
Proof.
  intros Hc Hd Hr Hf. rewrite (fetched env now symbol useCache st q Hc Hd Hr Hf).
  split; [reflexivity|]. intros env' now' Hwin. simpl.
  unfold getMarketData. simpl. rewrite lookup_insert_eq. simpl.
  assert (Z.ltb (now' - now) cacheTimeout = true) as ->
    by (apply Z.ltb_lt; lia).
  reflexivity.
Qed.




(** A call touches its own cache key only, and in the collection only
    the record of the quote it resolved with; a call that resolves with
    [null] or rejects changes nothing. *)
Theorem getMarketData_touches_its_symbol_only env now sym useCache st :
  (forall key, key <> cacheKey sym ->
     cache (snd (getMarketData env now sym useCache st)) !! key
     = cache st !! key) /\
  (forall k,
     (forall q, fst (getMarketData env now sym useCache st) = Resolves (Some q) ->
                k <> symbol q) ->
     db (snd (getMarketData env now sym useCache st)) !! k = db st !! k) /\
  (fst (getMarketData env now sym useCache st) = Resolves None \/
   (exists message, fst (getMarketData env now sym useCache st) = Rejects message) ->
   snd (getMarketData env now sym useCache st) = st).
Proof.
  unfold getMarketData.
  destruct (if useCache
            then match cache st !! cacheKey sym with
                 | Some cached =>
                   if Z.ltb (now - cachedAt cached) cacheTimeout
                   then Some (data cached) else None
                 | None => None
                 end
            else None) as [hit|]; [simpl; auto|].
  destruct (getLatestRejects env sym) as [message|].
  { destruct (cache st !! cacheKey sym); simpl; auto. }
  unfold afterRead.
  destruct (match db st !! toUpperCase sym with
            | Some d => if Z.ltb (now - md_lastUpdated d) cacheTimeout
                        then Some d else None
            | None => None
            end) as [d|].
  { simpl. split; [|split]; auto.
    - intros key Hkey. now rewrite lookup_insert_ne.
    - intros [H|(message & H)]; discriminate. }
  destruct (fetchFromExternalAPI env sym) as [q|]; [|simpl; auto].
  simpl. split; [|split].
  - intros key Hkey. rewrite lookup_insert_ne; auto.
    unfold saveMarketData. now destruct (upsertOk env (symbol q)).
  - intros k Hk. unfold saveMarketData.
    destruct (upsertOk env (symbol q)); simpl; auto.
    rewrite lookup_insert_ne; auto. intros Heq. now apply (Hk q).
  - intros [H|(message & H)]; discriminate.
Qed.

(** ** The entries of a batch *)

(** The key under which [forEach] files a result. *)
Definition keyOf (r : Settled) : option string :=
  match r with
  | QuoteResult q => Some (symbol q)
  | NullResult => None
  | Caught sym _ => Some sym
  end.

(** The entry it files. *)
Definition entryOf (r : Settled) : Entry :=
  match r with
  | Caught sym message =>
    if String.eqb message "" then Success r else Error message
  | _ => Success r
  end.

Lemma collect_step r results acc data :
  collect (r :: results) acc = Some data ->
  exists k, keyOf r = Some k /\ collect results (assign k (entryOf r) acc) = Some data.
Proof.
  destruct r as [q| |sym message]; simpl; [eauto|discriminate|].
  destruct (String.eqb message ""); eauto.
Qed.

Lemma collect_entries results : forall acc data,
  collect results acc = Some data ->
  (forall k e, data !! k = Some e ->
     acc !! k = Some e \/
     exists r, In r results /\ keyOf r = Some k /\ e = entryOf r /\
               k <> "__proto__") /\
  (forall k, is_Some (acc !! k) -> is_Some (data !! k)) /\
  (forall r, In r results ->
     exists k, keyOf r = Some k /\ (k <> "__proto__" -> is_Some (data !! k))).
Proof.
  induction results as [|r results IH]; intros acc data Hc.
  - simpl in Hc. injection Hc as <-. repeat split; auto. intros r [].
  - destruct (collect_step r results acc data Hc) as (k0 & Hk0 & Hrest).
    destruct (IH _ _ Hrest) as (Hfrom & Hkeep & Hall).
    unfold assign in Hfrom, Hkeep.
    destruct (String.eqb_spec k0 "__proto__") as [Hproto|Hproto].
    + split; [|split].
      * intros k e He. destruct (Hfrom k e He) as [Hacc|(r' & Hr' & Hk' & He' & Hn)];
          [now left|].
        right. exists r'. split; [now right|auto].
      * exact Hkeep.
      * intros r' [<-|Hr']; [|now apply Hall].
        exists k0. split; [exact Hk0|]. intros Hne. now destruct Hne.
    + split; [|split].
      * intros k e He. destruct (Hfrom k e He) as [Hacc|(r' & Hr' & Hk' & He' & Hn)].
        -- rewrite lookup_insert in Hacc. destruct (decide (k0 = k)) as [<-|Hne].
           ++ injection Hacc as <-. right. exists r. split; [now left|auto].
           ++ now left.
        -- right. exists r'. split; [now right|auto].
      * intros k Hk. apply Hkeep. rewrite lookup_insert.
        destruct (decide (k0 = k)); eauto.
      * intros r' [<-|Hr'].
        -- exists k0. split; auto. intros _. apply Hkeep.
           rewrite lookup_insert_eq. eauto.
        -- now apply Hall.
Qed.

Lemma fetchAll_results env now symbols st :
  length (fst (fetchAll env now symbols st)) = length symbols /\
  forall sym message,
    In (Caught sym message) (fst (fetchAll env now symbols st)) -> In sym symbols.
Proof.
  unfold fetchAll. cbn [fst]. split; [apply List.length_map|].
  intros sym message Hin. apply in_map_iff in Hin.
  destruct Hin as (s & Heq & Hs).
  destruct (fst (getMarketData env now s true st)) as [[q|]|m];
    simpl in Heq; congruence.
Qed.

(** A call of [getMarketData] alone does the writes it decides on the
    state it reads. *)
Lemma getMarketData_writes env now sym useCache st :
  snd (getMarketData env now sym useCache st)
  = requestWrites env now sym useCache st st.
Proof.
  unfold getMarketData, requestWrites.
  destruct (if useCache
            then match cache st !! cacheKey sym with
                 | Some cached =>
                   if Z.ltb (now - cachedAt cached) cacheTimeout
                   then Some (data cached) else None
                 | None => None
                 end
            else None); [reflexivity|].
  destruct (getLatestRejects env sym).
  { now destruct (cache st !! cacheKey sym). }
  unfold afterRead.
  destruct (match db st !! toUpperCase sym with
            | Some d => if Z.ltb (now - md_lastUpdated d) cacheTimeout
                        then Some d else None
            | None => None
            end); [reflexivity|].
  now destruct (fetchFromExternalAPI env sym).
Qed.

(** The batch makes one request per symbol and rejects exactly when
    one of them resolved with [null].  When it resolves, every request
    is represented by an entry under its key, unless that key is
    ['__proto__'], under which there is never an entry; and every entry
    is the entry of one of the requests: a request that resolved with a
    quote is filed under the symbol of the quote, a request that
    rejected under the symbol as it was requested, which is one of the
    symbols of the batch. *)
Theorem batch_files_every_request env now symbols st :
  let results := fst (fetchAll env now symbols st) in
  length results = length symbols /\
  (fst (getBatchMarketData env now symbols st) = None <-> In NullResult results) /\
  forall batch,
    fst (getBatchMarketData env now symbols st) = Some batch ->
    (forall r, In r results ->
       exists k, keyOf r = Some k /\ (k <> "__proto__" -> is_Some (batch !! k))) /\
    batch !! "__proto__" = None /\
    (forall k e, batch !! k = Some e ->
       exists r, In r results /\ keyOf r = Some k /\ e = entryOf r) /\
    (forall sym message, In (Caught sym message) results -> In sym symbols).
Proof.
  intros results. unfold getBatchMarketData. cbn [fst]. fold results.
  destruct (fetchAll_results env now symbols st) as [Hlen Hcaught].
  split; [exact Hlen|]. split; [apply collect_rejects_iff_null|].
  intros batch Hb. destruct (collect_entries results ∅ batch Hb) as (Hfrom & _ & Hall).
  split; [exact Hall|]. split; [|split; [|exact Hcaught]].
  - destruct (batch !! "__proto__") as [e|] eqn:E; [|reflexivity].
    destruct (Hfrom _ e E) as [Hacc|(r & _ & _ & _ & Hne)].
    + now rewrite lookup_empty in Hacc.
    + now destruct Hne.
  - intros k e He. destruct (Hfrom k e He) as [Hacc|(r & H1 & H2 & H3 & _)].
    + now rewrite lookup_empty in Hacc.
    + exists r. auto.
Qed.

(** A batch for TCS and ['__proto__'], the read of the latter
    rejecting: the object returned has the entry of TCS and no other
    property. *)
Lemma proto_request_has_no_entry :
  fst (getBatchMarketData
         (mkEnv (fun sym => if String.eqb sym "TCS" then None else Some "read failed")
                (fun _ => true)
                (fun sym => Some (quoteOf sym 1500 1000))
                (fun _ => None))
         1000 ["TCS"; "__proto__"] (mkState ∅ ∅))
  = Some {[ "TCS" := Success (QuoteResult (quoteOf "TCS" 1500 1000)) ]}.
Proof. vm_compute. reflexivity. Qed.

(** ** formatSymbolForYahoo and getExchange *)

(** [symbol.includes('.')]. *)
Fixpoint includesDot (s : string) : bool :=
  match s with
  | EmptyString => false
  | String c rest => Ascii.eqb c "." || includesDot rest
  end.

Definition isIndex (sym : string) : bool :=
  String.eqb sym "NIFTY" || String.eqb sym "SENSEX" || String.eqb sym "BANKNIFTY".

Definition formatSymbolForYahoo (sym : string) : string :=
  if String.eqb sym "NIFTY" then "^NSEI"
  else if String.eqb sym "SENSEX" then "^BSESN"
  else if String.eqb sym "BANKNIFTY" then "^NSEBANK"
  else if includesDot sym then sym else sym ++ ".NS".

Inductive Exchange := NSE | BSE | INDEX.

Definition getExchange (sym : string) : Exchange :=
  if isIndex sym then INDEX else NSE.

Lemma includesDot_app s t : includesDot (s ++ t) = includesDot s || includesDot t.
Proof.
  induction s as [|c s IH]; simpl; [reflexivity|].
  now rewrite IH, orb_assoc.
Qed.

Lemma isIndex_no_dot sym : isIndex sym = true -> includesDot sym = false.
Proof.
  unfold isIndex. rewrite !orb_true_iff, !String.eqb_eq.
  intros [[->| ->]| ->]; reflexivity.
Qed.

(** The symbol sent to Yahoo carries an exchange qualifier (a ['.'])
    exactly when the symbol is not one of the three index aliases, that
    is when its exchange is not [INDEX]; a symbol that has a qualifier
    is sent as it is; and formatting an already formatted symbol
    changes nothing, but for an index alias, whose identifier would get
    ['.NS'] appended. *)
Theorem yahoo_symbol_is_qualified_unless_index sym :
  (includesDot (formatSymbolForYahoo sym) = false <-> getExchange sym = INDEX) /\
  (includesDot sym = true -> formatSymbolForYahoo sym = sym) /\
  (getExchange sym = NSE ->
   formatSymbolForYahoo (formatSymbolForYahoo sym) = formatSymbolForYahoo sym) /\
  (getExchange sym = INDEX ->
   formatSymbolForYahoo (formatSymbolForYahoo sym)
   = (formatSymbolForYahoo sym ++ ".NS")%string).
Proof.
  unfold getExchange, formatSymbolForYahoo, isIndex.
  destruct (String.eqb sym "NIFTY") eqn:E1;
    [apply String.eqb_eq in E1; subst; simpl; repeat split; auto; discriminate|].
  destruct (String.eqb sym "SENSEX") eqn:E2;
    [apply String.eqb_eq in E2; subst; simpl; repeat split; auto; discriminate|].
  destruct (String.eqb sym "BANKNIFTY") eqn:E3;
    [apply String.eqb_eq in E3; subst; simpl; repeat split; auto; discriminate|].
  simpl.
  assert (forall t, includesDot t = true ->
            (if String.eqb t "NIFTY" then "^NSEI"
             else if String.eqb t "SENSEX" then "^BSESN"
             else if String.eqb t "BANKNIFTY" then "^NSEBANK"
             else if includesDot t then t else (t ++ ".NS")%string) = t) as Hfix.
  { intros t Ht.
    assert (isIndex t = false) as Hni.
    { destruct (isIndex t) eqn:E; auto. apply isIndex_no_dot in E. congruence. }
    unfold isIndex in Hni. rewrite !orb_false_iff in Hni.
    destruct Hni as [[-> ->] ->]. now rewrite Ht. }
  destruct (includesDot sym) eqn:Ed.
  - split; [split; [congruence|discriminate]|]. split; [auto|].
    split; [intros _; now apply Hfix|discriminate].
  - assert (includesDot (sym ++ ".NS") = true) as Hq
      by (rewrite includesDot_app, Ed; reflexivity).
    split; [split; [congruence|discriminate]|]. split; [discriminate|].
    split; [intros _; now apply Hfix|discriminate].
Qed.

Lemma nothing_cached now sym : noFreshEntry now sym (mkState ∅ ∅).
Proof. intros cached H. simpl in H. now rewrite lookup_empty in H. Qed.

Lemma nothing_stored now sym : noFreshRecord now sym (mkState ∅ ∅).
Proof. intros d H. simpl in H. now rewrite lookup_empty in H. Qed.

Lemma fetched_quote_is_cached_witness :
  getMarketData providersDown 31000 "TCS" true
    (snd (getMarketData infyDown 1000 "TCS" true (mkState ∅ ∅)))
  = (Resolves (Some (quoteOf "TCS" 1500 1000)),
     snd (getMarketData infyDown 1000 "TCS" true (mkState ∅ ∅))).
Proof.
  apply (fetched_quote_is_cached_for_a_minute infyDown 1000 "TCS" true
           (mkState ∅ ∅) (quoteOf "TCS" 1500 1000)
           (nothing_cached 1000 "TCS") (nothing_stored 1000 "TCS")
           eq_refl eq_refl).
  unfold cacheTimeout. lia.
Defined.



End MarketDataService.

(** * services/websocketService.js *)

Module WebSocketService.

(** ** Connections and rooms

    The room [`market_${S}`] is named by its upper-cased symbol [S]. *)

Record Socket := mkSocket {
  socket_userId : option nat;
  rooms : gset string
}.

(** An entry of [this.connectedUsers]. *)
Record ConnectedUser := mkConnectedUser {
  socketId : nat;
  subscriptions : gset string
}.

Record Hub := mkHub {
  sockets : gmap nat Socket;
  connectedUsers : gmap nat ConnectedUser
}.

Definition noConnection : Hub := mkHub ∅ ∅.

(** [io.on('connection', ...)]: only a socket with a [userId] gets an
    entry of [connectedUsers], which replaces an entry the user had.
    Socket ids are fresh: an id in use does not connect again. *)
Definition connection (id : nat) (user : option nat) (hub : Hub) : Hub :=
  match sockets hub !! id with
  | Some _ => hub
  | None =>
    mkHub (<[id := mkSocket user ∅]> (sockets hub))
          (match user with
           | Some u => <[u := mkConnectedUser id ∅]> (connectedUsers hub)
           | None => connectedUsers hub
           end)
  end.

(** One turn of the [forEach] of [handleMarketDataSubscription]. *)
Definition subscribeOne (id : nat) (hub : Hub) (symbol : string) : Hub :=
  match sockets hub !! id with
  | None => hub
  | Some socket =>
    mkHub (<[id := mkSocket (socket_userId socket)
                     ({[toUpperCase symbol]} ∪ rooms socket)]> (sockets hub))
          (match socket_userId socket with
           | Some u =>
             match connectedUsers hub !! u with
             | Some user =>
               <[u := mkConnectedUser (socketId user)
                        ({[toUpperCase symbol]} ∪ subscriptions user)]>
                 (connectedUsers hub)
             | None => connectedUsers hub
             end
           | None => connectedUsers hub
           end)
  end.

(** One turn of the [forEach] of [handleMarketDataUnsubscription]. *)
Definition unsubscribeOne (id : nat) (hub : Hub) (symbol : string) : Hub :=
  match sockets hub !! id with
  | None => hub
  | Some socket =>
    mkHub (<[id := mkSocket (socket_userId socket)
                     (rooms socket ∖ {[toUpperCase symbol]})]> (sockets hub))
          (match socket_userId socket with
           | Some u =>
             match connectedUsers hub !! u with
             | Some user =>
               <[u := mkConnectedUser (socketId user)
                        (subscriptions user ∖ {[toUpperCase symbol]})]>
                 (connectedUsers hub)
             | None => connectedUsers hub
             end
           | None => connectedUsers hub
           end)
  end.

(** [handleDisconnection]: the user's entry is deleted, whichever socket
    of the user it was made for; the socket leaves its rooms. *)
Definition handleDisconnection (id : nat) (hub : Hub) : Hub :=
  match sockets hub !! id with
  | None => hub
  | Some socket =>
    mkHub (delete id (sockets hub))
          (match socket_userId socket with
           | Some u => delete u (connectedUsers hub)
           | None => connectedUsers hub
           end)
  end.

Inductive Message :=
| Connection (id : nat) (user : option nat)
| SubscribeMarketData (id : nat) (symbols : list string)
| UnsubscribeMarketData (id : nat) (symbols : list string)
| Disconnect (id : nat).

(** What a message does to the hub.  A subscription also starts
    [sendCurrentMarketData], which does not touch the hub: see [serve]. *)
Definition handle (hub : Hub) (msg : Message) : Hub :=
  match msg with
  | Connection id user => connection id user hub
  | SubscribeMarketData id symbols => fold_left (subscribeOne id) symbols hub
  | UnsubscribeMarketData id symbols => fold_left (unsubscribeOne id) symbols hub
  | Disconnect id => handleDisconnection id hub
  end.

Definition after (msgs : list Message) : Hub := fold_left handle msgs noConnection.

(** The symbols of the market rooms that have a member. *)
Definition joinedSymbols (hub : Hub) : gset string :=
  ⋃ (map (fun p => rooms (snd p)) (map_to_list (sockets hub))).

(** ** The market-data interval *)

(** [subscribedSymbols] of the interval callback: the union of the
    [subscriptions] of the entries of [connectedUsers]. *)
Definition subscribedSymbols (hub : Hub) : gset string :=
  ⋃ (map (fun p => subscriptions (snd p)) (map_to_list (connectedUsers hub))).

Inductive Effect :=
| BatchRequested (symbols : list string)
| Emitted (room : string) (key : string) (value : option MarketDataService.Entry)
| ErrorLogged.

(** [broadcastMarketDataUpdate(symbols)]: one batch request, then one
    emission per symbol, to the room of the symbol, of the object
    [{ [SYMBOL]: marketData[SYMBOL] }]; nothing is emitted when the
    batch rejects. *)
Definition broadcastMarketDataUpdate (env : MarketDataService.Env) (now : Z)
  (symbols : list string) (st : MarketDataService.State)
  : list Effect * MarketDataService.State :=
  let r := MarketDataService.getBatchMarketData env now symbols st in
  (BatchRequested symbols ::
   match fst r with
   | Some marketData =>
     map (fun symbol => Emitted (toUpperCase symbol) (toUpperCase symbol)
                          (marketData !! toUpperCase symbol)) symbols
   | None => [ErrorLogged]
   end, snd r).

(** The callback of [marketDataInterval]. *)
Definition marketDataTick (env : MarketDataService.Env) (now : Z) (hub : Hub)
  (st : MarketDataService.State) : list Effect * MarketDataService.State :=
  match elements (subscribedSymbols hub) with
  | [] => ([], st)
  | symbols => broadcastMarketDataUpdate env now symbols st
  end.

(** ** What the interval knows of the rooms *)

Lemma elem_of_subscribedSymbols (hub : Hub) (S : string) :
  S ∈ subscribedSymbols hub <->
  exists u user, connectedUsers hub !! u = Some user /\ S ∈ subscriptions user.
Proof.
  unfold subscribedSymbols. rewrite elem_of_union_list. split.
  - intros (X & HX & HS). apply list_elem_of_In, in_map_iff in HX.
    destruct HX as ([u user] & <- & Hin).
    apply list_elem_of_In, elem_of_map_to_list in Hin. eauto.
  - intros (u & user & Hu & HS). exists (subscriptions user). split; auto.
    apply list_elem_of_In, in_map_iff. exists (u, user). split; auto.
    now apply list_elem_of_In, elem_of_map_to_list.
Qed.

Lemma elem_of_joinedSymbols (hub : Hub) (S : string) :
  S ∈ joinedSymbols hub <->
  exists id socket, sockets hub !! id = Some socket /\ S ∈ rooms socket.
Proof.
  unfold joinedSymbols. rewrite elem_of_union_list. split.
  - intros (X & HX & HS). apply list_elem_of_In, in_map_iff in HX.
    destruct HX as ([id socket] & <- & Hin).
    apply list_elem_of_In, elem_of_map_to_list in Hin. eauto.
  - intros (id & socket & Hid & HS). exists (rooms socket). split; auto.
    apply list_elem_of_In, in_map_iff. exists (id, socket). split; auto.
    now apply list_elem_of_In, elem_of_map_to_list.
Qed.

(** Every symbol recorded for a user is a room one of the user's
    sockets is in. *)
Definition tracked (hub : Hub) : Prop :=
  forall u user S,
    connectedUsers hub !! u = Some user -> S ∈ subscriptions user ->
    exists id socket,
      sockets hub !! id = Some socket /\ socket_userId socket = Some u /\
      S ∈ rooms socket.

Lemma tracked_noConnection : tracked noConnection.
Proof. intros u user S Hu. simpl in Hu. now rewrite lookup_empty in Hu. Qed.

Lemma tracked_connection id user hub : tracked hub -> tracked (connection id user hub).
Proof.
  intros Hinv. unfold connection.
  destruct (sockets hub !! id) as [old|] eqn:Hid; [exact Hinv|].
  intros u cu S Hu HS. simpl in *.
  assert (connectedUsers hub !! u = Some cu) as Hold.
  { destruct user as [u0|]; auto.
    rewrite lookup_insert in Hu. destruct (decide (u0 = u)); auto.
    injection Hu as <-. simpl in HS. set_solver. }
  destruct (Hinv u cu S Hold HS) as (sid & sock & Hs & Hown & Hroom).
  exists sid, sock. repeat split; auto.
  rewrite lookup_insert. destruct (decide (id = sid)); auto. congruence.
Qed.

Lemma tracked_subscribeOne id hub symbol :
  tracked hub -> tracked (subscribeOne id hub symbol).
Proof.
  intros Hinv. unfold subscribeOne.
  destruct (sockets hub !! id) as [socket|] eqn:Hid; [|exact Hinv].
  assert (forall u S sid sock,
            sockets hub !! sid = Some sock -> socket_userId sock = Some u ->
            S ∈ rooms sock ->
            exists sid' sock',
              <[id := mkSocket (socket_userId socket)
                        ({[toUpperCase symbol]} ∪ rooms socket)]> (sockets hub)
                !! sid' = Some sock' /\
              socket_userId sock' = Some u /\ S ∈ rooms sock') as Hmove.
  { intros u S sid sock Hs Hown Hroom.
    destruct (decide (id = sid)) as [->|Hne].
    - exists sid, (mkSocket (socket_userId socket)
                     ({[toUpperCase symbol]} ∪ rooms socket)).
      rewrite lookup_insert_eq. assert (sock = socket) as -> by congruence.
      repeat split; auto. simpl. set_solver.
    - exists sid, sock. rewrite lookup_insert_ne; auto. }
  intros u cu S Hu HS. simpl in *.
  destruct (socket_userId socket) as [u0|] eqn:Hown0.
  - destruct (connectedUsers hub !! u0) as [user0|] eqn:Hu0.
    + rewrite lookup_insert in Hu. destruct (decide (u0 = u)) as [->|Hne].
      * injection Hu as <-. simpl in HS.
        apply elem_of_union in HS. destruct HS as [HS|HS].
        -- apply elem_of_singleton in HS. subst S.
           exists id, (mkSocket (Some u) ({[toUpperCase symbol]} ∪ rooms socket)).
           rewrite lookup_insert_eq. repeat split; auto. simpl. set_solver.
        -- destruct (Hinv u user0 S Hu0 HS) as (sid & sock & Hs & Hown & Hroom).
           eapply Hmove; eauto.
      * destruct (Hinv u cu S Hu HS) as (sid & sock & Hs & Hown & Hroom).
        eapply Hmove; eauto.
    + destruct (Hinv u cu S Hu HS) as (sid & sock & Hs & Hown & Hroom).
      eapply Hmove; eauto.
  - destruct (Hinv u cu S Hu HS) as (sid & sock & Hs & Hown & Hroom).
    eapply Hmove; eauto.
Qed.

Lemma tracked_unsubscribeOne id hub symbol :
  tracked hub -> tracked (unsubscribeOne id hub symbol).
Proof.
  intros Hinv. unfold unsubscribeOne.
  destruct (sockets hub !! id) as [socket|] eqn:Hid; [|exact Hinv].
  intros u cu S Hu HS. simpl in *.
  assert (exists user, connectedUsers hub !! u = Some user /\
                       S ∈ subscriptions user /\
                       (socket_userId socket = Some u -> S <> toUpperCase symbol))
    as (user & Hold & HSold & Hkeep).
  { destruct (socket_userId socket) as [u0|] eqn:Hown0.
    - destruct (connectedUsers hub !! u0) as [user0|] eqn:Hu0.
      + rewrite lookup_insert in Hu. destruct (decide (u0 = u)) as [->|Hne].
        * injection Hu as <-. simpl in HS. exists user0.
          apply elem_of_difference in HS. destruct HS as [HS1 HS2].
          split; [exact Hu0|]. split; [exact HS1|].
          intros _ Heq. apply HS2. now apply elem_of_singleton.
        * exists cu. split; [exact Hu|]. split; [exact HS|]. congruence.
      + exists cu. split; [exact Hu|]. split; [exact HS|]. congruence.
    - exists cu. split; [exact Hu|]. split; [exact HS|]. discriminate. }
  destruct (Hinv u user S Hold HSold) as (sid & sock & Hs & Hown & Hroom).
  destruct (decide (id = sid)) as [->|Hne].
  - assert (sock = socket) as -> by congruence.
    exists sid, (mkSocket (socket_userId socket)
                   (rooms socket ∖ {[toUpperCase symbol]})).
    rewrite lookup_insert_eq. repeat split; auto. simpl.
    specialize (Hkeep Hown). set_solver.
  - exists sid, sock. rewrite lookup_insert_ne; auto.
Qed.

Lemma tracked_handleDisconnection id hub :
  tracked hub -> tracked (handleDisconnection id hub).
Proof.
  intros Hinv. unfold handleDisconnection.
  destruct (sockets hub !! id) as [socket|] eqn:Hid; [|exact Hinv].
  intros u cu S Hu HS. simpl in *.
  assert (connectedUsers hub !! u = Some cu /\ socket_userId socket <> Some u)
    as [Hold Hother].
  { destruct (socket_userId socket) as [u0|] eqn:Hown0.
    - apply lookup_delete_Some in Hu. destruct Hu as [Hne Hu].
      split; auto. congruence.
    - split; auto. }
  destruct (Hinv u cu S Hold HS) as (sid & sock & Hs & Hown & Hroom).
  exists sid, sock. repeat split; auto.
  rewrite lookup_delete_ne; auto. congruence.
Qed.

Lemma tracked_fold (f : Hub -> string -> Hub) symbols :
  (forall hub symbol, tracked hub -> tracked (f hub symbol)) ->
  forall hub, tracked hub -> tracked (fold_left f symbols hub).
Proof.
  intros Hf. induction symbols as [|symbol symbols IH]; intros hub Hinv; simpl; auto.
Qed.

Lemma tracked_handle hub msg : tracked hub -> tracked (handle hub msg).
Proof.
  intros Hinv. destruct msg as [id user|id symbols|id symbols|id]; simpl.
  - now apply tracked_connection.
  - apply tracked_fold; auto. intros. now apply tracked_subscribeOne.
  - apply tracked_fold; auto. intros. now apply tracked_unsubscribeOne.
  - now apply tracked_handleDisconnection.
Qed.

Lemma tracked_after msgs : tracked (after msgs).
Proof.
  unfold after. generalize tracked_noConnection. generalize noConnection.
  induction msgs as [|msg msgs IH]; intros hub Hinv; simpl; auto.
  apply IH. now apply tracked_handle.
Qed.

(** C9 (amended).  After any sequence of connections, subscriptions,
    unsubscriptions and disconnections, the symbols the tick collects
    are those recorded for users with an entry in [connectedUsers]; they
    are all symbols of joined rooms, but a room joined only by sockets
    without such an entry is not among them.  When no room is joined, or
    nothing is recorded, the tick requests no batch and emits nothing.
    Otherwise every emission goes to the room of one collected symbol
    and carries that symbol's entry of the batch, and no other key. *)
Theorem tick_serves_the_recorded_symbols env now msgs st :
  subscribedSymbols (after msgs) ⊆ joinedSymbols (after msgs) /\
  (joinedSymbols (after msgs) = ∅ ->
   marketDataTick env now (after msgs) st = ([], st)) /\
  (subscribedSymbols (after msgs) = ∅ ->
   marketDataTick env now (after msgs) st = ([], st)) /\
  (forall room key value,
     In (Emitted room key value) (fst (marketDataTick env now (after msgs) st)) ->
     exists symbol marketData,
       symbol ∈ subscribedSymbols (after msgs) /\
       room = toUpperCase symbol /\ key = toUpperCase symbol /\
       fst (MarketDataService.getBatchMarketData env now
              (elements (subscribedSymbols (after msgs))) st) = Some marketData /\
       value = marketData !! key).
Proof.
  assert (subscribedSymbols (after msgs) ⊆ joinedSymbols (after msgs)) as Hsub.
  { intros S HS. apply elem_of_subscribedSymbols in HS.
    destruct HS as (u & user & Hu & HS).
    destruct (tracked_after msgs u user S Hu HS) as (id & socket & Hid & _ & Hroom).
    apply elem_of_joinedSymbols. eauto. }
  assert (subscribedSymbols (after msgs) = ∅ ->
          marketDataTick env now (after msgs) st = ([], st)) as Hidle.
  { intros Hempty. unfold marketDataTick. rewrite Hempty.
    now rewrite elements_empty. }
  split; [exact Hsub|]. split; [|split; [exact Hidle|]].
  - intros Hnone. apply Hidle. apply leibniz_equiv.
    rewrite Hnone in Hsub. set_solver.
  - intros room key value Hin. unfold marketDataTick in Hin.
    destruct (elements (subscribedSymbols (after msgs))) as [|s0 l] eqn:El;
      [destruct Hin|].
    remember (s0 :: l) as symbols eqn:Es.
    unfold broadcastMarketDataUpdate in Hin. cbn [fst] in Hin.
    destruct Hin as [Hin|Hin]; [discriminate|].
    destruct (fst (MarketDataService.getBatchMarketData env now symbols st))
      as [marketData|] eqn:Eb.
    + apply in_map_iff in Hin. destruct Hin as (symbol & Heq & Hin).
      injection Heq as <- <- <-.
      exists symbol, marketData. repeat split; auto.
      apply elem_of_elements. rewrite El. now apply list_elem_of_In.
    + destruct Hin as [Hin|[]]. discriminate.
Qed.

(** C9 as stated fails: a socket that connected without a user joins
    the room of TCS, so the union of the joined rooms' symbols is
    [{TCS}]; the tick collects no symbol, requests no batch and emits
    nothing to that room. *)
Lemma room_of_anonymous_socket_is_not_served :
  joinedSymbols (after [Connection 1 None; SubscribeMarketData 1 ["tcs"]])
  = {["TCS"]} /\
  subscribedSymbols (after [Connection 1 None; SubscribeMarketData 1 ["tcs"]])
  = ∅ /\
  marketDataTick MarketDataService.infyDown 1000
    (after [Connection 1 None; SubscribeMarketData 1 ["tcs"]])
    (MarketDataService.mkState ∅ ∅)
  = ([], MarketDataService.mkState ∅ ∅).
Proof.
  repeat split; vm_compute; reflexivity.
Qed.

(** With a user, the same subscription is served: one batch for TCS and
    one emission, to the room of TCS. *)
Lemma room_of_user_socket_is_served :
  fst (marketDataTick MarketDataService.infyDown 1000
         (after [Connection 1 (Some 7%nat); SubscribeMarketData 1 ["tcs"]])
         (MarketDataService.mkState ∅ ∅))
  = [BatchRequested ["TCS"];
     Emitted "TCS" "TCS"
       (Some (MarketDataService.Success
                (MarketDataService.QuoteResult
                   (MarketDataService.quoteOf "TCS" 1500 1000))))].
Proof. vm_compute. reflexivity. Qed.

(** ** The alert interval

    [setInterval(async () => { await alertService.checkAlerts() ... }, 60000)]:
    the callback calls [checkAlerts] and holds no flag, lock or queue.
    A call of [checkAlerts] gives way at its [await]s; here it does so
    between its queries and its loop, and between two iterations. *)

(** A call of [checkAlerts] that has not returned: its clock, its
    [marketDataMap], the documents of [activeAlerts] its loop has not
    visited yet, and its [triggeredCount]. *)
Record Run := mkRun {
  clock : Z;
  marketDataMap : gmap string MarketData;
  remaining : list Alert;
  triggeredCount : nat
}.

Record Engine := mkEngine {
  store : AlertService.Store;
  running : list Run
}.

(** The interval fires: [checkAlerts] is called, whatever is running.
    The call makes its two queries and reaches its loop; with no
    eligible alert it returns at once. *)
Definition alertTick (now : Z) (quotes : list MarketData) (e : Engine) : Engine :=
  match List.filter (AlertService.eligible now) (AlertService.alerts (store e)) with
  | [] => e
  | activeAlerts =>
    mkEngine (store e)
      (running e ++ [mkRun now (buildMarketDataMap quotes) activeAlerts 0])
  end.

(** The [i]-th running call goes on: one iteration of its loop, or its
    return when the loop is over or the iteration threw. *)
Definition resume (env : AlertService.Env) (i : nat) (e : Engine) : Engine :=
  match running e !! i with
  | None => e
  | Some run =>
    match remaining run with
    | [] => mkEngine (store e) (delete i (running e))
    | alert :: rest =>
      let r := AlertService.processAlert env (clock run) (marketDataMap run)
                 alert (store e) in
      match snd r with
      | AlertService.Threw => mkEngine (fst r) (delete i (running e))
      | AlertService.Fired =>
        mkEngine (fst r)
          (<[i := mkRun (clock run) (marketDataMap run) rest
                    (S (triggeredCount run))]> (running e))
      | AlertService.Skipped | AlertService.Tracked =>
        mkEngine (fst r)
          (<[i := mkRun (clock run) (marketDataMap run) rest
                    (triggeredCount run)]> (running e))
      end
    end
  end.

Inductive Turn :=
| Tick (now : Z) (quotes : list MarketData)
| Resume (i : nat).

Definition turn (env : AlertService.Env) (e : Engine) (t : Turn) : Engine :=
  match t with
  | Tick now quotes => alertTick now quotes e
  | Resume i => resume env i e
  end.

Definition schedule (env : AlertService.Env) (turns : list Turn) (e : Engine)
  : Engine :=
  fold_left (turn env) turns e.

(** A cycle that runs alone: the tick, then its call resumed until it
    has returned ([n] bounds the number of alerts). *)
Definition alone (n : nat) (c : Z * list MarketData) : list Turn :=
  Tick (fst c) (snd c) :: repeat (Resume 0) (S n).

(** Cycles one after the other, none overlapping the next. *)
Definition sequential (n : nat) (cycles : list (Z * list MarketData)) : list Turn :=
  concat (map (alone n) cycles).

Definition asCycle (c : Z * list MarketData) : AlertService.Op :=
  AlertService.Cycle (fst c) (snd c).

Lemma schedule_idle env k st :
  schedule env (repeat (Resume 0) k) (mkEngine st []) = mkEngine st [].
Proof. induction k as [|k IH]; simpl; auto. Qed.

(** A call resumed alone until it returns does what the loop of
    [checkAlerts] does. *)
Lemma resumed_alone_is_checkLoop env now m l : forall n st k,
  (length l < k)%nat ->
  schedule env (repeat (Resume 0) k) (mkEngine st [mkRun now m l n])
  = mkEngine (fst (AlertService.checkLoop env now m l n st)) [].
Proof.
  induction l as [|a l IH]; intros n st k Hk.
  - destruct k as [|k]; [simpl in Hk; lia|]. simpl. apply schedule_idle.
  - destruct k as [|k]; [simpl in Hk; lia|].
    simpl in Hk. assert (length l < k)%nat as Hk' by lia.
    change (schedule env (repeat (Resume 0) (S k)) (mkEngine st [mkRun now m (a :: l) n]))
      with (schedule env (repeat (Resume 0) k)
              (resume env 0 (mkEngine st [mkRun now m (a :: l) n]))).
    unfold resume. simpl.
    destruct (snd (AlertService.processAlert env now m a st)); simpl.
    + apply (IH n _ k Hk').
    + apply (IH n _ k Hk').
    + apply (IH (S n) _ k Hk').
    + apply schedule_idle.
Qed.

Lemma cycle_alone_is_checkAlerts env n c st :
  (length (AlertService.alerts st) <= n)%nat ->
  schedule env (alone n c) (mkEngine st [])
  = mkEngine (fst (AlertService.checkAlerts env (fst c) (snd c) st)) [].
Proof.
  intros Hn. unfold alone.
  change (schedule env (Tick (fst c) (snd c) :: repeat (Resume 0) (S n)) (mkEngine st []))
    with (schedule env (repeat (Resume 0) (S n))
            (alertTick (fst c) (snd c) (mkEngine st []))).
  unfold alertTick, AlertService.checkAlerts. simpl store. simpl running.
  pose proof (List.filter_length_le (AlertService.eligible (fst c))
                (AlertService.alerts st)) as Hlen.
  destruct (List.filter (AlertService.eligible (fst c)) (AlertService.alerts st))
    as [|b l] eqn:E.
  - apply schedule_idle.
  - rewrite app_nil_l.
    rewrite (resumed_alone_is_checkLoop env (fst c) (buildMarketDataMap (snd c))
               (b :: l) 0%nat st (S n)); [|simpl in *; lia].
    now destruct (snd (AlertService.checkLoop env (fst c)
                         (buildMarketDataMap (snd c)) (b :: l) 0 st)).
Qed.

(** Cycles that do not overlap are a history of [checkAlerts] calls. *)
Lemma sequential_is_runOps env n cycles : forall st,
  (length (AlertService.alerts st) <= n)%nat ->
  schedule env (sequential n cycles) (mkEngine st [])
  = mkEngine (AlertService.runOps env (map asCycle cycles) st) [].
Proof.
  induction cycles as [|c cycles IH]; intros st Hn; [reflexivity|].
  change (sequential n (c :: cycles)) with (alone n c ++ sequential n cycles).
  unfold schedule at 1. rewrite fold_left_app.
  fold (schedule env (alone n c) (mkEngine st [])).
  rewrite (cycle_alone_is_checkAlerts env n c st Hn).
  apply IH.
  pose proof (AlertService.only_ids _ _ _
                (AlertService.checkAlerts_only env (fst c) (snd c) st)) as Hids.
  apply (f_equal (@length nat)) in Hids. rewrite !List.length_map in Hids.
  now rewrite Hids.
Qed.

(** C3 (amended).  A tick is never skipped or queued: whatever calls of
    [checkAlerts] are still running, a tick with an eligible alert starts
    one more.  What holds is the sequential case: when every cycle has
    returned before the next tick, from an empty log, no alert has its
    notification dispatched more than once. *)
Theorem ticks_are_unguarded_and_sequential_cycles_dispatch_once
  env now quotes e a n cycles st id :
  In a (AlertService.alerts (store e)) ->
  AlertService.eligible now a = true ->
  List.NoDup (map _id (AlertService.alerts st)) ->
  AlertService.log st = [] ->
  (length (AlertService.alerts st) <= n)%nat ->
  length (running (alertTick now quotes e)) = S (length (running e)) /\
  (AlertService.dispatches id
     (AlertService.log
        (store (schedule env (sequential n cycles) (mkEngine st [])))) <= 1)%nat.
Proof.
  intros Hin Hel Hnd Hlog Hn. split.
  - unfold alertTick.
    assert (In a (List.filter (AlertService.eligible now)
                    (AlertService.alerts (store e)))) as Hsel
      by (apply filter_In; auto).
    destruct (List.filter (AlertService.eligible now)
                (AlertService.alerts (store e))) as [|b l]; [destruct Hsel|].
    simpl. rewrite List.length_app. simpl. lia.
  - rewrite (sequential_is_runOps env n cycles st Hn). simpl.
    assert (AlertService.accounted st) as Hacc.
    { split; [exact Hnd|]. intros i. rewrite Hlog.
      unfold AlertService.dispatches. simpl. split; [lia|]. intros H. lia. }
    apply (AlertService.accounted_runOps env (map asCycle cycles) st Hacc).
Qed.

(** A user with mail notifications on, and a transport that accepts
    every mail. *)
Definition mailingEnv : AlertService.Env :=
  AlertService.mkEnv
    (fun _ => AlertService.LookupUser
                (AlertService.mkUser 7 "user@example.com" (Some true)))
    (Some (fun _ _ => AlertService.MailSent))
    (fun _ => true).

Definition oneAlert : Engine :=
  mkEngine (AlertService.mkStore
              [AlertService.tcsAlert 1 price above 100] []) [].

Lemma ticks_are_unguarded_witness :
  length (running (alertTick 61000 [AlertService.tcsQuote 101 0]
                     (alertTick 1000 [AlertService.tcsQuote 101 0] oneAlert)))
  = 2%nat /\
  (AlertService.dispatches 1
     (AlertService.log
        (store (schedule mailingEnv
                  (sequential 1 [(1000%Z, [AlertService.tcsQuote 101 0]);
                                 (61000%Z, [AlertService.tcsQuote 101 0])])
                  oneAlert))) <= 1)%nat.
Proof.
  apply (ticks_are_unguarded_and_sequential_cycles_dispatch_once mailingEnv
           61000 [AlertService.tcsQuote 101 0]
           (alertTick 1000 [AlertService.tcsQuote 101 0] oneAlert)
           (AlertService.tcsAlert 1 price above 100) 1%nat
           [(1000, [AlertService.tcsQuote 101 0]);
            (61000, [AlertService.tcsQuote 101 0])]
           (AlertService.mkStore [AlertService.tcsAlert 1 price above 100] [])
           1%nat).
  - simpl. now left.
  - reflexivity.
  - simpl. repeat constructor. simpl. tauto.
  - reflexivity.
  - simpl. lia.
Defined.

(** C3 as stated fails.  The first cycle is still running, not yet in
    its loop, when the second tick fires 60 s later: the second call of
    [checkAlerts] is started all the same and selects the same alert;
    when the two calls go on, each saves the transition and each
    dispatches the notification: two dispatches and two mails for the
    one alert. *)
Lemma overlapping_cycles_dispatch_twice :
  length (running (schedule mailingEnv
                     [Tick 1000 [AlertService.tcsQuote 101 0];
                      Tick 61000 [AlertService.tcsQuote 101 0]] oneAlert))
  = 2%nat /\
  AlertService.dispatches 1
    (AlertService.log
       (store (schedule mailingEnv
                 [Tick 1000 [AlertService.tcsQuote 101 0];
                  Tick 61000 [AlertService.tcsQuote 101 0];
                  Resume 0; Resume 1] oneAlert)))
  = 2%nat /\
  length (List.filter AlertService.isMail
            (AlertService.log
               (store (schedule mailingEnv
                         [Tick 1000 [AlertService.tcsQuote 101 0];
                          Tick 61000 [AlertService.tcsQuote 101 0];
                          Resume 0; Resume 1] oneAlert))))
  = 2%nat.
Proof.
  repeat split; vm_compute; reflexivity.
Qed.

(** ** Dispatches when cycles overlap *)

Definition isTick (t : Turn) : bool :=
  match t with
  | Tick _ _ => true
  | Resume _ => false
  end.

(** How many times the interval fired. *)
Definition ticks (turns : list Turn) : nat := length (List.filter isTick turns).

(** The loop of the call has still to visit the alert [id]. *)
Definition visits (id : nat) (r : Run) : bool :=
  existsb (fun a => Nat.eqb (_id a) id) (remaining r).

Definition weight (id : nat) (r : Run) : nat := if visits id r then 1%nat else 0%nat.

(** The running calls that have still to visit the alert [id]. *)
Fixpoint pending (id : nat) (runs : list Run) : nat :=
  match runs with
  | [] => 0%nat
  | r :: rs => (weight id r + pending id rs)%nat
  end.

Lemma pending_app id l1 l2 :
  pending id (l1 ++ l2) = (pending id l1 + pending id l2)%nat.
Proof. induction l1 as [|r l1 IH]; simpl; [reflexivity|]. rewrite IH. lia. Qed.

Lemma pending_delete id r : forall l i,
  l !! i = Some r ->
  (pending id (delete i l) + weight id r = pending id l)%nat.
Proof.
  induction l as [|x l IH]; intros [|i] H; try discriminate.
  - injection H as ->. simpl. lia.
  - simpl in H. specialize (IH i H).
    change (delete (S i) (x :: l)) with (x :: delete i l). simpl. lia.
Qed.

Lemma pending_insert id r r' : forall l i,
  l !! i = Some r ->
  (pending id (<[i := r']> l) + weight id r = pending id l + weight id r')%nat.
Proof.
  induction l as [|x l IH]; intros [|i] H; try discriminate.
  - injection H as ->. simpl. lia.
  - simpl in H. specialize (IH i H).
    change (<[S i := r']> (x :: l)) with (x :: <[i := r']> l). simpl. lia.
Qed.

Lemma dispatches_le_isDispatch id evs :
  (AlertService.dispatches id evs
   <= length (List.filter AlertService.isDispatch evs))%nat.
Proof.
  unfold AlertService.dispatches.
  induction evs as [|e evs IH]; simpl; [lia|].
  destruct e as [a|a|i|i to r|i]; simpl; auto.
  destruct (Nat.eqb i id); simpl; lia.
Qed.

(** One iteration dispatches for its own alert only, and at most once. *)
Lemma processAlert_dispatches_le env now m a st id :
  (AlertService.dispatches id
     (AlertService.log (fst (AlertService.processAlert env now m a st)))
   <= AlertService.dispatches id (AlertService.log st)
      + (if Nat.eqb (_id a) id then 1 else 0))%nat.
Proof.
  destruct (AlertService.processAlert_only env now m a st)
    as [_ _ _ (evs & Hlog & Hall)].
  destruct (AlertService.processAlert_fired env now m a st)
    as (evs' & Hlog' & Hcount).
  assert (evs' = evs) as ->.
  { rewrite Hlog in Hlog'. now apply app_inv_head in Hlog'. }
  rewrite Hlog, AlertService.dispatches_app.
  destruct (Nat.eqb_spec (_id a) id) as [Heq|Hne].
  - pose proof (dispatches_le_isDispatch id evs) as Hle.
    destruct (snd (AlertService.processAlert env now m a st)); lia.
  - rewrite (AlertService.dispatches_foreign id evs); [lia|].
    eapply List.Forall_impl; [|exact Hall]. simpl. congruence.
Qed.

Lemma visits_next id now m a rest n n' :
  List.NoDup (map _id (a :: rest)) ->
  (weight id (mkRun now m rest n') + (if Nat.eqb (_id a) id then 1 else 0)
   = weight id (mkRun now m (a :: rest) n))%nat.
Proof.
  intros Hnd. inversion Hnd as [|? ? Hout _]; subst.
  unfold weight, visits. simpl.
  destruct (Nat.eqb_spec (_id a) id) as [Heq|Hne]; simpl; [|lia].
  destruct (existsb _ rest) eqn:E; [|reflexivity].
  apply existsb_exists in E. destruct E as (b & Hb & Hid).
  apply Nat.eqb_eq in Hid. destruct Hout. rewrite Heq, <- Hid.
  now apply in_map.
Qed.

(** What every reachable state of the scheduler satisfies: the
    documents of the collection and those each running call has still to
    visit have distinct [_id]s, and the dispatches of [id] made so far,
    with the calls that may still make one, are at most [n]. *)
Definition bounded (id n : nat) (e : Engine) : Prop :=
  List.Forall (fun r => List.NoDup (map _id (remaining r))) (running e) /\
  List.NoDup (map _id (AlertService.alerts (store e))) /\
  (AlertService.dispatches id (AlertService.log (store e))
   + pending id (running e) <= n)%nat.

Lemma alertTick_bounded id n now quotes e :
  bounded id n e -> bounded id (S n) (alertTick now quotes e).
Proof.
  intros (Hruns & Hnd & Hle). unfold alertTick.
  destruct (List.filter (AlertService.eligible now)
              (AlertService.alerts (store e))) as [|b l] eqn:E.
  - repeat split; auto; lia.
  - split; [|split; [exact Hnd|]]; cbn [running store].
    + apply Forall_app. split; [exact Hruns|].
      constructor; [|constructor]. cbn [remaining]. rewrite <- E.
      now apply AlertService.NoDup_map_filter.
    + rewrite pending_app. simpl. unfold weight at 1.
      destruct (visits id _); lia.
Qed.

Lemma resume_bounded env id n i e :
  bounded id n e -> bounded id n (resume env i e).
Proof.
  intros (Hruns & Hnd & Hle). unfold resume.
  destruct (running e !! i) as [run|] eqn:Ei; [|now repeat split].
  pose proof (Forall_lookup_1 _ _ _ _ Hruns Ei) as Hrun. simpl in Hrun.
  destruct run as [now m rem cnt]. simpl in *.
  destruct rem as [|a rest].
  - simpl. split; [now apply Forall_delete|]. split; [exact Hnd|].
    pose proof (pending_delete id _ _ _ Ei) as Hp. cbn [store running]. lia.
  - pose proof (processAlert_dispatches_le env now m a (store e) id) as Hd.
    pose proof (AlertService.only_ids _ _ _
                  (AlertService.processAlert_only env now m a (store e))) as Hids.
    assert (List.NoDup (map _id rest)) as Hrest
      by (now inversion Hrun).
    destruct (snd (AlertService.processAlert env now m a (store e)));
      cbn [store running];
      (split; [first [now apply Forall_delete | now apply Forall_insert]|]);
      (split; [cbn [store]; now rewrite Hids|]); cbn [store running].
    + pose proof (pending_insert id _ (mkRun now m rest cnt) _ _ Ei) as Hp.
      pose proof (visits_next id now m a rest cnt cnt Hrun). lia.
    + pose proof (pending_insert id _ (mkRun now m rest cnt) _ _ Ei) as Hp.
      pose proof (visits_next id now m a rest cnt cnt Hrun). lia.
    + pose proof (pending_insert id _ (mkRun now m rest (S cnt)) _ _ Ei) as Hp.
      pose proof (visits_next id now m a rest cnt (S cnt) Hrun). lia.
    + pose proof (pending_delete id _ _ _ Ei) as Hp.
      pose proof (visits_next id now m a rest cnt cnt Hrun).
      unfold weight in *. destruct (visits id _), (visits id _),
        (Nat.eqb (_id a) id); lia.
Qed.

Lemma schedule_bounded env id turns : forall n e,
  bounded id n e -> bounded id (n + ticks turns) (schedule env turns e).
Proof.
  induction turns as [|t turns IH]; intros n e Hb.
  - simpl. now rewrite Nat.add_0_r.
  - change (schedule env (t :: turns) e) with (schedule env turns (turn env e t)).
    destruct t as [now quotes|i].
    + change (ticks (Tick now quotes :: turns)) with (S (ticks turns)).
      replace (n + S (ticks turns))%nat with (S n + ticks turns)%nat by lia.
      apply IH. now apply alertTick_bounded.
    + change (ticks (Resume i :: turns)) with (ticks turns).
      apply IH. now apply resume_bounded.
Qed.

(** However the calls of [checkAlerts] overlap, each of them dispatches
    the notification of an alert at most once: over any schedule of
    ticks and resumptions that starts with no call running, the
    dispatches for one alert grow by at most the number of ticks. *)
Theorem overlapping_cycles_dispatch_at_most_once_per_tick env turns st id :
  List.NoDup (map _id (AlertService.alerts st)) ->
  (AlertService.dispatches id
     (AlertService.log (store (schedule env turns (mkEngine st []))))
   <= AlertService.dispatches id (AlertService.log st) + ticks turns)%nat.
Proof.
  intros Hnd.
  destruct (schedule_bounded env id turns
              (AlertService.dispatches id (AlertService.log st))
              (mkEngine st [])) as (_ & _ & Hle).
  - split; [constructor|]. split; [exact Hnd|]. simpl. lia.
  - lia.
Qed.

Lemma overlapping_cycles_dispatch_at_most_once_per_tick_witness :
  (AlertService.dispatches 1
     (AlertService.log
        (store (schedule mailingEnv
                  [Tick 1000 [AlertService.tcsQuote 101 0];
                   Tick 61000 [AlertService.tcsQuote 101 0];
                   Resume 0; Resume 1] oneAlert)))
   <= 0 + 2)%nat.
Proof.
  apply (overlapping_cycles_dispatch_at_most_once_per_tick mailingEnv
           [Tick 1000 [AlertService.tcsQuote 101 0];
            Tick 61000 [AlertService.tcsQuote 101 0];
            Resume 0; Resume 1] (store oneAlert) 1%nat).
  simpl. repeat constructor. simpl. tauto.
Defined.

(** ** Calls that overlap, and sweeps *)

(** What the service may do to the collection of alerts next: a turn of
    the scheduler, or a sweep, which is one [updateMany].  The update
    operation is not among the steps, nor is the removal of expired
    documents by the TTL index of the schema, which is the database's. *)
Inductive Step :=
| Turned (t : Turn)
| Swept (now : Z).

Definition step (env : AlertService.Env) (e : Engine) (s : Step) : Engine :=
  match s with
  | Turned t => turn env e t
  | Swept now =>
    mkEngine
      (AlertService.mkStore
         (snd (AlertService.cleanupExpiredAlerts now (AlertService.alerts (store e))))
         (AlertService.log (store e)))
      (running e)
  end.

Definition play (env : AlertService.Env) (steps : list Step) (e : Engine) : Engine :=
  fold_left (step env) steps e.

Definition isTurn (s : Step) : Prop :=
  match s with
  | Turned _ => True
  | Swept _ => False
  end.

(** No call among [runs] has the alert [id] still to visit: none of them
    read it, or its loop is past it. *)
Definition passed (id : nat) (runs : list Run) : Prop :=
  Forall (fun r => ~ In id (map _id (remaining r))) runs.

(** An alert no query of [checkAlerts] selects, at any time. *)
Definition settled (a : Alert) : Prop := isTriggered a = true \/ isActive a = false.

Lemma settled_not_eligible now a : settled a -> AlertService.eligible now a = false.
Proof.
  unfold AlertService.eligible. intros [H|H]; rewrite H; simpl; auto.
  now rewrite andb_false_r.
Qed.

Lemma swept_settled a a' : AlertService.swept a a' -> settled a -> settled a'.
Proof.
  intros [->| ->] H; auto. now right.
Qed.

(** One step leaves a settled alert that no running call has still to
    visit where it is: a turn keeps its document, a sweep changes at
    most [isActive], nothing is logged about it, and no call has it to
    visit afterwards. *)
Lemma step_settled env e s a :
  List.NoDup (map _id (AlertService.alerts (store e))) ->
  In a (AlertService.alerts (store e)) -> settled a ->
  passed (_id a) (running e) ->
  exists a',
    In a' (AlertService.alerts (store (step env e s))) /\
    AlertService.swept a a' /\ (isTurn s -> a' = a) /\
    (isActive a = false -> a' = a) /\
    List.NoDup (map _id (AlertService.alerts (store (step env e s)))) /\
    passed (_id a) (running (step env e s)) /\
    exists evs,
      AlertService.log (store (step env e s)) = AlertService.log (store e) ++ evs /\
      Forall (fun ev => AlertService.eventId ev <> _id a) evs.
Proof.
  intros Hnd Hin Hset Hpassed.
  assert (forall st : AlertService.Store,
            exists evs : list AlertService.Event,
              AlertService.log st = AlertService.log st ++ evs /\
              Forall (fun ev => AlertService.eventId ev <> _id a) evs) as Hquiet.
  { intros st. exists []. split; [now rewrite app_nil_r|constructor]. }
  destruct s as [[now quotes|i]|now].
  - (* a tick *)
    cbn [step turn]. unfold alertTick.
    destruct (List.filter (AlertService.eligible now)
                (AlertService.alerts (store e))) as [|b l] eqn:E.
    + exists a. repeat split; auto. now left.
    + cbn [store running]. exists a. split; [exact Hin|]. split; [now left|].
      split; [auto|]. split; [auto|]. split; [exact Hnd|]. split; [|apply Hquiet].
      apply Forall_app. split; [exact Hpassed|].
      constructor; [|constructor]. cbn [remaining]. rewrite <- E.
      apply AlertService.not_eligible_not_selected; auto.
      now apply settled_not_eligible.
  - (* a running call goes on *)
    cbn [step turn]. unfold resume.
    destruct (running e !! i) as [run|] eqn:Ei.
    2:{ exists a. repeat split; auto. now left. }
    pose proof (Forall_lookup_1 _ _ _ _ Hpassed Ei) as Hrun.
    destruct run as [now m rem cnt]. cbn [remaining clock marketDataMap triggeredCount] in *.
    destruct rem as [|b rest].
    + cbn [store running]. exists a. split; [exact Hin|]. split; [now left|].
      split; [auto|]. split; [auto|]. split; [exact Hnd|]. split; [|apply Hquiet].
      now apply Forall_delete.
    + assert (_id b <> _id a) as Hne by (intros Heq; apply Hrun; now left).
      assert (~ In (_id a) (map _id rest)) as Hrest
        by (intros Hr; apply Hrun; now right).
      destruct (AlertService.processAlert_only env now m b (store e))
        as [Hids Hkeeps _ (evs & Hlog & Hall)].
      assert (In a (AlertService.alerts
                      (fst (AlertService.processAlert env now m b (store e)))))
        as Hin' by (apply Hkeeps; auto).
      assert (List.NoDup (map _id (AlertService.alerts
                      (fst (AlertService.processAlert env now m b (store e))))))
        as Hnd' by (now rewrite Hids).
      assert (Forall (fun ev => AlertService.eventId ev <> _id a) evs) as Hall'.
      { eapply List.Forall_impl; [|exact Hall]. simpl. congruence. }
      destruct (snd (AlertService.processAlert env now m b (store e)));
        cbn [store running]; exists a;
        (split; [exact Hin'|]); (split; [now left|]);
        (split; [auto|]); (split; [auto|]); (split; [exact Hnd'|]);
        (split; [|exists evs; split; [exact Hlog|exact Hall']]);
        first [now apply Forall_delete | now apply Forall_insert].
  - (* a sweep *)
    cbn [step store running AlertService.alerts AlertService.log].
    exists (if AlertService.expired now a then set_isActive false a else a).
    split; [apply in_map_iff; now exists a|].
    split; [destruct (AlertService.expired now a); [now right|now left]|].
    split; [intros []|]. split.
    { intros Hoff. unfold AlertService.expired. rewrite Hoff.
      now rewrite andb_false_r. }
    split; [now rewrite AlertService.cleanup_ids|].
    split; [exact Hpassed|]. apply Hquiet.
Qed.

Lemma play_settled env steps : forall e a,
  List.NoDup (map _id (AlertService.alerts (store e))) ->
  In a (AlertService.alerts (store e)) -> settled a ->
  passed (_id a) (running e) ->
  exists a',
    In a' (AlertService.alerts (store (play env steps e))) /\
    AlertService.swept a a' /\ (Forall isTurn steps -> a' = a) /\
    (isActive a = false -> a' = a) /\
    List.NoDup (map _id (AlertService.alerts (store (play env steps e)))) /\
    exists evs,
      AlertService.log (store (play env steps e)) = AlertService.log (store e) ++ evs /\
      Forall (fun ev => AlertService.eventId ev <> _id a) evs.
Proof.
  induction steps as [|s steps IH]; intros e a Hnd Hin Hset Hpassed.
  - exists a. split; [exact Hin|]. split; [now left|]. split; [auto|].
    split; [auto|]. split; [exact Hnd|].
    exists []. split; [now rewrite app_nil_r|constructor].
  - change (play env (s :: steps) e) with (play env steps (step env e s)).
    destruct (step_settled env e s a Hnd Hin Hset Hpassed)
      as (a1 & Hin1 & Hsw1 & Hturn1 & Hoff1 & Hnd1 & Hpassed1 & evs1 & Hl1 & Hf1).
    pose proof (AlertService.swept_id _ _ Hsw1) as Hid1.
    rewrite <- Hid1 in Hpassed1.
    destruct (IH (step env e s) a1 Hnd1 Hin1 (swept_settled _ _ Hsw1 Hset) Hpassed1)
      as (a2 & Hin2 & Hsw2 & Hturn2 & Hoff2 & Hnd2 & evs2 & Hl2 & Hf2).
    exists a2. split; [exact Hin2|].
    split; [eapply AlertService.swept_again; eauto|]. split.
    { intros Hall. inversion Hall as [|? ? Hs Hrest]; subst.
      rewrite (Hturn2 Hrest). now apply Hturn1. }
    split.
    { intros Hoff. rewrite <- (Hoff1 Hoff). apply Hoff2.
      now rewrite (Hoff1 Hoff). }
    split; [exact Hnd2|].
    exists (evs1 ++ evs2). split.
    + now rewrite Hl2, Hl1, app_assoc.
    + apply Forall_app. split; auto.
      eapply List.Forall_impl; [|exact Hf2]. simpl.
      intros ev Hev. now rewrite <- Hid1.
Qed.

(** C4 (amended).  Take an alert that is stored triggered and that no
    running call of [checkAlerts] has still to visit.  Whatever comes
    next, calls of [checkAlerts] that start from then on, overlapping
    as they may, and expiry sweeps: one document carries its [_id], it
    is triggered, it is the same up to [isActive], which only a sweep
    clears, and nothing is saved, dispatched, mailed or logged about
    the alert.  With no sweep the document is unchanged.  The update
    operation, and a call of [checkAlerts] that had read the alert
    before it was triggered, are left out of the statement. *)
Theorem triggered_is_final_for_later_calls_and_sweeps env steps e a :
  List.NoDup (map _id (AlertService.alerts (store e))) ->
  In a (AlertService.alerts (store e)) -> isTriggered a = true ->
  passed (_id a) (running e) ->
  (exists a',
     In a' (AlertService.alerts (store (play env steps e))) /\
     (forall x, In x (AlertService.alerts (store (play env steps e))) ->
                _id x = _id a -> x = a') /\
     AlertService.swept a a' /\ isTriggered a' = true /\
     (Forall isTurn steps -> a' = a)) /\
  exists evs,
    AlertService.log (store (play env steps e)) = AlertService.log (store e) ++ evs /\
    Forall (fun ev => AlertService.eventId ev <> _id a) evs.
Proof.
  intros Hnd Hin Htr Hpassed.
  destruct (play_settled env steps e a Hnd Hin (or_introl Htr) Hpassed)
    as (a' & Hin' & Hsw & Hturn & _ & Hnd' & Hevs).
  split; [|exact Hevs].
  exists a'. split; [exact Hin'|]. split.
  { intros x Hx Hid.
    apply (AlertService.NoDup_map_same _id _ x a' Hnd' Hx Hin').
    now rewrite (AlertService.swept_id _ _ Hsw). }
  split; [exact Hsw|]. split; [|exact Hturn].
  now rewrite (AlertService.swept_triggered _ _ Hsw).
Qed.

(** The alert of the design document, fired, and a second alert on the
    same index that has not fired yet. *)
Definition niftyPair : Engine :=
  mkEngine
    (AlertService.mkStore
       [AlertService.niftyFired;
        mkAlert 2 7 "NIFTY" price above 20000 0 "NIFTY above 20000, again"
          true false None false high None 0 0]
       [])
    [].

Definition niftyHigh : MarketData :=
  mkMarketData "NIFTY" 20100 0 0 0 0 0 0 None 170000 yahoo_finance.

Definition laterSteps : list Step :=
  [Turned (Tick 180000 [niftyHigh]); Turned (Tick 240000 [niftyHigh]);
   Turned (Resume 0); Swept 250000; Turned (Resume 1)].

(** Two overlapping calls at a price of 20100 and a sweep: the second
    alert, over its target like the first, is dispatched by both calls,
    and the fired alert is left as it was. *)
Lemma triggered_is_final_witness :
  ((exists a',
      In a' (AlertService.alerts (store (play mailingEnv laterSteps niftyPair))) /\
      (forall x, In x (AlertService.alerts (store (play mailingEnv laterSteps niftyPair))) ->
                 _id x = 1%nat -> x = a') /\
      AlertService.swept AlertService.niftyFired a' /\ isTriggered a' = true /\
      (Forall isTurn laterSteps -> a' = AlertService.niftyFired)) /\
   exists evs,
     AlertService.log (store (play mailingEnv laterSteps niftyPair)) = [] ++ evs /\
     Forall (fun ev => AlertService.eventId ev <> 1%nat) evs) /\
  AlertService.dispatches 2
    (AlertService.log (store (play mailingEnv laterSteps niftyPair))) = 2%nat.
Proof.
  split; [|vm_compute; reflexivity].
  apply (triggered_is_final_for_later_calls_and_sweeps mailingEnv laterSteps
           niftyPair AlertService.niftyFired).
  - simpl. repeat constructor; simpl; intuition discriminate.
  - simpl. now left.
  - reflexivity.
  - constructor.
Defined.

(** What the statement leaves out, besides the update operation: a call
    that read the alert before it was triggered.  The call of the second
    tick selected the alert while the first had not yet visited it;
    when it goes on, after the first has triggered the alert at time
    1000, it triggers it again and rewrites [triggeredAt]. *)
Lemma in_flight_call_rewrites_a_triggered_alert :
  map (fun a => (isTriggered a, triggeredAt a))
    (AlertService.alerts
       (store (schedule mailingEnv
                 [Tick 1000 [AlertService.tcsQuote 101 0];
                  Tick 61000 [AlertService.tcsQuote 101 0];
                  Resume 0] oneAlert)))
  = [(true, Some 1000)] /\
  map (fun a => (isTriggered a, triggeredAt a))
    (AlertService.alerts
       (store (schedule mailingEnv
                 [Tick 1000 [AlertService.tcsQuote 101 0];
                  Tick 61000 [AlertService.tcsQuote 101 0];
                  Resume 0; Resume 1] oneAlert)))
  = [(true, Some 61000)].
Proof. split; vm_compute; reflexivity. Qed.



(** Once [deleteAlert] has answered, the alert is out of the reach of
    every call of [checkAlerts] that starts from then on, and of the
    sweeps: whatever calls and sweeps follow, overlapping as they may,
    under any environment, its document stays as [deleteAlert] left it,
    with [isActive] false, and nothing is saved, dispatched or mailed
    for it, as long as no call still running has it to visit. *)
Theorem deleted_alert_is_never_evaluated alertId user db a' env runs steps events :
  List.NoDup (map _id db) ->
  fst (AlertService.deleteAlert alertId user db) = Some a' ->
  passed alertId runs ->
  isActive a' = false /\
  In a' (AlertService.alerts
           (store (play env steps
                     (mkEngine
                        (AlertService.mkStore
                           (snd (AlertService.deleteAlert alertId user db)) events)
                        runs)))) /\
  exists evs,
    AlertService.log
      (store (play env steps
                (mkEngine
                   (AlertService.mkStore
                      (snd (AlertService.deleteAlert alertId user db)) events)
                   runs)))
    = events ++ evs /\
    Forall (fun ev => AlertService.eventId ev <> alertId) evs.
Proof.
  intros Hnd Hdel Hpassed.
  destruct (AlertService.deleteAlert_answer alertId user db a' Hdel)
    as (Hin & Hid & Hoff & Hids).
  split; [exact Hoff|].
  destruct (play_settled env steps
              (mkEngine
                 (AlertService.mkStore
                    (snd (AlertService.deleteAlert alertId user db)) events) runs) a')
    as (a2 & Hin2 & _ & _ & Hsame & _ & evs & Hl & Hall).
  - cbn [store AlertService.alerts]. now rewrite Hids.
  - exact Hin.
  - now right.
  - cbn [running]. now rewrite Hid.
  - rewrite (Hsame Hoff) in Hin2. split; [exact Hin2|].
    exists evs. split; [exact Hl|]. now rewrite <- Hid.
Qed.

Lemma deleted_alert_is_never_evaluated_witness :
  isActive (set_isActive false (AlertService.tcsAlert 1 price above 100)) = false /\
  In (set_isActive false (AlertService.tcsAlert 1 price above 100))
     (AlertService.alerts
        (store (play mailingEnv
                  [Turned (Tick 100 [AlertService.tcsQuote 101 0]);
                   Turned (Tick 200 [AlertService.tcsQuote 101 0]);
                   Turned (Resume 0); Swept 300; Turned (Resume 0)]
                  (mkEngine
                     (AlertService.mkStore
                        (snd (AlertService.deleteAlert 1 7 AlertService.sampleAlerts)) [])
                     [])))).
Proof.
  destruct (deleted_alert_is_never_evaluated 1 7 AlertService.sampleAlerts
              (set_isActive false (AlertService.tcsAlert 1 price above 100))
              mailingEnv []
              [Turned (Tick 100 [AlertService.tcsQuote 101 0]);
               Turned (Tick 200 [AlertService.tcsQuote 101 0]);
               Turned (Resume 0); Swept 300; Turned (Resume 0)] []
              AlertService.sampleAlerts_distinct eq_refl) as (Hoff & Hin & _).
  - constructor.
  - split; [exact Hoff|exact Hin].
Defined.

(** What the statement leaves out: a call that read the alert before
    the delete.  The tick selects alert 1; the owner deletes it; when
    the call goes on, it dispatches the notification of the deleted
    alert all the same. *)
Lemma in_flight_call_fires_a_deleted_alert :
  fst (AlertService.deleteAlert 1 7 (AlertService.alerts (store oneAlert)))
  = Some (set_isActive false (AlertService.tcsAlert 1 price above 100)) /\
  AlertService.dispatches 1
    (AlertService.log
       (store (resume mailingEnv 0
                 (mkEngine
                    (AlertService.mkStore
                       (snd (AlertService.deleteAlert 1 7
                               (AlertService.alerts (store oneAlert))))
                       [])
                    (running (alertTick 1000 [AlertService.tcsQuote 101 0] oneAlert))))))
  = 1%nat.
Proof. split; vm_compute; reflexivity. Qed.

(** ** Symbols are upper-cased *)

Lemma upperAscii_idempotent c : upperAscii (upperAscii c) = upperAscii c.
Proof. destruct c as [[] [] [] [] [] [] [] []]; reflexivity. Qed.

Lemma toUpperCase_idempotent s : toUpperCase (toUpperCase s) = toUpperCase s.
Proof.
  induction s as [|c s IH]; simpl; [reflexivity|].
  now rewrite upperAscii_idempotent, IH.
Qed.

Lemma fold_left_map_same {A B : Type} (f : A -> B -> A) (g : B -> B) l :
  (forall a b, f a (g b) = f a b) ->
  forall a, fold_left f (map g l) a = fold_left f l a.
Proof.
  intros Hf. induction l as [|b l IH]; intros a; simpl; [reflexivity|].
  now rewrite Hf, IH.
Qed.

(** Subscriptions are case-insensitive: subscribing to, or unsubscribing
    from, symbols in any letter case is the same as doing it with the
    upper-cased symbols. *)
Theorem subscriptions_ignore_letter_case hub id symbols :
  handle hub (SubscribeMarketData id (map toUpperCase symbols))
  = handle hub (SubscribeMarketData id symbols) /\
  handle hub (UnsubscribeMarketData id (map toUpperCase symbols))
  = handle hub (UnsubscribeMarketData id symbols).
Proof.
  simpl. split; apply fold_left_map_same; intros h s.
  - unfold subscribeOne. now rewrite toUpperCase_idempotent.
  - unfold unsubscribeOne. now rewrite toUpperCase_idempotent.
Qed.

(** Every symbol of a room or of a recorded subscription is in upper
    case. *)
Definition upperCased (hub : Hub) : Prop :=
  (forall id socket S, sockets hub !! id = Some socket -> S ∈ rooms socket ->
                       toUpperCase S = S) /\
  (forall u user S, connectedUsers hub !! u = Some user -> S ∈ subscriptions user ->
                    toUpperCase S = S).

Lemma upperCased_handle hub msg : upperCased hub -> upperCased (handle hub msg).
Proof.
  assert (forall id h symbol, upperCased h -> upperCased (subscribeOne id h symbol))
    as Hsub.
  { intros id h symbol [Hr Hs]. unfold subscribeOne.
    destruct (sockets h !! id) as [socket|] eqn:Hid; [|now split].
    split; simpl.
    - intros i sock S Hi HS. rewrite lookup_insert in Hi.
      destruct (decide (id = i)) as [->|Hne]; [|eauto].
      injection Hi as <-. simpl in HS. apply elem_of_union in HS.
      destruct HS as [HS|HS]; [|eauto].
      apply elem_of_singleton in HS. subst S. apply toUpperCase_idempotent.
    - destruct (socket_userId socket) as [u0|]; [|exact Hs].
      destruct (connectedUsers h !! u0) as [user0|] eqn:Hu0; [|exact Hs].
      intros u user S Hu HS. rewrite lookup_insert in Hu.
      destruct (decide (u0 = u)) as [->|Hne]; [|eauto].
      injection Hu as <-. simpl in HS. apply elem_of_union in HS.
      destruct HS as [HS|HS]; [|eauto].
      apply elem_of_singleton in HS. subst S. apply toUpperCase_idempotent. }
  assert (forall id h symbol, upperCased h -> upperCased (unsubscribeOne id h symbol))
    as Hunsub.
  { intros id h symbol [Hr Hs]. unfold unsubscribeOne.
    destruct (sockets h !! id) as [socket|] eqn:Hid; [|now split].
    split; simpl.
    - intros i sock S Hi HS. rewrite lookup_insert in Hi.
      destruct (decide (id = i)) as [->|Hne]; [|eauto].
      injection Hi as <-. simpl in HS. apply elem_of_difference in HS.
      destruct HS as [HS _]. eauto.
    - destruct (socket_userId socket) as [u0|]; [|exact Hs].
      destruct (connectedUsers h !! u0) as [user0|] eqn:Hu0; [|exact Hs].
      intros u user S Hu HS. rewrite lookup_insert in Hu.
      destruct (decide (u0 = u)) as [->|Hne]; [|eauto].
      injection Hu as <-. simpl in HS. apply elem_of_difference in HS.
      destruct HS as [HS _]. eauto. }
  assert (forall (f : Hub -> string -> Hub) symbols,
            (forall h symbol, upperCased h -> upperCased (f h symbol)) ->
            forall h, upperCased h -> upperCased (fold_left f symbols h)) as Hfold.
  { intros f symbols Hf. induction symbols as [|x symbols IH]; simpl; auto. }
  intros [Hr Hs]. destruct msg as [id user|id symbols|id symbols|id]; simpl.
  - unfold connection.
    destruct (sockets hub !! id) as [old|] eqn:Hid; [now split|].
    split; simpl.
    + intros i sock S Hi HS. rewrite lookup_insert in Hi.
      destruct (decide (id = i)) as [->|Hne]; [|eauto].
      injection Hi as <-. simpl in HS. set_solver.
    + destruct user as [u0|]; [|exact Hs].
      intros u cu S Hu HS. rewrite lookup_insert in Hu.
      destruct (decide (u0 = u)) as [->|Hne]; [|eauto].
      injection Hu as <-. simpl in HS. set_solver.
  - apply Hfold; [intros; now apply Hsub|now split].
  - apply Hfold; [intros; now apply Hunsub|now split].
  - unfold handleDisconnection.
    destruct (sockets hub !! id) as [socket|] eqn:Hid; [|now split].
    split; simpl.
    + intros i sock S Hi HS. apply lookup_delete_Some in Hi. destruct Hi; eauto.
    + destruct (socket_userId socket) as [u0|]; [|exact Hs].
      intros u cu S Hu HS. apply lookup_delete_Some in Hu. destruct Hu; eauto.
Qed.

Lemma upperCased_after msgs : upperCased (after msgs).
Proof.
  unfold after.
  assert (upperCased noConnection) as H0.
  { split; intros ? ? ? H; simpl in H; now rewrite lookup_empty in H. }
  revert H0. generalize noConnection.
  induction msgs as [|msg msgs IH]; intros hub Hinv; simpl; auto.
  apply IH. now apply upperCased_handle.
Qed.

(** When the tick has symbols to serve, it requests one batch, for
    exactly the recorded symbols, and then makes one emission per
    recorded symbol, to the room that bears the symbol, with the entry
    the batch has for it; when the batch rejects nothing is emitted. *)
Theorem tick_requests_and_emits_the_recorded_symbols env now msgs st :
  subscribedSymbols (after msgs) <> ∅ ->
  fst (marketDataTick env now (after msgs) st)
  = BatchRequested (elements (subscribedSymbols (after msgs))) ::
    match fst (MarketDataService.getBatchMarketData env now
                 (elements (subscribedSymbols (after msgs))) st) with
    | Some batch =>
      map (fun S => Emitted S S (batch !! S))
        (elements (subscribedSymbols (after msgs)))
    | None => [ErrorLogged]
    end.
Proof.
  intros Hne. unfold marketDataTick.
  destruct (elements (subscribedSymbols (after msgs))) as [|s0 l] eqn:El.
  { destruct Hne. apply leibniz_equiv. now apply elements_empty_iff. }
  unfold broadcastMarketDataUpdate. cbn [fst]. f_equal.
  destruct (fst (MarketDataService.getBatchMarketData env now (s0 :: l) st));
    [|reflexivity].
  apply map_ext_in. intros S HS.
  assert (S ∈ subscribedSymbols (after msgs)) as Hrec.
  { apply elem_of_elements. rewrite El. now apply list_elem_of_In. }
  apply elem_of_subscribedSymbols in Hrec. destruct Hrec as (u & user & Hu & Hin).
  now rewrite (proj2 (upperCased_after msgs) u user S Hu Hin).
Qed.

(** ** What a subscription message does *)

#[local] Set Warnings "-clear-no-such-hyp".

(** The symbols of a message, upper-cased, as a set. *)
Definition symbolSet (symbols : list string) : gset string :=
  list_to_set (map toUpperCase symbols).

(** [hub'] is [hub] but for the rooms of socket [id] and the recorded
    subscriptions of user [u]. *)
Definition sameElsewhere (id u : nat) (hub hub' : Hub) : Prop :=
  (forall i, i <> id -> sockets hub' !! i = sockets hub !! i) /\
  (forall v, v <> u -> connectedUsers hub' !! v = connectedUsers hub !! v).

Lemma subscribe_recorded id u symbols : forall hub socket user,
  sockets hub !! id = Some socket -> socket_userId socket = Some u ->
  connectedUsers hub !! u = Some user ->
  exists socket' user',
    sockets (fold_left (subscribeOne id) symbols hub) !! id = Some socket' /\
    socket_userId socket' = Some u /\
    connectedUsers (fold_left (subscribeOne id) symbols hub) !! u = Some user' /\
    rooms socket' = symbolSet symbols ∪ rooms socket /\
    subscriptions user' = symbolSet symbols ∪ subscriptions user /\
    sameElsewhere id u hub (fold_left (subscribeOne id) symbols hub).
Proof.
  induction symbols as [|s symbols IH]; intros hub socket user Hid Hown Hu.
  - exists socket, user. simpl. unfold symbolSet. simpl.
    repeat split; auto; set_solver.
  - simpl.
    destruct (IH (subscribeOne id hub s)
                (mkSocket (Some u) ({[toUpperCase s]} ∪ rooms socket))
                (mkConnectedUser (socketId user)
                   ({[toUpperCase s]} ∪ subscriptions user)))
      as (socket' & user' & H1 & H2 & H3 & H4 & H5 & [H6 H7]).
    + unfold subscribeOne. rewrite Hid, Hown. simpl. now rewrite lookup_insert_eq.
    + reflexivity.
    + unfold subscribeOne. rewrite Hid, Hown, Hu. simpl. now rewrite lookup_insert_eq.
    + exists socket', user'. split; [exact H1|]. split; [exact H2|].
      split; [exact H3|]. simpl in H4, H5.
      split; [rewrite H4; unfold symbolSet; simpl; set_solver|].
      split; [rewrite H5; unfold symbolSet; simpl; set_solver|].
      split.
      * intros i Hi. rewrite (H6 i Hi). unfold subscribeOne.
        rewrite Hid. simpl. now rewrite lookup_insert_ne.
      * intros v Hv. rewrite (H7 v Hv). unfold subscribeOne.
        rewrite Hid, Hown, Hu. simpl. now rewrite lookup_insert_ne.
Qed.

Lemma unsubscribe_recorded id u symbols : forall hub socket user,
  sockets hub !! id = Some socket -> socket_userId socket = Some u ->
  connectedUsers hub !! u = Some user ->
  exists socket' user',
    sockets (fold_left (unsubscribeOne id) symbols hub) !! id = Some socket' /\
    socket_userId socket' = Some u /\
    connectedUsers (fold_left (unsubscribeOne id) symbols hub) !! u = Some user' /\
    rooms socket' = rooms socket ∖ symbolSet symbols /\
    subscriptions user' = subscriptions user ∖ symbolSet symbols /\
    sameElsewhere id u hub (fold_left (unsubscribeOne id) symbols hub).
Proof.
  induction symbols as [|s symbols IH]; intros hub socket user Hid Hown Hu.
  - exists socket, user. simpl. unfold symbolSet. simpl.
    repeat split; auto; set_solver.
  - simpl.
    destruct (IH (unsubscribeOne id hub s)
                (mkSocket (Some u) (rooms socket ∖ {[toUpperCase s]}))
                (mkConnectedUser (socketId user)
                   (subscriptions user ∖ {[toUpperCase s]})))
      as (socket' & user' & H1 & H2 & H3 & H4 & H5 & [H6 H7]).
    + unfold unsubscribeOne. rewrite Hid, Hown. simpl. now rewrite lookup_insert_eq.
    + reflexivity.
    + unfold unsubscribeOne. rewrite Hid, Hown, Hu. simpl.
      now rewrite lookup_insert_eq.
    + exists socket', user'. split; [exact H1|]. split; [exact H2|].
      split; [exact H3|]. simpl in H4, H5.
      split; [rewrite H4; unfold symbolSet; simpl; set_solver|].
      split; [rewrite H5; unfold symbolSet; simpl; set_solver|].
      split.
      * intros i Hi. rewrite (H6 i Hi). unfold unsubscribeOne.
        rewrite Hid. simpl. now rewrite lookup_insert_ne.
      * intros v Hv. rewrite (H7 v Hv). unfold unsubscribeOne.
        rewrite Hid, Hown, Hu. simpl. now rewrite lookup_insert_ne.
Qed.

(** A subscription of a socket whose user has an entry in
    [connectedUsers]: the socket joins the rooms of the upper-cased
    symbols, the same symbols are recorded for the user, nothing else
    changes, and the next tick requests a batch that has every one of
    them. *)
Theorem subscription_of_a_user_is_served env now st hub id socket u user symbols :
  sockets hub !! id = Some socket -> socket_userId socket = Some u ->
  connectedUsers hub !! u = Some user ->
  exists socket' user',
    sockets (handle hub (SubscribeMarketData id symbols)) !! id = Some socket' /\
    connectedUsers (handle hub (SubscribeMarketData id symbols)) !! u = Some user' /\
    rooms socket' = symbolSet symbols ∪ rooms socket /\
    subscriptions user' = symbolSet symbols ∪ subscriptions user /\
    sameElsewhere id u hub (handle hub (SubscribeMarketData id symbols)) /\
    forall s, In s symbols ->
      exists requested rest,
        fst (marketDataTick env now (handle hub (SubscribeMarketData id symbols)) st)
        = BatchRequested requested :: rest /\
        In (toUpperCase s) requested.
Proof.
  intros Hid Hown Hu. simpl.
  destruct (subscribe_recorded id u symbols hub socket user Hid Hown Hu)
    as (socket' & user' & H1 & H2 & H3 & H4 & H5 & H6).
  exists socket', user'. repeat split; try assumption; try apply H6.
  intros s Hs.
  assert (toUpperCase s ∈ subscribedSymbols (fold_left (subscribeOne id) symbols hub))
    as Hrec.
  { apply elem_of_subscribedSymbols. exists u, user'. split; [exact H3|].
    rewrite H5. apply elem_of_union_l. unfold symbolSet.
    apply elem_of_list_to_set, list_elem_of_In. now apply in_map. }
  apply elem_of_elements, list_elem_of_In in Hrec.
  unfold marketDataTick.
  destruct (elements (subscribedSymbols (fold_left (subscribeOne id) symbols hub)))
    as [|s0 l]; [destruct Hrec|].
  unfold broadcastMarketDataUpdate. cbn [fst]. eauto.
Qed.

(** [sendCurrentMarketData(socket, symbols)], which
    [handleMarketDataSubscription] starts last and does not await: one
    batch for the symbols as the client sent them, which goes through
    the cache and the collection as every batch, emitted to the socket
    alone; [None] when the batch rejects, which is logged. *)
Definition sendCurrentMarketData (env : MarketDataService.Env) (now : Z)
  (symbols : list string) (st : MarketDataService.State)
  : option (gmap string MarketDataService.Entry) * MarketDataService.State :=
  MarketDataService.getBatchMarketData env now symbols st.

(** A message as the server handles it: [handle] on the hub and, for
    the subscription of a socket, the snapshot on the market data. *)
Definition serve (env : MarketDataService.Env) (now : Z) (hub : Hub)
  (st : MarketDataService.State) (msg : Message) : Hub * MarketDataService.State :=
  (handle hub msg,
   match msg with
   | SubscribeMarketData id symbols =>
     match sockets hub !! id with
     | Some _ => snd (sendCurrentMarketData env now symbols st)
     | None => st
     end
   | _ => st
   end).

Definition isRequest (e : Effect) : bool :=
  match e with
  | BatchRequested _ => true
  | _ => false
  end.

(** The batch a tick requests depends on the recorded symbols only. *)
Lemma tick_requests env now hub st :
  List.filter isRequest (fst (marketDataTick env now hub st))
  = match elements (subscribedSymbols hub) with
    | [] => []
    | symbols => [BatchRequested symbols]
    end.
Proof.
  unfold marketDataTick.
  destruct (elements (subscribedSymbols hub)) as [|s0 l]; [reflexivity|].
  unfold broadcastMarketDataUpdate. cbn [fst List.filter isRequest]. f_equal.
  destruct (fst (MarketDataService.getBatchMarketData env now (s0 :: l) st));
    [|reflexivity].
  generalize (s0 :: l). intros symbols.
  induction symbols as [|s symbols IH]; simpl; auto.
Qed.

(** A subscription of a socket that connected without a user: the
    socket joins the rooms and the snapshot runs its batch on the cache
    and the collection, but nothing is recorded.  On whatever market
    data, the tick does with the hub after the subscription exactly
    what it does with the hub before it; and on the market data the
    snapshot left it requests what it would have requested without the
    subscription. *)
Theorem subscription_without_user_is_not_recorded
  env now st hub id socket symbols :
  sockets hub !! id = Some socket -> socket_userId socket = None ->
  let hub' := fst (serve env now hub st (SubscribeMarketData id symbols)) in
  let st' := snd (serve env now hub st (SubscribeMarketData id symbols)) in
  (exists socket',
     sockets hub' !! id = Some socket' /\
     rooms socket' = symbolSet symbols ∪ rooms socket) /\
  connectedUsers hub' = connectedUsers hub /\
  st' = snd (MarketDataService.getBatchMarketData env now symbols st) /\
  (forall env' now' st'',
     marketDataTick env' now' hub' st'' = marketDataTick env' now' hub st'') /\
  (forall env' now',
     List.filter isRequest (fst (marketDataTick env' now' hub' st'))
     = List.filter isRequest (fst (marketDataTick env' now' hub st))).
Proof.
  intros Hid Hown hub' st'. subst hub' st'. unfold serve. cbn [fst snd handle].
  rewrite Hid.
  assert (forall symbols hub socket,
            sockets hub !! id = Some socket -> socket_userId socket = None ->
            (exists socket',
               sockets (fold_left (subscribeOne id) symbols hub) !! id = Some socket' /\
               rooms socket' = symbolSet symbols ∪ rooms socket) /\
            connectedUsers (fold_left (subscribeOne id) symbols hub)
            = connectedUsers hub) as Hgen.
  { clear. induction symbols as [|s symbols IH]; intros hub socket Hid Hown.
    - split; [|reflexivity]. exists socket. split; [exact Hid|].
      unfold symbolSet. simpl. set_solver.
    - simpl.
      destruct (IH (subscribeOne id hub s)
                  (mkSocket None ({[toUpperCase s]} ∪ rooms socket)))
        as [(socket' & H1 & H2) H3].
      + unfold subscribeOne. rewrite Hid, Hown. simpl. now rewrite lookup_insert_eq.
      + reflexivity.
      + split.
        * exists socket'. split; [exact H1|]. rewrite H2. simpl.
          unfold symbolSet. simpl. set_solver.
        * rewrite H3. unfold subscribeOne. now rewrite Hid, Hown. }
  destruct (Hgen symbols hub socket Hid Hown) as [Hrooms Husers].
  split; [exact Hrooms|]. split; [exact Husers|]. split; [reflexivity|].
  assert (subscribedSymbols (fold_left (subscribeOne id) symbols hub)
          = subscribedSymbols hub) as Hsame
    by (unfold subscribedSymbols; now rewrite Husers).
  split.
  - intros env' now' st''. unfold marketDataTick. now rewrite Hsame.
  - intros env' now'. rewrite !tick_requests. now rewrite Hsame.
Qed.

(** An unsubscription of a socket whose user has an entry: the socket
    leaves the rooms of the upper-cased symbols and the symbols are no
    longer recorded for the user, even when another socket of the user
    is still in one of those rooms; nothing else changes. *)
Theorem unsubscription_of_a_user_is_recorded hub id socket u user symbols :
  sockets hub !! id = Some socket -> socket_userId socket = Some u ->
  connectedUsers hub !! u = Some user ->
  exists socket' user',
    sockets (handle hub (UnsubscribeMarketData id symbols)) !! id = Some socket' /\
    connectedUsers (handle hub (UnsubscribeMarketData id symbols)) !! u = Some user' /\
    rooms socket' = rooms socket ∖ symbolSet symbols /\
    subscriptions user' = subscriptions user ∖ symbolSet symbols /\
    sameElsewhere id u hub (handle hub (UnsubscribeMarketData id symbols)).
Proof.
  intros Hid Hown Hu. simpl.
  destruct (unsubscribe_recorded id u symbols hub socket user Hid Hown Hu)
    as (socket' & user' & H1 & H2 & H3 & H4 & H5 & H6).
  exists socket', user'. repeat split; try assumption; apply H6.
Qed.

(** When a socket of user [u] disconnects, the socket is gone and so is
    the entry of [u], with everything recorded for [u], while every
    other socket, of the same user too, stays in its rooms: the symbols
    of such a socket are no longer among those the tick collects unless
    another user has them recorded. *)
Theorem disconnection_drops_the_users_entry hub id socket u :
  sockets hub !! id = Some socket -> socket_userId socket = Some u ->
  sockets (handle hub (Disconnect id)) !! id = None /\
  connectedUsers (handle hub (Disconnect id)) !! u = None /\
  sameElsewhere id u hub (handle hub (Disconnect id)) /\
  forall S, S ∈ subscribedSymbols (handle hub (Disconnect id)) <->
            exists v user, v <> u /\ connectedUsers hub !! v = Some user /\
                           S ∈ subscriptions user.
Proof.
  intros Hid Hown. simpl. unfold handleDisconnection. rewrite Hid, Hown.
  split; [apply lookup_delete_eq|]. split; [apply lookup_delete_eq|]. split.
  - split; intros i Hi; simpl; now rewrite lookup_delete_ne.
  - intros S. rewrite elem_of_subscribedSymbols. simpl. split.
    + intros (v & user & Hv & HS). apply lookup_delete_Some in Hv.
      destruct Hv as [Hne Hv]. exists v, user. auto.
    + intros (v & user & Hne & Hv & HS). exists v, user. split; auto.
      rewrite lookup_delete_ne; auto.
Qed.

(** ** Two connections: socket 1 of user 7, socket 2 without a user *)

Definition twoSockets : Hub := after [Connection 1 (Some 7%nat); Connection 2 None].

Lemma twoSockets_user : sockets twoSockets !! 1%nat = Some (mkSocket (Some 7%nat) ∅).
Proof. vm_compute. reflexivity. Qed.

Lemma twoSockets_anonymous : sockets twoSockets !! 2%nat = Some (mkSocket None ∅).
Proof. vm_compute. reflexivity. Qed.

Lemma twoSockets_entry :
  connectedUsers twoSockets !! 7%nat = Some (mkConnectedUser 1 ∅).
Proof. vm_compute. reflexivity. Qed.

Lemma tick_requests_and_emits_witness :
  fst (marketDataTick MarketDataService.infyDown 1000
         (after [Connection 1 (Some 7%nat); SubscribeMarketData 1 ["tcs"]])
         (MarketDataService.mkState ∅ ∅))
  = BatchRequested
      (elements (subscribedSymbols
                   (after [Connection 1 (Some 7%nat); SubscribeMarketData 1 ["tcs"]]))) ::
    match fst (MarketDataService.getBatchMarketData MarketDataService.infyDown 1000
                 (elements (subscribedSymbols
                    (after [Connection 1 (Some 7%nat); SubscribeMarketData 1 ["tcs"]])))
                 (MarketDataService.mkState ∅ ∅)) with
    | Some batch =>
      map (fun S => Emitted S S (batch !! S))
        (elements (subscribedSymbols
                     (after [Connection 1 (Some 7%nat); SubscribeMarketData 1 ["tcs"]])))
    | None => [ErrorLogged]
    end.
Proof.
  apply (tick_requests_and_emits_the_recorded_symbols MarketDataService.infyDown
           1000 [Connection 1 (Some 7%nat); SubscribeMarketData 1 ["tcs"]]
           (MarketDataService.mkState ∅ ∅)).
  intros Hempty.
  assert ("TCS" ∈ subscribedSymbols
            (after [Connection 1 (Some 7%nat); SubscribeMarketData 1 ["tcs"]])) as Hin.
  { apply elem_of_subscribedSymbols.
    exists 7%nat, (mkConnectedUser 1 {["TCS"]}). split.
    - vm_compute. reflexivity.
    - simpl. now apply elem_of_singleton. }
  rewrite Hempty in Hin. now apply not_elem_of_empty in Hin.
Defined.

Lemma subscription_of_a_user_is_served_witness :
  exists requested rest,
    fst (marketDataTick MarketDataService.infyDown 1000
           (handle twoSockets (SubscribeMarketData 1 ["tcs"]))
           (MarketDataService.mkState ∅ ∅))
    = BatchRequested requested :: rest /\
    In "TCS" requested.
Proof.
  destruct (subscription_of_a_user_is_served MarketDataService.infyDown 1000
              (MarketDataService.mkState ∅ ∅) twoSockets 1
              (mkSocket (Some 7%nat) ∅) 7 (mkConnectedUser 1 ∅) ["tcs"]
              twoSockets_user eq_refl twoSockets_entry)
    as (socket' & user' & _ & _ & _ & _ & _ & Hserved).
  apply (Hserved "tcs"). now left.
Defined.

Lemma subscription_without_user_witness :
  connectedUsers (fst (serve MarketDataService.infyDown 1000 twoSockets
                         (MarketDataService.mkState ∅ ∅)
                         (SubscribeMarketData 2 ["tcs"])))
  = connectedUsers twoSockets /\
  MarketDataService.cache
    (snd (serve MarketDataService.infyDown 1000 twoSockets
            (MarketDataService.mkState ∅ ∅) (SubscribeMarketData 2 ["tcs"])))
  <> ∅.
Proof.
  split.
  - exact (proj1 (proj2 (subscription_without_user_is_not_recorded
                           MarketDataService.infyDown 1000
                           (MarketDataService.mkState ∅ ∅) twoSockets 2
                           (mkSocket None ∅) ["tcs"]
                           twoSockets_anonymous eq_refl))).
  - intros H.
    assert (MarketDataService.cache
              (snd (serve MarketDataService.infyDown 1000 twoSockets
                      (MarketDataService.mkState ∅ ∅) (SubscribeMarketData 2 ["tcs"])))
            !! "market_tcs" = None) as Hno by (rewrite H; apply lookup_empty).
    vm_compute in Hno. discriminate.
Defined.

Lemma unsubscription_of_a_user_witness :
  exists socket',
    sockets (handle (handle twoSockets (SubscribeMarketData 1 ["tcs"; "infy"]))
               (UnsubscribeMarketData 1 ["tcs"])) !! 1%nat
    = Some socket' /\
    rooms socket' = (symbolSet ["tcs"; "infy"] ∪ ∅) ∖ symbolSet ["tcs"].
Proof.
  destruct (subscribe_recorded 1 7 ["tcs"; "infy"] twoSockets
              (mkSocket (Some 7%nat) ∅) (mkConnectedUser 1 ∅)
              twoSockets_user eq_refl twoSockets_entry)
    as (socket1 & user1 & H1 & H2 & H3 & H4 & _).
  destruct (unsubscription_of_a_user_is_recorded
              (handle twoSockets (SubscribeMarketData 1 ["tcs"; "infy"])) 1
              socket1 7 user1 ["tcs"] H1 H2 H3)
    as (socket' & user' & G1 & _ & G3 & _).
  exists socket'. split; [exact G1|]. rewrite G3. simpl in H4. now rewrite H4.
Defined.

Lemma disconnection_drops_the_users_entry_witness :
  connectedUsers (handle twoSockets (Disconnect 1)) !! 7%nat = None.
Proof.
  exact (proj1 (proj2 (disconnection_drops_the_users_entry twoSockets 1
                         (mkSocket (Some 7%nat) ∅) 7
                         twoSockets_user eq_refl))).
Defined.

End WebSocketService.
